(** * EnvSimple CLI: context resolution, env-file codec, override merge,
      version tracker and the pull / push / rollback / print commands.

    A shallow embedding of the TypeScript sources:
    - [JS]             the ECMAScript built-ins the sources call;
    - [FileOps]        env/file-ops.ts (the pure part);
    - [Errors]         utils/errors.ts;
    - [Context]        config/context.ts;
    - [VersionTracker] utils/version-tracker.ts;
    - [Cli]            the world a command runs in, utils/prompts.ts,
                       output/formatter.ts and the commands;
    - [Remote]         a sample backend, to run the commands;
    - [Scenes]         the concrete inputs the examples run on.
    Definitions come first, the lemmas and theorems about them follow. *)

From Stdlib Require Import List NArith ZArith Bool Lia String Ascii.
From Stdlib Require Import Permutation Sorted.
Import ListNotations.

Set Implicit Arguments.

(* ================================================================== *)
(** * ECMAScript built-ins *)
(* ================================================================== *)

Module JS.

(** A JavaScript string is a sequence of UTF-16 code units. *)
Definition code_unit := N.
Definition jstring := list code_unit.

(** String literals of the sources, written as Rocq strings. *)
Definition lit (s : string) : jstring :=
  map N_of_ascii (list_ascii_of_string s).

Definition LF : code_unit := 10%N.
Definition CR : code_unit := 13%N.
Definition EQUALS : code_unit := 61%N.
Definition HASH : code_unit := 35%N.
Definition DQUOTE : code_unit := 34%N.
Definition SQUOTE : code_unit := 39%N.
Definition SLASH : code_unit := 47%N.

(** ECMAScript WhiteSpace and LineTerminator: the code units removed by
    [String.prototype.trim] and matched by the regular expression
    class [\s]. *)
Definition is_ws (c : code_unit) : bool :=
  ((9 <=? c) && (c <=? 13) || (c =? 32) || (c =? 160) || (c =? 0x1680)
   || (0x2000 <=? c) && (c <=? 0x200a) || (c =? 0x2028) || (c =? 0x2029)
   || (c =? 0x202f) || (c =? 0x205f) || (c =? 0x3000) || (c =? 0xfeff))%N.

(** [===] on strings. *)
Fixpoint jstr_eqb (a b : jstring) : bool :=
  match a, b with
  | [], [] => true
  | x :: a', y :: b' => (x =? y)%N && jstr_eqb a' b'
  | _, _ => false
  end.

Definition is_empty (s : jstring) : bool :=
  match s with [] => true | _ => false end.

(** [s.trimStart()], [s.trimEnd()], [s.trim()]. *)
Fixpoint trimStart (s : jstring) : jstring :=
  match s with
  | [] => []
  | c :: s' => if is_ws c then trimStart s' else s
  end.

Definition trimEnd (s : jstring) : jstring := rev (trimStart (rev s)).

Definition trim (s : jstring) : jstring := trimEnd (trimStart s).

(** [s.split(sep)] for a separator of one code unit. *)
Fixpoint split (sep : code_unit) (s : jstring) : list jstring :=
  match s with
  | [] => [[]]
  | c :: s' =>
      if (c =? sep)%N then [] :: split sep s'
      else match split sep s' with
           | l :: ls => (c :: l) :: ls
           | [] => [[c]]
           end
  end.

(** [parts.join(sep)]. *)
Fixpoint join (sep : jstring) (parts : list jstring) : jstring :=
  match parts with
  | [] => []
  | [p] => p
  | p :: rest => p ++ sep ++ join sep rest
  end.

(** [s.indexOf(c)] for a pattern of one code unit; -1 when absent. *)
Fixpoint indexOf (c : code_unit) (s : jstring) : Z :=
  match s with
  | [] => (-1)%Z
  | x :: s' =>
      if (x =? c)%N then 0%Z
      else let i := indexOf c s' in
           if (i =? -1)%Z then (-1)%Z else (i + 1)%Z
  end.

Definition len (s : jstring) : Z := Z.of_nat (List.length s).

(** [s.substring(a, b)]: both indices are clamped to [0, length] and
    swapped when the first exceeds the second. *)
Definition clamp (s : jstring) (i : Z) : Z := Z.max 0 (Z.min i (len s)).

Definition substring (s : jstring) (a b : Z) : jstring :=
  let a' := clamp s a in
  let b' := clamp s b in
  let lo := Z.min a' b' in
  let hi := Z.max a' b' in
  firstn (Z.to_nat (hi - lo)) (skipn (Z.to_nat lo) s).

(** [s.substring(a)]. *)
Definition substring_from (s : jstring) (a : Z) : jstring :=
  substring s a (len s).

(** [s.startsWith(p)], [s.endsWith(p)], [s.includes(p)]. *)
Fixpoint startsWith (s p : jstring) : bool :=
  match p, s with
  | [], _ => true
  | y :: p', x :: s' => (x =? y)%N && startsWith s' p'
  | _ :: _, [] => false
  end.

Definition endsWith (s p : jstring) : bool := startsWith (rev s) (rev p).

Fixpoint includes (s p : jstring) : bool :=
  startsWith s p ||
  match s with
  | [] => false
  | _ :: s' => includes s' p
  end.

(** [s.replace(/\r\n/g, '\n')]. *)
Fixpoint replace_crlf (s : jstring) : jstring :=
  match s with
  | [] => []
  | c :: s' =>
      match s' with
      | d :: s'' =>
          if (c =? CR)%N && (d =? LF)%N then LF :: replace_crlf s''
          else c :: replace_crlf s'
      | [] => [c]
      end
  end.

(** [/[\s#]/.test(s)]. *)
Definition test_ws_or_hash (s : jstring) : bool :=
  existsb (fun c => is_ws c || (c =? HASH)%N) s.

(** ** Objects used as string-keyed records

    [Record<string, V>] is kept as the list of its own enumerable
    properties in property order: array-index keys first, in ascending
    numeric order, then the other keys in order of creation. *)
Definition Record (V : Type) := list (jstring * V).

Section Objects.
Variable V : Type.

Fixpoint obj_get (o : Record V) (k : jstring) : option V :=
  match o with
  | [] => None
  | (k', v) :: o' => if jstr_eqb k' k then Some v else obj_get o' k
  end.

Definition has_key (o : Record V) (k : jstring) : bool :=
  match obj_get o k with Some _ => true | None => false end.

(** [Object.keys(o)] and [Object.entries(o)]. *)
Definition keys (o : Record V) : list jstring := map fst o.
Definition entries (o : Record V) : list (jstring * V) := o.

(** A key is an array index when it is the canonical decimal numeral
    of an integer below 2^32 - 1. *)
Fixpoint digits_value (acc : N) (k : jstring) : option N :=
  match k with
  | [] => Some acc
  | c :: k' =>
      if ((48 <=? c) && (c <=? 57))%N
      then digits_value (10 * acc + (c - 48))%N k'
      else None
  end.

Definition array_index (k : jstring) : option N :=
  match k with
  | [] => None
  | c :: k' =>
      if (c =? 48)%N && negb (is_empty k') then None
      else match digits_value 0%N k with
           | Some n => if (n <? 4294967295)%N then Some n else None
           | None => None
           end
  end.

Fixpoint obj_replace (k : jstring) (v : V) (o : Record V) : Record V :=
  match o with
  | [] => []
  | (k', v') :: o' =>
      if jstr_eqb k' k then (k', v) :: o' else (k', v') :: obj_replace k v o'
  end.

Fixpoint obj_insert_index (i : N) (k : jstring) (v : V) (o : Record V)
  : Record V :=
  match o with
  | [] => [(k, v)]
  | (k', v') :: o' =>
      match array_index k' with
      | Some j =>
          if (j <? i)%N then (k', v') :: obj_insert_index i k v o'
          else (k, v) :: o
      | None => (k, v) :: o
      end
  end.

(** Defining the own property [k] (CreateDataProperty): an existing
    property keeps its place, a new one goes where the property order
    puts it. *)
Definition obj_set (k : jstring) (v : V) (o : Record V) : Record V :=
  if has_key o k then obj_replace k v o
  else match array_index k with
       | Some i => obj_insert_index i k v o
       | None => o ++ [(k, v)]
       end.

(** The assignment [o[k] = v] on an object created by a literal.  The
    key [__proto__] reaches the accessor of [Object.prototype] and
    creates no own property. *)
Definition obj_assign (k : jstring) (v : V) (o : Record V) : Record V :=
  if jstr_eqb k (lit "__proto__") then o else obj_set k v o.

(** [delete o[k]]. *)
Definition obj_delete (k : jstring) (o : Record V) : Record V :=
  filter (fun kv => negb (jstr_eqb (fst kv) k)) o.

(** The object literal [{ ...a, ...b }]. *)
Definition spread2 (a b : Record V) : Record V :=
  fold_left (fun acc kv => obj_set (fst kv) (snd kv) acc)
            (entries a ++ entries b) [].

(** A well-formed object has no two properties of the same key. *)
Definition wf_obj (o : Record V) : Prop := NoDup (keys o).

(** Writing a list of distinct properties one after the other. *)
Definition set_all (l : list (jstring * V)) (acc : Record V) : Record V :=
  fold_left (fun acc kv => obj_set (fst kv) (snd kv) acc) l acc.

End Objects.

(** ** [Array.prototype.sort]

    The sort is stable; [cmp a b > 0] puts [a] after [b]. *)
Section Sort.
Variable A : Type.
Variable cmp : A -> A -> Z.

Fixpoint sort_insert (x : A) (l : list A) : list A :=
  match l with
  | [] => [x]
  | y :: l' => if (cmp x y >? 0)%Z then y :: sort_insert x l' else x :: l
  end.

Definition sort (l : list A) : list A := fold_right sort_insert [] l.

(** The order a comparison function stands for. *)
Definition ordered (a b : A) : Prop := (cmp a b <= 0)%Z.

End Sort.

(** Comparison of strings by code units, the order of [<] on strings. *)
Fixpoint ordinalCompare (a b : jstring) : Z :=
  match a, b with
  | [], [] => 0%Z
  | [], _ :: _ => (-1)%Z
  | _ :: _, [] => 1%Z
  | x :: a', y :: b' =>
      if (x <? y)%N then (-1)%Z
      else if (y <? x)%N then 1%Z
      else ordinalCompare a' b'
  end.

(** [String.prototype.localeCompare] is the collation of the runtime's
    locale data; the embedding takes it as a parameter.  [asciiCollate]
    is a sample collation in the manner of the default collator on
    ASCII letters: letters compare without regard to case first, and on
    a tie lower case precedes upper case.  It serves to run the
    definitions on concrete inputs. *)
Definition fold_case (c : code_unit) : code_unit :=
  if ((65 <=? c) && (c <=? 90))%N then (c + 32)%N else c.

Definition asciiCollate (a b : jstring) : Z :=
  let p := ordinalCompare (map fold_case a) (map fold_case b) in
  if (p =? 0)%Z then (- ordinalCompare a b)%Z else p.

(** A string is its own trim exactly when it neither starts nor ends
    with white space. *)
Definition edges_clean (s : jstring) : Prop :=
  match s with [] => True | c :: _ => is_ws c = false end /\
  match rev s with [] => True | c :: _ => is_ws c = false end.

End JS.

(* ================================================================== *)
(** * env/file-ops.ts: codec and override merge *)
(* ================================================================== *)

Module FileOps.
Import JS.

(** [Record<string, string>]: variable name to value. *)
Definition EnvMapping := Record jstring.

(** [applyOverrides]: [{ ...baseEnv, ...overrides }]. *)
Definition applyOverrides (baseEnv overrides : EnvMapping) : EnvMapping :=
  spread2 baseEnv overrides.

(** "Remove quotes if present". *)
Definition unquote (value : jstring) : jstring :=
  if (startsWith value [DQUOTE] && endsWith value [DQUOTE])
     || (startsWith value [SQUOTE] && endsWith value [SQUOTE])
  then substring value 1 (len value - 1)
  else value.

(** One turn of the loop of [parseEnvContent]. *)
Definition parse_line (result : EnvMapping) (line : jstring) : EnvMapping :=
  let trimmed := trim line in
  if is_empty trimmed || startsWith trimmed [HASH] then result
  else
    let equalIndex := indexOf EQUALS trimmed in
    if (equalIndex =? -1)%Z then result
    else
      let key := trim (substring trimmed 0 equalIndex) in
      let value := trim (substring_from trimmed (equalIndex + 1)) in
      obj_assign key (unquote value) result.

Definition parseEnvContent (content : jstring) : EnvMapping :=
  fold_left parse_line (split LF content) [].

(** The callback of [map] in [formatEnvContent]. *)
Definition format_entry (kv : jstring * jstring) : jstring :=
  let (key, value) := kv in
  let needsQuotes := test_ws_or_hash value in
  let formattedValue :=
    if needsQuotes then [DQUOTE] ++ value ++ [DQUOTE] else value in
  key ++ [EQUALS] ++ formattedValue.

Section Format.
Variable localeCompare : jstring -> jstring -> Z.

Definition compare_keys (a b : jstring * jstring) : Z :=
  localeCompare (fst a) (fst b).

Definition formatEnvContent (env : EnvMapping) : jstring :=
  join [LF] (map format_entry (sort compare_keys (entries env))) ++ [LF].

End Format.

(** The separator [createBackup], pull and rollback put before an
    appended capture. *)
Definition backup_separator (timestamp : jstring) : jstring :=
  [LF; LF] ++ lit "# ===== Backup from " ++ timestamp ++ lit " ====="
  ++ [LF; LF].

(** The vocabulary of the statements about formatting and parsing. *)

Definition ends_with_one_newline (s : jstring) : Prop :=
  exists body, s = body ++ [LF] /\ forall b, body <> b ++ [LF].

Definition quote_wrapped (v : jstring) : bool :=
  ((startsWith v [DQUOTE] && endsWith v [DQUOTE])
   || (startsWith v [SQUOTE] && endsWith v [SQUOTE]))
  && (2 <=? len v)%Z.

Definition roundtrip_key (k : jstring) : Prop :=
  k <> [] /\ trim k = k /\ ~ In LF k /\ ~ In EQUALS k
  /\ startsWith k [HASH] = false /\ k <> lit "__proto__".

Definition roundtrip_value (v : jstring) : Prop :=
  ~ In LF v /\ trim v = v
  /\ (test_ws_or_hash v = false -> quote_wrapped v = false).

Definition claimed_roundtrip_domain (m : EnvMapping) : Prop :=
  forall k v, In (k, v) m ->
    k <> [] /\ ~ In LF v /\ trim k = k /\ trim v = v.

End FileOps.

(* ================================================================== *)
(** * utils/errors.ts *)
(* ================================================================== *)

Module Errors.
Import JS.

(** A thrown value: [code] and [exitCode] are those of [CLIError] and
    are undefined on a plain [Error]. *)
Record JsError := mkError {
  err_code : option jstring;
  err_message : jstring;
  err_exitCode : option Z
}.

Definition CLIError (message : jstring) (code : string) (exitCode : Z)
  : JsError :=
  mkError (Some (lit code)) message (Some exitCode).

Definition PlainError (message : jstring) : JsError :=
  mkError None message None.

Definition AuthenticationError (message : jstring) : JsError :=
  CLIError message "AUTHENTICATION_REQUIRED" 1.

Definition ConfigurationError (message : jstring) : JsError :=
  CLIError message "CONFIGURATION_ERROR" 1.

Definition ConflictError (message : jstring) : JsError :=
  CLIError message "CONFLICT" 1.

Definition has_code (e : JsError) (code : string) : bool :=
  match err_code e with
  | Some c => jstr_eqb c (lit code)
  | None => false
  end.

(** The result of a call that returns or throws. *)
Inductive Thrown (A : Type) : Type :=
| Ret (a : A)
| Throw (e : JsError).
Arguments Ret {A} a.
Arguments Throw {A} e.

End Errors.

(* ================================================================== *)
(** * config/context.ts *)
(* ================================================================== *)

Module Context.
Import JS Errors.

Record SharedContext := mkShared {
  sc_org : jstring;
  sc_project : jstring;
  sc_environment : jstring
}.

(** [LocalContext]: every field optional.  A parsed YAML mapping is
    read at this type, for [.envsimple] as for [.envsimple.local]. *)
Record LocalContext := mkLocal {
  lc_org : option jstring;
  lc_project : option jstring;
  lc_environment : option jstring;
  lc_overrides : option (Record jstring)
}.

Inductive Source := flags | local | shared | interactive.

Record ResolvedContext := mkResolved {
  org : jstring;
  project : jstring;
  environment : jstring;
  source : Source
}.

(** [CLIOptions], with the fields the commands add to it. *)
Record CLIOptions := mkOptions {
  opt_json : bool;
  opt_raw : bool;
  opt_org : option jstring;
  opt_project : option jstring;
  opt_environment : option jstring;
  opt_force : bool;
  opt_token : bool;
  opt_version : option Z;
  opt_target : option Z
}.

(** What [parseYAML] returns: a mapping, or a value that is null or
    whose [typeof] is not ['object']. *)
Inductive YamlDoc :=
| YNotObject
| YObject (fields : LocalContext).

(** A configuration file as a load finds it: not there, there with a
    read or a parse that throws, or there and parsed. *)
Inductive ConfigFile :=
| Missing
| Fails (e : JsError)
| Parsed (doc : YamlDoc).

(** Truthiness of an optional string: undefined and [''] are falsy. *)
Definition truthy (s : option jstring) : bool :=
  match s with
  | Some (_ :: _) => true
  | _ => false
  end.

(** [a || b]. *)
Definition js_or (a b : option jstring) : option jstring :=
  if truthy a then a else b.

(** The [catch] clause shared by both loaders. *)
Definition is_enoent (e : JsError) : bool :=
  has_code e "ENOENT" || includes (err_message e) (lit "No such file").

Definition catch_enoent {A} (r : Thrown (option A)) : Thrown (option A) :=
  match r with
  | Throw e => if is_enoent e then Ret None else Throw e
  | _ => r
  end.

(** The string held by a field known to be truthy. *)
Definition the_string (s : option jstring) : jstring :=
  match s with Some x => x | None => [] end.

Definition loadSharedContext (file : ConfigFile)
  : Thrown (option SharedContext) :=
  catch_enoent
    match file with
    | Missing => Ret None
    | Fails e => Throw e
    | Parsed YNotObject =>
        Throw (ConfigurationError (lit "Invalid .envsimple file format"))
    | Parsed (YObject parsed) =>
        let org := lc_org parsed in
        let project := lc_project parsed in
        let environment := lc_environment parsed in
        if negb (truthy org) || negb (truthy project)
           || negb (truthy environment)
        then
          Throw (ConfigurationError
            (lit ".envsimple must contain org, project, and environment fields"))
        else
          Ret (Some (mkShared (the_string org) (the_string project)
                              (the_string environment)))
    end.

Definition loadLocalContext (file : ConfigFile)
  : Thrown (option LocalContext) :=
  catch_enoent
    match file with
    | Missing => Ret None
    | Fails e => Throw e
    | Parsed YNotObject => Ret None
    | Parsed (YObject parsed) => Ret (Some parsed)
    end.

(** [local?.f] and [shared?.f]. *)
Definition local_field (f : LocalContext -> option jstring)
  (l : option LocalContext) : option jstring :=
  match l with Some c => f c | None => None end.

Definition shared_field (f : SharedContext -> jstring)
  (s : option SharedContext) : option jstring :=
  option_map f s.

Definition resolveContext (options : CLIOptions)
  (sharedFile localFile : ConfigFile) (skipLocal : bool)
  : Thrown (option ResolvedContext) :=
  match loadSharedContext sharedFile with
  | Throw e => Throw e
  | Ret shared_ =>
    match (if skipLocal then Ret None else loadLocalContext localFile) with
    | Throw e => Throw e
    | Ret local_ =>
      if truthy (opt_org options) && truthy (opt_project options)
         && truthy (opt_environment options)
      then
        Ret (Some (mkResolved (the_string (opt_org options))
                              (the_string (opt_project options))
                              (the_string (opt_environment options))
                              flags))
      else
        let resolvedOrg :=
          js_or (js_or (opt_org options) (local_field lc_org local_))
                (shared_field sc_org shared_) in
        let resolvedProject :=
          js_or (js_or (opt_project options) (local_field lc_project local_))
                (shared_field sc_project shared_) in
        let resolvedEnv :=
          js_or (js_or (opt_environment options)
                       (local_field lc_environment local_))
                (shared_field sc_environment shared_) in
        if truthy resolvedOrg && truthy resolvedProject && truthy resolvedEnv
        then
          let source :=
            match local_ with Some _ => local | None => shared end in
          Ret (Some (mkResolved (the_string resolvedOrg)
                                (the_string resolvedProject)
                                (the_string resolvedEnv) source))
        else Ret None
    end
  end.

(** [getLocalOverrides]: [local?.overrides || {}]. *)
Definition getLocalOverrides (localFile : ConfigFile)
  : Thrown (Record jstring) :=
  match loadLocalContext localFile with
  | Throw e => Throw e
  | Ret (Some l) =>
      Ret (match lc_overrides l with Some o => o | None => [] end)
  | Ret None => Ret []
  end.

(** The vocabulary of the statements about contexts. *)

Definition missing_or_empty (field : option jstring) : Prop :=
  field = None \/ field = Some [].

Definition lacks_required_field (doc : YamlDoc) : Prop :=
  match doc with
  | YNotObject => True
  | YObject fields =>
      missing_or_empty (lc_org fields)
      \/ missing_or_empty (lc_project fields)
      \/ missing_or_empty (lc_environment fields)
  end.

Fixpoint first_present (candidates : list (option jstring)) : option jstring :=
  match candidates with
  | [] => None
  | c :: rest => if truthy c then c else first_present rest
  end.

Definition is_configuration_error (e : JsError) : Prop :=
  err_code e = Some (lit "CONFIGURATION_ERROR").

End Context.

(* ================================================================== *)
(** * utils/version-tracker.ts *)
(* ================================================================== *)

Module VersionTracker.
Import JS.

Record VersionTracker := mkTracker {
  vt_org : jstring;
  vt_project : jstring;
  vt_environment : jstring;
  base_version : Z;
  last_pulled_at : jstring
}.

(** The tracker file: not there, there and not JSON, or there holding
    the serialisation of [data]. *)
Inductive TrackerFile :=
| NoTracker
| BadTracker
| Tracker (data : Record VersionTracker).

(** [loadVersionTracker]: any failure yields [{}]. *)
Definition loadVersionTracker (file : TrackerFile) : Record VersionTracker :=
  match file with
  | Tracker data => data
  | _ => []
  end.

Definition saveVersionTracker (data : Record VersionTracker) : TrackerFile :=
  Tracker data.

Definition tracker_key (org project environment : jstring) : jstring :=
  org ++ [SLASH] ++ project ++ [SLASH] ++ environment.

(** [getVersionInfo]: [data[key] || null]. *)
Definition getVersionInfo (file : TrackerFile)
  (org project environment : jstring) : option VersionTracker :=
  obj_get (loadVersionTracker file) (tracker_key org project environment).

(** [updateVersionInfo]; [now] is [new Date().toISOString()]. *)
Definition updateVersionInfo (file : TrackerFile)
  (org project environment : jstring) (baseVersion : Z) (now : jstring)
  : TrackerFile :=
  let data := loadVersionTracker file in
  let key := tracker_key org project environment in
  saveVersionTracker
    (obj_assign key (mkTracker org project environment baseVersion now) data).

End VersionTracker.

(* ================================================================== *)
(** * The commands: world, prompts, output, remote calls *)
(* ================================================================== *)

Module Cli.
Import JS Errors Context VersionTracker FileOps.

(** ** What the remote returns (utils/types.ts, api/client.ts) *)

Record Organization := mkOrg { org_slug : jstring; org_name : jstring }.
Record Project := mkProject { proj_id : jstring; proj_name : jstring }.
Record Environment := mkEnv { env_id : jstring; env_name : jstring }.

Record VersionSnapshot := mkSnapshot {
  version_number : Z;
  plaintext : jstring
}.

Record PushedVersion := mkPushed {
  pv_version_number : Z;
  pv_is_forced_push : bool
}.

Record Rollback := mkRollback {
  rb_version_number : Z;
  rolled_back_from : Z;
  rolled_back_to : Z
}.

(** A request of api/client.ts with its arguments. *)
Inductive Call :=
| ListOrganizations
| ListProjects (orgSlug : jstring)
| ListEnvironments (projectId : jstring)
| GetCurrentVersion (envId : jstring) (serviceToken : option jstring)
| GetVersionSnapshot (envId : jstring) (versionNumber : Z)
    (serviceToken : option jstring)
| PushVersion (envId : jstring) (text : jstring)
    (baseVersionNumber : option Z) (serviceToken : option jstring)
| RollbackVersion (envId : jstring) (targetVersionNumber : Z).

(** ** What a command shows and does, in order *)

(** A message is kept as the pieces of its template. *)
Inductive Fragment :=
| Text (s : string)
| Str (s : jstring)
| Num (n : Z)
| Cyan (s : jstring).

Definition Message := list Fragment.

Inductive JsonValue :=
| JText (s : string)
| JString (s : jstring)
| JCode (c : option jstring) (fallback : string)
| JNumber (n : Z)
| JBoolean (b : bool)
| JKeys (l : list jstring)
| JEnv (o : Record jstring)
| JRollback (r : Rollback).

Definition Payload := list (string * JsonValue).

Inductive Event :=
| Success (m : Message)
| Warning (m : Message)
| ErrorOut (m : Message)
| Info (m : Message)
| JsonOut (p : Payload)
| ConsoleLog (m : Message)
| Prompt (m : Message)
| Request (c : Call) (ok : bool)
| EnvWritten (content : jstring)
| BackupWritten (content : jstring)
| TrackerWritten (key : jstring) (baseVersion : Z)
| SharedContextWritten
| GitignoreEnsured
| Telemetry (name : string).

(** ** The remote as the client sees it: each request answers or
    throws, and may change the remote. *)
Record Api (R : Type) := mkApi {
  listOrganizations : R -> Thrown (list Organization) * R;
  listProjects : jstring -> R -> Thrown (list Project) * R;
  listEnvironments : jstring -> R -> Thrown (list Environment) * R;
  getCurrentVersion :
    jstring -> option jstring -> R -> Thrown VersionSnapshot * R;
  getVersionSnapshot :
    jstring -> Z -> option jstring -> R -> Thrown VersionSnapshot * R;
  pushVersion :
    jstring -> jstring -> option Z -> option jstring ->
    R -> Thrown PushedVersion * R;
  rollbackVersion : jstring -> Z -> R -> Thrown Rollback * R
}.

(** ** The world of one invocation *)
Record World (R : Type) := mkWorld {
  env_file : option jstring;        (* ./.env *)
  backup_file : option jstring;     (* ./.env.copy *)
  shared_file : ConfigFile;         (* ./.envsimple *)
  local_file : ConfigFile;          (* ./.envsimple.local *)
  tracker_file : TrackerFile;       (* ~/.envsimple/version-tracker.json *)
  credentials : option jstring;     (* access_token of credentials.json *)
  service_token : option jstring;   (* ENVSIMPLE_SERVICE_TOKEN *)
  remote : R;
  confirms : list (option bool);    (* answers to come; None: aborted *)
  selects : list (option nat);      (* choices to come; None: aborted *)
  clock : nat -> jstring;           (* readings of toISOString() *)
  ticks : nat;
  events : list Event
}.

(** How a computation ends: it returns, throws, or the process exits. *)
Inductive Outcome (A : Type) : Type :=
| Done (a : A)
| Raised (e : JsError)
| Exited (code : Z).
Arguments Done {A} a.
Arguments Raised {A} e.
Arguments Exited {A} code.

Section Model.
Variable R : Type.
Variable api : Api R.
Variable localeCompare : jstring -> jstring -> Z.

Definition M (A : Type) := World R -> Outcome A * World R.

Definition ret {A} (a : A) : M A := fun w => (Done a, w).

Definition bind {A B} (m : M A) (k : A -> M B) : M B :=
  fun w =>
    match m w with
    | (Done a, w') => k a w'
    | (Raised e, w') => (Raised e, w')
    | (Exited c, w') => (Exited c, w')
    end.

Definition throw {A} (e : JsError) : M A := fun w => (Raised e, w).

(** [process.exit(code)]. *)
Definition exit {A} (code : Z) : M A := fun w => (Exited code, w).

(** [try { m } catch (error) { h error }]. *)
Definition try_catch {A} (m : M A) (h : JsError -> M A) : M A :=
  fun w =>
    match m w with
    | (Raised e, w') => h e w'
    | r => r
    end.

Definition lift {A} (r : Thrown A) : M A :=
  match r with
  | Ret a => ret a
  | Throw e => throw e
  end.

Definition when (b : bool) (m : M unit) : M unit :=
  if b then m else ret tt.

Definition read {A} (f : World R -> A) : M A := fun w => (Done (f w), w).

Definition modify (g : World R -> World R) : M unit :=
  fun w => (Done tt, g w).

End Model.

Arguments ret {R A} a.
Arguments throw {R A} e.
Arguments exit {R A} code.
Arguments read {R A} f.
Arguments modify {R} g.
Arguments lift {R A} r.
Arguments when {R} b m.

Declare Scope cli_scope.
Delimit Scope cli_scope with cli.
Notation "x <- m ;; k" := (bind m (fun x => k))
  (at level 61, m at next level, right associativity) : cli_scope.
Notation "m ;;; k" := (bind m (fun _ => k))
  (at level 61, right associativity) : cli_scope.

Local Open Scope cli_scope.

Section Primitives.
Variable R : Type.
Variable api : Api R.

Local Abbreviation World := (World R).
Local Abbreviation M := (M R).

Definition set_env_file (w : World) (x : option jstring) : World :=
  mkWorld x (backup_file w) (shared_file w) (local_file w) (tracker_file w)
    (credentials w) (service_token w) (remote w) (confirms w) (selects w)
    (clock w) (ticks w) (events w).

Definition set_backup_file (w : World) (x : option jstring) : World :=
  mkWorld (env_file w) x (shared_file w) (local_file w) (tracker_file w)
    (credentials w) (service_token w) (remote w) (confirms w) (selects w)
    (clock w) (ticks w) (events w).

Definition set_shared_file (w : World) (x : ConfigFile) : World :=
  mkWorld (env_file w) (backup_file w) x (local_file w) (tracker_file w)
    (credentials w) (service_token w) (remote w) (confirms w) (selects w)
    (clock w) (ticks w) (events w).

Definition set_tracker_file (w : World) (x : TrackerFile) : World :=
  mkWorld (env_file w) (backup_file w) (shared_file w) (local_file w) x
    (credentials w) (service_token w) (remote w) (confirms w) (selects w)
    (clock w) (ticks w) (events w).

Definition set_remote (w : World) (x : R) : World :=
  mkWorld (env_file w) (backup_file w) (shared_file w) (local_file w)
    (tracker_file w) (credentials w) (service_token w) x (confirms w)
    (selects w) (clock w) (ticks w) (events w).

Definition set_confirms (w : World) (x : list (option bool)) : World :=
  mkWorld (env_file w) (backup_file w) (shared_file w) (local_file w)
    (tracker_file w) (credentials w) (service_token w) (remote w) x
    (selects w) (clock w) (ticks w) (events w).

Definition set_selects (w : World) (x : list (option nat)) : World :=
  mkWorld (env_file w) (backup_file w) (shared_file w) (local_file w)
    (tracker_file w) (credentials w) (service_token w) (remote w)
    (confirms w) x (clock w) (ticks w) (events w).

Definition set_ticks (w : World) (x : nat) : World :=
  mkWorld (env_file w) (backup_file w) (shared_file w) (local_file w)
    (tracker_file w) (credentials w) (service_token w) (remote w)
    (confirms w) (selects w) (clock w) x (events w).

Definition set_events (w : World) (x : list Event) : World :=
  mkWorld (env_file w) (backup_file w) (shared_file w) (local_file w)
    (tracker_file w) (credentials w) (service_token w) (remote w)
    (confirms w) (selects w) (clock w) (ticks w) x.

Definition emit (e : Event) : M unit :=
  modify (fun w => set_events w (events w ++ [e])).

(** [new Date().toISOString()]. *)
Definition now : M jstring :=
  fun w => (Done (clock w (ticks w)), set_ticks w (S (ticks w))).

(** *** output/formatter.ts: every method but [json] is silent in
    JSON mode. *)
Definition out_success (options : CLIOptions) (m : Message) : M unit :=
  if opt_json options then ret tt else emit (Success m).

Definition out_warning (options : CLIOptions) (m : Message) : M unit :=
  if opt_json options then ret tt else emit (Warning m).

Definition out_error (options : CLIOptions) (m : Message) : M unit :=
  if opt_json options then ret tt else emit (ErrorOut m).

Definition out_info (options : CLIOptions) (m : Message) : M unit :=
  if opt_json options then ret tt else emit (Info m).

Definition out_json (p : Payload) : M unit := emit (JsonOut p).

(** [maskSecret] of an output created with the command's options. *)
Definition maskSecret (options : CLIOptions) (value : jstring) (raw : bool)
  : jstring :=
  if raw || opt_raw options then value
  else if (len value <=? 4)%Z then lit "***"
  else substring value 0 2 ++ lit "***"
       ++ substring_from value (len value - 2).

Definition formatKeyValue (options : CLIOptions) (key value : jstring)
  (raw : bool) : Message :=
  [Cyan key; Text "="; Str (maskSecret options value raw)].

(** *** utils/prompts.ts *)
Definition interactive_required : JsError :=
  CLIError (lit "Interactive prompt required but --json mode is enabled")
           "INTERACTIVE_REQUIRED" 1.

Definition cancelled : JsError :=
  CLIError (lit "Operation cancelled") "CANCELLED" 1.

(** The answer of the user to a confirmation; no answer is an abort. *)
Definition nextConfirm : M bool :=
  fun w =>
    match confirms w with
    | Some b :: rest => (Done b, set_confirms w rest)
    | None :: rest => (Raised cancelled, set_confirms w rest)
    | [] => (Raised cancelled, w)
    end.

Definition confirm (message : Message) (options : CLIOptions) : M bool :=
  if opt_json options then throw interactive_required
  else emit (Prompt message) ;;; nextConfirm.

(** [select]: the answer is the position of the chosen entry; a
    position outside the choices leaves [response.value] undefined. *)
Definition nextSelect (choices : list (Message * jstring)) : M jstring :=
  fun w =>
    match selects w with
    | Some i :: rest =>
        match nth_error choices i with
        | Some (_, value) => (Done value, set_selects w rest)
        | None => (Raised cancelled, set_selects w rest)
        end
    | None :: rest => (Raised cancelled, set_selects w rest)
    | [] => (Raised cancelled, w)
    end.

Definition select (message : Message) (choices : list (Message * jstring))
  (options : CLIOptions) : M jstring :=
  if opt_json options then throw interactive_required
  else emit (Prompt message) ;;; nextSelect choices.

(** *** api/client.ts: a request, logged with how it ended *)
Definition request {A} (c : Call) (f : R -> Thrown A * R) : M A :=
  fun w =>
    let (r, remote') := f (remote w) in
    let w' := set_remote w remote' in
    match r with
    | Ret a => (Done a, set_events w' (events w' ++ [Request c true]))
    | Throw e => (Raised e, set_events w' (events w' ++ [Request c false]))
    end.

(** *** auth/credentials.ts *)
Definition quoted (s : jstring) : jstring := [DQUOTE] ++ s ++ [DQUOTE].

Definition requireAuth : M unit :=
  token <- read (fun w => credentials w) ;;
  if truthy token then ret tt
  else throw (AuthenticationError
         (lit "Not logged in. Run " ++ quoted (lit "envsimple login")
          ++ lit " first.")).

(** [getServiceToken] is not among the sources; it is taken to read
    the environment variable the error messages name. *)
Definition getServiceToken : M (option jstring) :=
  read (fun w => service_token w).

(** *** config/context.ts against the files of the world *)
Definition loadSharedContextM : M (option SharedContext) :=
  file <- read (fun w => shared_file w) ;; lift (loadSharedContext file).

Definition resolveContextM (options : CLIOptions) (skipLocal : bool)
  : M (option ResolvedContext) :=
  sharedFile <- read (fun w => shared_file w) ;;
  localFile <- read (fun w => local_file w) ;;
  lift (resolveContext options sharedFile localFile skipLocal).

Definition getLocalOverridesM : M (Record jstring) :=
  file <- read (fun w => local_file w) ;; lift (getLocalOverrides file).

(** [saveSharedContext]: the file then parses to the saved context. *)
Definition saveSharedContext (context : SharedContext) : M unit :=
  modify (fun w =>
    set_shared_file w
      (Parsed (YObject (mkLocal (Some (sc_org context))
                                (Some (sc_project context))
                                (Some (sc_environment context)) None)))) ;;;
  emit SharedContextWritten.

(** *** utils/version-tracker.ts against the tracker file *)
Definition getVersionInfoM (org project environment : jstring)
  : M (option VersionTracker) :=
  file <- read (fun w => tracker_file w) ;;
  ret (getVersionInfo file org project environment).

Definition updateVersionInfoM (org project environment : jstring)
  (baseVersion : Z) : M unit :=
  timestamp <- now ;;
  modify (fun w =>
    set_tracker_file w
      (updateVersionInfo (tracker_file w) org project environment
         baseVersion timestamp)) ;;;
  emit (TrackerWritten (tracker_key org project environment) baseVersion).

(** *** env/file-ops.ts against the files of the working directory *)
Definition readEnvFile : M jstring :=
  file <- read (fun w => env_file w) ;;
  ret (match file with Some content => content | None => [] end).

Definition writeEnvFile (content : jstring) : M unit :=
  modify (fun w => set_env_file w (Some content)) ;;;
  emit (EnvWritten content).

Definition writeBackup (content : jstring) : M unit :=
  modify (fun w => set_backup_file w (Some content)) ;;;
  emit (BackupWritten content).

(** [appendFileSync('.env.copy', text)]. *)
Definition appendBackup (text : jstring) : M unit :=
  existing <- read (fun w => backup_file w) ;;
  writeBackup (match existing with Some b => b | None => [] end ++ text).

(** [copyFileSync('.env', '.env.copy')]. *)
Definition copyEnvToBackup : M unit :=
  file <- read (fun w => env_file w) ;;
  match file with
  | Some content => writeBackup content
  | None => throw (mkError (Some (lit "ENOENT"))
                     (lit "ENOENT: no such file or directory") None)
  end.

(** [createBackup]. *)
Definition createBackup : M bool :=
  file <- read (fun w => env_file w) ;;
  match file with
  | None => ret false
  | Some content =>
      backup <- read (fun w => backup_file w) ;;
      match backup with
      | Some existingContent =>
          timestamp <- now ;;
          writeBackup (existingContent ++ backup_separator timestamp
                       ++ content) ;;;
          ret true
      | None => writeBackup content ;;; ret true
      end
  end.

(** [ensureGitignore] and [sendTelemetryEvent] touch files and
    services no command reads back; they are kept as events. *)
Definition ensureGitignore : M unit := emit GitignoreEnsured.
Definition sendTelemetryEvent (name : string) : M unit :=
  emit (Telemetry name).

End Primitives.

Arguments emit {R} e.
Arguments now {R}.
Arguments out_success {R} options m.
Arguments out_warning {R} options m.
Arguments out_error {R} options m.
Arguments out_info {R} options m.
Arguments out_json {R} p.
Arguments nextConfirm {R}.
Arguments nextSelect {R} choices.
Arguments confirm {R} message options.
Arguments select {R} message choices options.
Arguments request {R A} c f.
Arguments requireAuth {R}.
Arguments getServiceToken {R}.
Arguments loadSharedContextM {R}.
Arguments resolveContextM {R} options skipLocal.
Arguments getLocalOverridesM {R}.
Arguments saveSharedContext {R} context.
Arguments getVersionInfoM {R} org project environment.
Arguments updateVersionInfoM {R} org project environment baseVersion.
Arguments readEnvFile {R}.
Arguments writeEnvFile {R} content.
Arguments writeBackup {R} content.
Arguments appendBackup {R} text.
Arguments copyEnvToBackup {R}.
Arguments createBackup {R}.
Arguments ensureGitignore {R}.
Arguments sendTelemetryEvent {R} name.

(** ** The commands *)

Section Commands.
Variable R : Type.
Variable api : Api R.
Variable localeCompare : jstring -> jstring -> Z.

Local Abbreviation M := (M R).

(** The [catch] every command ends with: report, then
    [process.exit(error.exitCode || 1)]. *)
Definition exit_code (e : JsError) : Z :=
  match err_exitCode e with
  | Some c => if (c =? 0)%Z then 1%Z else c
  | None => 1%Z
  end.

Definition report_error (options : CLIOptions) (fallback : string)
  (unauthorized : bool) (e : JsError) : M unit :=
  (if opt_json options then
     out_json [("error"%string, JCode (err_code e) fallback);
               ("message"%string, JString (err_message e))]
   else if unauthorized && has_code e "PERMISSION_DENIED" then
     out_error options [Text "Unauthorized: "; Str (err_message e)]
   else out_error options [Str (err_message e)]) ;;;
  exit (exit_code e).

Definition command (options : CLIOptions) (fallback : string)
  (unauthorized : bool) (body : M unit) : M unit :=
  try_catch body (report_error options fallback unauthorized).

(** The opening of push and pull: service token or login. *)
Definition authenticate (options : CLIOptions) (greet : bool)
  : M (option jstring) :=
  if opt_token options then
    serviceToken <- getServiceToken ;;
    (if truthy serviceToken then ret tt
     else throw (PlainError (lit
       "ENVSIMPLE_SERVICE_TOKEN environment variable is required when using --token flag"))) ;;;
    (if negb (truthy (opt_org options)) || negb (truthy (opt_project options))
        || negb (truthy (opt_environment options))
     then
       sharedContext <- loadSharedContextM ;;
       match sharedContext with
       | Some _ => ret tt
       | None => throw (PlainError (lit
           "Either .envsimple file or --org, --project, --environment flags are required when using --token flag."))
       end
     else ret tt) ;;;
    out_info options [Text "✓ Using service token"; Str [LF]] ;;;
    ret serviceToken
  else
    requireAuth ;;;
    when greet (out_info options [Text "✓ Authenticated"; Str [LF]]) ;;;
    ret None.

Definition not_found (what : string) (name : jstring) : JsError :=
  PlainError (lit what ++ lit " " ++ quoted name ++ lit " not found").

(** "Find environment": the look-up by slug and names that pull, push
    and rollback share. *)
Definition findEnvironment (context : ResolvedContext) : M Environment :=
  orgsData <- request (ListOrganizations) (listOrganizations api) ;;
  match find (fun o => jstr_eqb (org_slug o) (org context)) orgsData with
  | None => throw (not_found "Organization" (org context))
  | Some _ =>
    projectsData <-
      request (ListProjects (org context)) (listProjects api (org context)) ;;
    match find (fun p => jstr_eqb (proj_name p) (project context))
               projectsData with
    | None => throw (not_found "Project" (project context))
    | Some projectData =>
      envsData <-
        request (ListEnvironments (proj_id projectData))
                (listEnvironments api (proj_id projectData)) ;;
      match find (fun e => jstr_eqb (env_name e) (environment context))
                 envsData with
      | None => throw (not_found "Environment" (environment context))
      | Some envData => ret envData
      end
    end
  end.

Definition context_not_resolved : JsError :=
  PlainError (lit "Context not resolved. Use flags or create .envsimple file.").

(** *** commands/push.ts *)

(** [overrideKeys.has(k)]. *)
Definition has (set : list jstring) (k : jstring) : bool :=
  existsb (jstr_eqb k) set.

(** "Check if local env contains override keys": the payload after
    the confirmation. *)
Definition confirmOverrides (options : CLIOptions)
  (localEnv localOverrides : EnvMapping) : M EnvMapping :=
  let overrideKeys := keys localOverrides in
  let envKeys := keys localEnv in
  let hasOverrides := existsb (has overrideKeys) envKeys in
  if hasOverrides && negb (opt_force options) && negb (opt_token options)
  then
    out_warning options
      [Text "Local .env contains keys defined in .envsimple.local overrides:"] ;;;
    fold_right
      (fun key rest =>
         when (has overrideKeys key)
              (out_info options [Text "  - "; Str key]) ;;; rest)
      (ret tt) envKeys ;;;
    out_info options
      [Str [LF]; Text "If you say "; Str (quoted (lit "yes"));
       Text ", the values from your .env will be pushed to remote."] ;;;
    out_info options
      [Text "If you say "; Str (quoted (lit "no"));
       Text ", these keys will be excluded from the push."; Str [LF]] ;;;
    includeOverrides <- confirm [Text "Include these keys in push?"] options ;;
    if includeOverrides then ret localEnv
    else
      let beforeCount := List.length (keys localEnv) in
      let stripped :=
        fold_left (fun env key => obj_delete key env) overrideKeys localEnv in
      let afterCount := List.length (keys stripped) in
      out_info options
        [Text "Excluding ";
         Num (Z.of_nat beforeCount - Z.of_nat afterCount);
         Text " override keys"] ;;;
      ret stripped
  else ret localEnv.

(** "Get base version from version tracker (unless force push)". *)
Definition determineBase (options : CLIOptions) (context : ResolvedContext)
  (envData : Environment) : M (option Z) :=
  if opt_force options || opt_token options then
    when (negb (opt_token options))
      (out_warning options
         [Text "⚠️  Force push: This will overwrite remote changes"]) ;;;
    ret None
  else
    versionInfo <-
      getVersionInfoM (org context) (project context) (environment context) ;;
    match versionInfo with
    | Some info => ret (Some (base_version info))
    | None =>
        try_catch
          (currentSnapshot <-
             request (GetCurrentVersion (env_id envData) None)
                     (getCurrentVersion api (env_id envData) None) ;;
           ret (Some (version_number currentSnapshot)))
          (fun _ => ret None)
    end.

(** What push has in hand when it submits. *)
Record Submission := mkSubmission {
  sub_context : ResolvedContext;
  sub_env : Environment;
  sub_localEnv : EnvMapping;
  sub_base : option Z;
  sub_token : option jstring;
  sub_plaintext : jstring
}.

(** Push up to the submission. *)
Definition pushPrepare (options : CLIOptions) : M Submission :=
  serviceToken <- authenticate options false ;;
  resolved <- resolveContextM options (opt_token options) ;;
  match resolved with
  | None => throw context_not_resolved
  | Some context =>
    envContent <- readEnvFile ;;
    if is_empty (trim envContent) then
      throw (PlainError (lit ".env file is empty or does not exist"))
    else
      let localEnv := parseEnvContent envContent in
      localOverrides <- getLocalOverridesM ;;
      localEnv <- confirmOverrides options localEnv localOverrides ;;
      envData <- findEnvironment context ;;
      baseVersionNumber <- determineBase options context envData ;;
      when (negb (opt_token options)) (createBackup ;;; ret tt) ;;;
      let plaintext := formatEnvContent localeCompare localEnv in
      ret (mkSubmission context envData localEnv baseVersionNumber
             serviceToken plaintext)
  end.

Definition is_conflict (e : JsError) : bool :=
  has_code e "CONFLICT" || includes (err_message e) (lit "conflict").

Definition keyCount (env : EnvMapping) : Z := Z.of_nat (List.length (keys env)).

Definition recordVersion (context : ResolvedContext) (version : Z) : M unit :=
  updateVersionInfoM (org context) (project context) (environment context)
    version.

(** The forced retry offered on a conflict; [true] when it was made. *)
Definition forcedRetry (options : CLIOptions) (s : Submission) : M bool :=
  if negb (opt_force options) && negb (opt_token options) then
    forcePush <-
      confirm [Str [LF]; Text "Push anyway (forced push)?"] options ;;
    if forcePush then
      result <-
        request (PushVersion (env_id (sub_env s)) (sub_plaintext s) None
                             (sub_token s))
                (pushVersion api (env_id (sub_env s)) (sub_plaintext s) None
                             (sub_token s)) ;;
      recordVersion (sub_context s) (pv_version_number result) ;;;
      (if opt_json options then
         out_json [("status"%string, JText "success");
                   ("version"%string, JNumber (pv_version_number result));
                   ("is_forced_push"%string, JBoolean true);
                   ("keys"%string, JNumber (keyCount (sub_localEnv s)))]
       else
         out_success options
           [Text "Forced push: version "; Num (pv_version_number result)]) ;;;
      ret true
    else ret false
  else ret false.

(** The [try] / [catch] around the submission. *)
Definition pushSubmit (options : CLIOptions) (s : Submission) : M unit :=
  let context := sub_context s in
  try_catch
    (result <-
       request (PushVersion (env_id (sub_env s)) (sub_plaintext s)
                            (sub_base s) (sub_token s))
               (pushVersion api (env_id (sub_env s)) (sub_plaintext s)
                            (sub_base s) (sub_token s)) ;;
     recordVersion context (pv_version_number result) ;;;
     sendTelemetryEvent "cli.push" ;;;
     if opt_json options then
       out_json [("status"%string, JText "success");
                 ("version"%string, JNumber (pv_version_number result));
                 ("is_forced_push"%string,
                  JBoolean (pv_is_forced_push result));
                 ("keys"%string, JNumber (keyCount (sub_localEnv s)))]
     else
       out_success options
         [Text "Pushed version "; Num (pv_version_number result);
          Text " to "; Str (environment context)] ;;;
       when (pv_is_forced_push result)
         (out_warning options
            [Text "This was a forced push (base version mismatch detected)"]))
    (fun error =>
       if is_conflict error then
         out_error options [Text "Remote version is newer than your base."] ;;;
         out_info options
           [Str [LF]; Text "Run "; Str (quoted (lit "envsimple pull"));
            Text " to sync first, then push again."] ;;;
         retried <- forcedRetry options s ;;
         if retried then ret tt
         else throw (ConflictError
                (lit "Push conflict - remote version is newer"))
       else throw error).

Definition pushCommand (options : CLIOptions) : M unit :=
  command options "PUSH_ERROR" true
    (s <- pushPrepare options ;; pushSubmit options s).

(** *** commands/pull.ts

    The sources hold two texts of the command.  The one embedded here
    knows [--token] and [--version]; with neither option it runs as the
    other one does. *)

(** The interactive selection of a context that has not resolved. *)
Definition selectContext (options : CLIOptions) : M ResolvedContext :=
  out_info options
    [Text "No context configured. Please select your target:"; Str [LF]] ;;;
  orgsData <- request ListOrganizations (listOrganizations api) ;;
  org_ <-
    select [Text "Select organization:"]
      (map (fun o => ([Str (org_name o); Text " ("; Str (org_slug o);
                       Text ")"], org_slug o)) orgsData)
      options ;;
  projectsData <- request (ListProjects org_) (listProjects api org_) ;;
  project_ <-
    select [Text "Select project:"]
      (map (fun p => ([Str (proj_name p)], proj_id p)) projectsData)
      options ;;
  envsData <- request (ListEnvironments project_) (listEnvironments api project_) ;;
  envId <-
    select [Text "Select environment:"]
      (map (fun e => ([Str (env_name e)], env_id e)) envsData)
      options ;;
  match find (fun p => jstr_eqb (proj_id p) project_) projectsData,
        find (fun e => jstr_eqb (env_id e) envId) envsData with
  | Some projectData, Some selectedEnv =>
      let context :=
        mkResolved org_ (proj_name projectData) (env_name selectedEnv)
                   interactive in
      saveSharedContext
        (mkShared (org context) (project context)
                  (environment context)) ;;;
      out_info options [Text "✓ Context saved to .envsimple"; Str [LF]] ;;;
      ret context
  | _, _ =>
      throw (PlainError (lit "TypeError: undefined is not an object"))
  end.

(** A number that passes an [if]: defined and not zero. *)
Definition nonzero (n : option Z) : option Z :=
  match n with
  | Some v => if (v =? 0)%Z then None else Some v
  | None => None
  end.

(** What pull has in hand when it starts to write. *)
Record Fetched := mkFetched {
  f_context : ResolvedContext;
  f_snapshot : VersionSnapshot;
  f_finalEnv : EnvMapping;
  f_localOverrides : EnvMapping
}.

(** Pull up to the merge of the overrides. *)
Definition pullFetch (options : CLIOptions) : M Fetched :=
  serviceToken <- authenticate options true ;;
  resolved <- resolveContextM options (opt_token options) ;;
  context <-
    match resolved with
    | Some context => ret context
    | None =>
        if opt_token options then
          throw (PlainError (lit
            ".envsimple file is required when using --token flag. Service tokens do not support interactive mode."))
        else if opt_json options then
          out_json [("error"%string, JText "CONTEXT_REQUIRED");
                    ("message"%string, JText
                       "No context configured. Use --org, --project, --environment flags or create .envsimple file.")] ;;;
          exit 1
        else selectContext options
    end ;;
  out_info options
    [Text "Pulling "; Str (org context); Text "/"; Str (project context);
     Text "/"; Str (environment context); Text "..."; Str [LF]] ;;;
  envData <- findEnvironment context ;;
  snapshot <-
    match nonzero (opt_version options) with
    | Some version =>
        request (GetVersionSnapshot (env_id envData) version serviceToken)
                (getVersionSnapshot api (env_id envData) version serviceToken)
    | None =>
        request (GetCurrentVersion (env_id envData) serviceToken)
                (getCurrentVersion api (env_id envData) serviceToken)
    end ;;
  let baseEnv := parseEnvContent (plaintext snapshot) in
  let count := keyCount baseEnv in
  (if ((version_number snapshot =? 0)%Z || (count =? 0)%Z)
      && negb (opt_json options) && negb (opt_token options)
   then
     out_warning options
       (if (count =? 0)%Z
        then [Text "⚠️  This environment has no keys"]
        else [Text "⚠️  This environment has version ";
              Num (version_number snapshot)]) ;;;
     shouldContinue <-
       confirm [Text "This will overwrite your local .env file. Continue?"]
               options ;;
     if shouldContinue then ret tt
     else out_info options [Text "Pull cancelled"] ;;; exit 0
   else ret tt) ;;;
  if negb (opt_token options) then
    localOverrides <- getLocalOverridesM ;;
    ret (mkFetched context snapshot (applyOverrides baseEnv localOverrides)
                   localOverrides)
  else ret (mkFetched context snapshot baseEnv []).

(** [s.replace(/\r\n/g, '\n').trim()]. *)
Definition normalize (s : jstring) : jstring := trim (replace_crlf s).

Definition is_some {A} (o : option A) : bool :=
  match o with Some _ => true | None => false end.

(** "Check for mismatch with current .env and create backup if
    different". *)
Definition backupIfDifferent (options : CLIOptions) (envContent : jstring)
  : M unit :=
  envExists <- read (fun w => is_some (env_file w)) ;;
  if envExists && negb (opt_token options) then
    try_catch
      (currentContent <- readEnvFile ;;
       let normalizedCurrent := normalize currentContent in
       let normalizedNew := normalize envContent in
       if negb (jstr_eqb normalizedCurrent normalizedNew)
          && negb (is_empty normalizedCurrent)
       then
         timestamp <- now ;;
         backup <- read (fun w => backup_file w) ;;
         match backup with
         | Some _ =>
             appendBackup (backup_separator timestamp ++ currentContent) ;;;
             out_info options
               [Text "✓ Appended to .env.copy (content mismatch detected)"]
         | None =>
             copyEnvToBackup ;;;
             out_info options
               [Text "✓ Created .env.copy (content mismatch detected)"]
         end
       else ret tt)
      (fun _ => ret tt)
  else ret tt.

(** Pull from the write of the working file to the report. *)
Definition pullFinish (options : CLIOptions) (f : Fetched)
  (envContent : jstring) : M unit :=
  let context := f_context f in
  let snapshot := f_snapshot f in
  writeEnvFile envContent ;;;
  ensureGitignore ;;;
  recordVersion context (version_number snapshot) ;;;
  sendTelemetryEvent "cli.pull" ;;;
  if opt_json options then
    out_json [("status"%string, JText "success");
              ("version"%string, JNumber (version_number snapshot));
              ("keys"%string, JNumber (keyCount (f_finalEnv f)));
              ("overrides_applied"%string,
               JNumber (keyCount (f_localOverrides f)))]
  else
    out_success options
      ([Text "Pulled version "; Num (version_number snapshot);
        Text " from "; Str (environment context)]
       ++ match nonzero (opt_version options) with
          | Some version => [Text " (v"; Num version; Text ")"]
          | None => []
          end) ;;;
    out_info options
      [Num (keyCount (f_finalEnv f)); Text " keys written to .env"] ;;;
    when (0 <? keyCount (f_localOverrides f))%Z
      (out_info options
         [Num (keyCount (f_localOverrides f));
          Text " local overrides applied"]).

(** Pull from the backup to the report. *)
Definition pullWrite (options : CLIOptions) (f : Fetched) : M unit :=
  let envContent := formatEnvContent localeCompare (f_finalEnv f) in
  backupIfDifferent options envContent ;;;
  pullFinish options f envContent.

Definition pullCommand (options : CLIOptions) : M unit :=
  command options "PULL_ERROR" true
    (f <- pullFetch options ;; pullWrite options f).

(** *** commands/rollback.ts *)

(** "Backup current .env to .env.copy". *)
Definition rollbackBackup (options : CLIOptions) : M unit :=
  envExists <- read (fun w => is_some (env_file w)) ;;
  if envExists then
    timestamp <- now ;;
    backup <- read (fun w => backup_file w) ;;
    match backup with
    | Some _ =>
        currentContent <- readEnvFile ;;
        appendBackup (backup_separator timestamp ++ currentContent) ;;;
        out_info options [Text "✓ Appended to .env.copy"]
    | None =>
        copyEnvToBackup ;;;
        out_info options [Text "✓ Backed up .env to .env.copy"]
    end
  else ret tt.

(** Rollback once the remote has rolled back. *)
Definition rollbackApply (options : CLIOptions) (context : ResolvedContext)
  (envData : Environment) (result : Rollback) : M unit :=
  rollbackBackup options ;;;
  snapshot <-
    request (GetCurrentVersion (env_id envData) None)
            (getCurrentVersion api (env_id envData) None) ;;
  let baseEnv := parseEnvContent (plaintext snapshot) in
  localOverrides <- getLocalOverridesM ;;
  let finalEnv := applyOverrides baseEnv localOverrides in
  let envContent := formatEnvContent localeCompare finalEnv in
  writeEnvFile envContent ;;;
  recordVersion context (version_number snapshot) ;;;
  sendTelemetryEvent "cli.rollback" ;;;
  if opt_json options then
    out_json [("status"%string, JText "success");
              ("rollback"%string, JRollback result)]
  else
    out_success options
      [Text "Rolled back from v"; Num (rolled_back_from result);
       Text " to v"; Num (rolled_back_to result)] ;;;
    out_info options [Text "New version: v"; Num (rb_version_number result)] ;;;
    out_info options
      [Str [LF]; Text "✓ Updated .env with rolled back version"].

Definition rollbackCommand (options : CLIOptions) : M unit :=
  command options "ROLLBACK_ERROR" true
    (requireAuth ;;;
     match nonzero (opt_target options) with
     | None => throw (PlainError (lit "--target flag is required"))
     | Some target =>
       resolved <- resolveContextM options false ;;
       match resolved with
       | None => throw context_not_resolved
       | Some context =>
         envData <- findEnvironment context ;;
         result <-
           request (RollbackVersion (env_id envData) target)
                   (rollbackVersion api (env_id envData) target) ;;
         rollbackApply options context envData result
       end
     end).

(** *** commands/print.ts *)

(** One line of the listing. *)
Definition printLine (options : CLIOptions) (overrideKeys : list jstring)
  (kv : jstring * jstring) : Message :=
  let (key, value) := kv in
  let isOverride := has overrideKeys key in
  let marker := if isOverride then " (override)"%string else EmptyString in
  formatKeyValue options key value (opt_raw options) ++ [Text marker].

Definition printCommand (options : CLIOptions) : M unit :=
  command options "PRINT_ERROR" false
    (envContent <- readEnvFile ;;
     if is_empty (trim envContent) then
       if opt_json options then
         out_json [("keys"%string, JEnv []); ("count"%string, JNumber 0)]
       else
         out_warning options [Text ".env file is empty or does not exist"] ;;;
         out_info options
           [Str [LF]; Text "Run "; Str (quoted (lit "envsimple pull"));
            Text " to fetch environment variables"]
     else
       let env := parseEnvContent envContent in
       overrides <- getLocalOverridesM ;;
       let overrideKeys := keys overrides in
       sendTelemetryEvent "cli.print" ;;;
       if opt_json options then
         out_json [("keys"%string, JEnv env);
                   ("count"%string, JNumber (keyCount env));
                   ("overrides"%string, JKeys (keys overrides))]
       else
         out_info options
           [Text "Environment variables ("; Num (keyCount env);
            Text " keys):"; Str [LF]] ;;;
         fold_right
           (fun kv rest =>
              emit (ConsoleLog (printLine options overrideKeys kv)) ;;; rest)
           (ret tt)
           (sort (compare_keys localeCompare) (entries env))).

End Commands.

(** The vocabulary of the statements about commands. *)

Definition is_backup_write (e : Event) : bool :=
  match e with BackupWritten _ => true | _ => false end.

Definition is_tracker_write (e : Event) : bool :=
  match e with TrackerWritten _ _ => true | _ => false end.

Definition is_write (e : Event) : bool :=
  is_backup_write e || is_tracker_write e.

Definition is_fetch (c : Call) : bool :=
  match c with
  | GetCurrentVersion _ _ | GetVersionSnapshot _ _ _ => true
  | _ => false
  end.

Definition is_submit (c : Call) : bool :=
  match c with PushVersion _ _ _ _ => true | _ => false end.

Definition is_rollback (c : Call) : bool :=
  match c with RollbackVersion _ _ => true | _ => false end.

(** A request that [P] selects has answered in [l]. *)
Definition succeeded (P : Call -> bool) (l : list Event) : Prop :=
  exists c, P c = true /\ In (Request c true) l.

(** Every event of [l] that [W] selects comes after such an answer. *)
Definition follows (W : Event -> bool) (P : Call -> bool) (l : list Event)
  : Prop :=
  forall pre e post, l = pre ++ e :: post -> W e = true -> succeeded P pre.

Section Behaviours.
Variable R : Type.

(** The events a computation adds all pass [ok]. *)
Definition logs {A} (ok : Event -> bool) (m : M R A) : Prop :=
  forall w, exists l,
    events (snd (m w)) = events w ++ l /\ forallb ok l = true.

(** A computation that adds only events passing [ok] leaves [f] as it
    was. *)
Definition tracked {A X} (ok : Event -> bool) (f : World R -> X) (m : M R A)
  : Prop :=
  forall w, exists l,
    events (snd (m w)) = events w ++ l /\
    (forallb ok l = true -> f (snd (m w)) = f w).

(** The events [W] selects come after an answer [P] selects. *)
Definition guarded {A} (W : Event -> bool) (P : Call -> bool) (m : M R A)
  : Prop :=
  forall w, exists l, events (snd (m w)) = events w ++ l /\ follows W P l.

(** A computation that always returns. *)
Definition total {A} (m : M R A) : Prop :=
  forall w, exists a w', m w = (Done a, w').

(** A computation returns only after an answer [P] selects. *)
Definition answers {A} (P : Call -> bool) (m : M R A) : Prop :=
  forall w a w', m w = (Done a, w') ->
  exists l, events w' = events w ++ l /\ succeeded P l.

(** A computation that does not return leaves [f] as it was. *)
Definition fails_keeping {A X} (f : World R -> X) (m : M R A) : Prop :=
  forall w o w', m w = (o, w') -> (forall a, o <> Done a) -> f w' = f w.

(** A computation leaves [f] as it was. *)
Definition keeps {A X} (f : World R -> X) (m : M R A) : Prop :=
  forall w, f (snd (m w)) = f w.

End Behaviours.

(** Whether pull captures the working file before it writes
    [envContent] over it. *)
Definition pull_backs_up (options : CLIOptions) (current : option jstring)
  (envContent : jstring) : bool :=
  match current with
  | Some currentContent =>
      negb (opt_token options)
      && (negb (jstr_eqb (normalize currentContent) (normalize envContent))
          && negb (is_empty (normalize currentContent)))
  | None => false
  end.

(** The backup file after a capture of [currentContent]. *)
Definition capture (backup : option jstring)
  (timestamp currentContent : jstring) : jstring :=
  match backup with
  | Some existing => existing ++ backup_separator timestamp ++ currentContent
  | None => currentContent
  end.

Definition persisted {R} (w : World R) :=
  (env_file w, backup_file w, tracker_file w, local_file w, ticks w, clock w).

Definition any_event (e : Event) : bool := true.
Definition not_write (e : Event) : bool := negb (is_write e).
Definition not_tracker_write (e : Event) : bool := negb (is_tracker_write e).
Definition not_backup_write (e : Event) : bool := negb (is_backup_write e).

Definition backups_written (l : list Event) : nat :=
  List.length (filter is_backup_write l).

(** What the [catch] of a command shows for [e]. *)
Definition error_report (options : CLIOptions) (fallback : string)
  (unauthorized : bool) (e : JsError) : list Event :=
  if opt_json options then
    [JsonOut [("error"%string, JCode (err_code e) fallback);
              ("message"%string, JString (err_message e))]]
  else if unauthorized && has_code e "PERMISSION_DENIED" then
    [ErrorOut [Text "Unauthorized: "; Str (err_message e)]]
  else [ErrorOut [Str (err_message e)]].

Definition submit (s : Submission) (base : option Z) : Call :=
  PushVersion (env_id (sub_env s)) (sub_plaintext s) base (sub_token s).

(** The refused submission, the report of the conflict, the advice to
    pull, and the offer of a forced push. *)
Definition conflict_offer (s : Submission) : list Event :=
  [Request (submit s (sub_base s)) false;
   ErrorOut [Text "Remote version is newer than your base."];
   Info [Str [LF]; Text "Run "; Str (quoted (lit "envsimple pull"));
         Text " to sync first, then push again."];
   Prompt [Str [LF]; Text "Push anyway (forced push)?"]].

(** The remote flags every version pushed without a base as forced. *)
Definition flags_forced_pushes {R} (api : Api R) : Prop :=
  forall envId text token r v r',
    pushVersion api envId text None token r = (Ret v, r') ->
    pv_is_forced_push v = true.

End Cli.

Import JS Errors Context VersionTracker FileOps Cli.
Local Open Scope cli_scope.

(** Modelled from the spec: the remote store (the backend is not part
    of the sources).  An environment is a list of snapshots, oldest
    first, version [n] being the [n]-th; no snapshot is version 0.  A
    push with a base is accepted when the base is the current version
    and answers with a conflict otherwise; a push without a base is
    always accepted and flagged as forced; a rollback appends a copy of
    the target.  One organization, project and environment exist. *)
Module Remote.

Definition Store := list jstring.

Definition current (s : Store) : Z := Z.of_nat (List.length s).

Definition snapshot_at (s : Store) (n : Z) : option jstring :=
  if (n <=? 0)%Z then None else nth_error s (Z.to_nat n - 1).

Definition not_found (what : string) : JsError :=
  CLIError (lit what ++ lit " not found") "NOT_FOUND" 1.

Definition getCurrent (envId : jstring) (token : option jstring) (s : Store)
  : Thrown VersionSnapshot * Store :=
  (Ret (mkSnapshot (current s) (last s [])), s).

Definition getVersion (envId : jstring) (n : Z) (token : option jstring)
  (s : Store) : Thrown VersionSnapshot * Store :=
  match snapshot_at s n with
  | Some text => (Ret (mkSnapshot n text), s)
  | None => (Throw (not_found "Version"), s)
  end.

Definition push (envId text : jstring) (base : option Z)
  (token : option jstring) (s : Store) : Thrown PushedVersion * Store :=
  match base with
  | Some b =>
      if (b =? current s)%Z
      then (Ret (mkPushed (current s + 1) false), s ++ [text])
      else (Throw (ConflictError (lit "Remote version is newer")), s)
  | None => (Ret (mkPushed (current s + 1) true), s ++ [text])
  end.

Definition rollback (envId : jstring) (target : Z) (s : Store)
  : Thrown Rollback * Store :=
  match snapshot_at s target with
  | Some text =>
      (Ret (mkRollback (current s + 1) (current s) target), s ++ [text])
  | None => (Throw (not_found "Version"), s)
  end.

Definition api : Api Store :=
  mkApi
    (fun s => (Ret [mkOrg (lit "acme") (lit "Acme")], s))
    (fun _ s => (Ret [mkProject (lit "p1") (lit "pay")], s))
    (fun _ s => (Ret [mkEnv (lit "e1") (lit "prod")], s))
    getCurrent getVersion push rollback.

End Remote.

(** Worlds and options the statements are run on. *)
Module Scenes.

(** Flags and context files for [resolveContext]. *)
Definition flags_org_a : CLIOptions :=
  mkOptions false false (Some (lit "a")) None None false false None None.
Definition local_p_e : ConfigFile :=
  Parsed (YObject (mkLocal None (Some (lit "p")) (Some (lit "e")) None)).
Definition shared_s_sp_se : ConfigFile :=
  Parsed (YObject (mkLocal (Some (lit "s")) (Some (lit "sp"))
                           (Some (lit "se")) None)).
Definition flags_all : CLIOptions :=
  mkOptions false false (Some (lit "a")) (Some (lit "p")) (Some (lit "e"))
            false false None None.
Definition shared_org_only : ConfigFile :=
  Parsed (YObject (mkLocal (Some (lit "s")) None None None)).

Definition options : CLIOptions :=
  mkOptions false false None None None false false None None.

Definition json_options : CLIOptions :=
  mkOptions true false None None None false false None None.

Definition raw_options : CLIOptions :=
  mkOptions false true None None None false false None None.

Definition acme_pay_prod : ConfigFile :=
  Parsed (YObject (mkLocal (Some (lit "acme")) (Some (lit "pay"))
                           (Some (lit "prod")) None)).

Definition timestamp : jstring := lit "2026-01-01T00:00:00.000Z".

Definition seven : Remote.Store :=
  [lit "A=0"; lit "A=0"; lit "A=0"; lit "A=0"; lit "A=0"; lit "A=0";
   lit "A=7" ++ [LF]].

Definition tracked_at_5 : TrackerFile :=
  Tracker [(tracker_key (lit "acme") (lit "pay") (lit "prod"),
            mkTracker (lit "acme") (lit "pay") (lit "prod") 5 timestamp)].

(** A working file [A=1], the tracker at base 5, the remote at
    version 7: the next push meets a conflict. *)
Definition conflict (answers : list (option bool)) : World Remote.Store :=
  mkWorld (Some (lit "A=1" ++ [LF])) None acme_pay_prod Missing tracked_at_5
          (Some (lit "token")) None seven answers [] (fun _ => timestamp) 0 [].

(** A working file of blanks only, before a pull of [A=7]. *)
Definition blank_env : World Remote.Store :=
  mkWorld (Some (lit "   " ++ [LF])) None acme_pay_prod Missing NoTracker
          (Some (lit "token")) None seven [] [] (fun _ => timestamp) 0 [].

(** A working file [OLD=1] and no backup yet, before a pull of [A=7]. *)
Definition old_env : World Remote.Store :=
  mkWorld (Some (lit "OLD=1" ++ [LF])) None acme_pay_prod Missing NoTracker
          (Some (lit "token")) None seven [] [] (fun _ => timestamp) 0 [].

(** A working file [A=1] under the local override [A: 2]. *)
Definition overridden : World Remote.Store :=
  mkWorld (Some (lit "A=1" ++ [LF])) None acme_pay_prod
          (Parsed (YObject (mkLocal None None None
                              (Some [(lit "A", lit "2")]))))
          NoTracker (Some (lit "token")) None seven [] []
          (fun _ => timestamp) 0 [].

(** What push has in hand in [conflict] when it submits. *)
Definition submission : Submission :=
  mkSubmission
    (mkResolved (lit "acme") (lit "pay") (lit "prod") shared)
    (mkEnv (lit "e1") (lit "prod"))
    [(lit "A", lit "1")] (Some 5%Z) None (lit "A=1" ++ [LF]).

Definition quoted_value : Record jstring :=
  [(lit "A", [DQUOTE] ++ lit "x" ++ [DQUOTE])].

Definition mixed_case : Record jstring :=
  [(lit "B", lit "1"); (lit "a", lit "2")].

Definition spaced_value : Record jstring :=
  [(lit "B", lit "1"); (lit "a", lit "x y")].

End Scenes.

(* ================================================================== *)
(** * Further parts of the sources *)
(* ================================================================== *)

(** What [parseEnvContent] can leave as a key. *)
Definition parsed_key (k : jstring) : Prop :=
  trim k = k /\ ~ In EQUALS k /\ ~ In LF k
  /\ startsWith k [HASH] = false /\ k <> lit "__proto__".

Definition parsed_mapping (m : EnvMapping) : Prop :=
  wf_obj m /\ forall k v, In (k, v) m -> parsed_key k /\ ~ In LF v.

(** Two lines that differ by a carriage return at the end at most. *)
Definition same_but_cr (l l' : jstring) : Prop := l' = l \/ l' = l ++ [CR].

(* ------------------------------------------------------------------ *)
(** ** output/formatter.ts: the codec kept on [Output] *)
Module Formatter.

(** One turn of the loop of [Output.parseEnvContent]. *)
Definition parse_line (result : EnvMapping) (line : jstring) : EnvMapping :=
  let trimmed := trim line in
  if is_empty trimmed || startsWith trimmed [HASH] then result
  else
    let equalIndex := indexOf EQUALS trimmed in
    if (equalIndex =? -1)%Z then result
    else
      let key := trim (substring trimmed 0 equalIndex) in
      let value := trim (substring_from trimmed (equalIndex + 1)) in
      obj_assign key (unquote value) result.

Definition parseEnvContent (content : jstring) : EnvMapping :=
  fold_left parse_line (split LF content) [].

(** [Output.formatEnvContent]: as in env/file-ops.ts, but the entries
    are not sorted. *)
Definition formatEnvContent (env : EnvMapping) : jstring :=
  join [LF] (map format_entry (entries env)) ++ [LF].

End Formatter.

(** A comparison function that orders the keys: no two distinct keys
    tie, comparisons chain, and of two keys one is not above the
    other. *)
Definition orders_keys (cmp : jstring -> jstring -> Z) : Prop :=
  (forall a b, (cmp a b <= 0)%Z -> (cmp b a <= 0)%Z -> a = b)
  /\ (forall a b c, (cmp a b <= 0)%Z -> (cmp b c <= 0)%Z -> (cmp a c <= 0)%Z)
  /\ (forall a b, (cmp a b > 0)%Z -> (cmp b a <= 0)%Z).

(* ------------------------------------------------------------------ *)
(** ** utils/errors.ts: [handleAPIError] *)
Module ApiErrors.

(** What [handleAPIError] reads of a response and of its body: the
    body is an object with these two fields, or nothing of the kind. *)
Record Response := mkResponse { status : Z; statusText : jstring }.

Record ErrorBody := mkBody {
  body_error : option jstring;
  body_message : option jstring
}.

Definition APIError (message code : jstring) : JsError :=
  mkError (Some code) message (Some 1%Z).

Definition ValidationError (message : jstring) : JsError :=
  CLIError message "VALIDATION_ERROR" 1.

Definition NotFoundError (resource : jstring) : JsError :=
  CLIError (resource ++ lit " not found") "NOT_FOUND" 1.

Definition PermissionError (message : jstring) : JsError :=
  CLIError message "PERMISSION_DENIED" 1.

(** [body?.f]. *)
Definition body_field (f : ErrorBody -> option jstring)
  (body : option ErrorBody) : option jstring :=
  match body with Some b => f b | None => None end.

(** [handleAPIError]: what it throws. *)
Definition handleAPIError (response : Response) (body : option ErrorBody)
  : JsError :=
  let status := status response in
  let error :=
    the_string (js_or (body_field body_error body)
                      (Some (lit "unknown_error"))) in
  let message :=
    the_string
      (js_or (js_or (body_field body_message body)
                    (Some (statusText response)))
             (Some (lit "An error occurred"))) in
  if (status =? 401)%Z then AuthenticationError message
  else if (status =? 403)%Z then PermissionError message
  else if (status =? 404)%Z then NotFoundError message
  else if (status =? 409)%Z then ConflictError message
  else if (status =? 400)%Z then ValidationError message
  else APIError message error.

End ApiErrors.

(* ------------------------------------------------------------------ *)
(** ** config/context.ts: [clearContextIfMatches] *)

(** The two context files after the call, when it returns. *)
Definition clearContextIfMatches (deletedEnvironment : jstring)
  (sharedFile localFile : ConfigFile) : Thrown (ConfigFile * ConfigFile) :=
  match loadSharedContext sharedFile with
  | Throw e => Throw e
  | Ret shared_ =>
    match loadLocalContext localFile with
    | Throw e => Throw e
    | Ret local_ =>
      let localFile' :=
        match local_ with
        | Some l =>
            match lc_environment l with
            | Some e =>
                if jstr_eqb e deletedEnvironment then Missing else localFile
            | None => localFile
            end
        | None => localFile
        end in
      let sharedFile' :=
        match shared_ with
        | Some s =>
            if jstr_eqb (sc_environment s) deletedEnvironment then Missing
            else sharedFile
        | None => sharedFile
        end in
      Ret (sharedFile', localFile')
    end
  end.

(* ------------------------------------------------------------------ *)
(** ** env/file-ops.ts: [ensureGitignore] on the text of the file *)
Module Gitignore.

Definition requiredEntries : list jstring :=
  [lit ".env"; lit ".env.copy"; lit ".envsimple.local"].

(** [new Set(lines.map(l => l.trim()).filter(l => l && !l.startsWith('#')))]. *)
Definition existingEntries (lines : list jstring) : list jstring :=
  filter (fun l => negb (is_empty l) && negb (startsWith l [HASH]))
         (map trim lines).

(** One turn of the loop over the required entries, on [newLines] and
    [modified]. *)
Definition add_entry (existing : list jstring)
  (state : list jstring * bool) (entry : jstring) : list jstring * bool :=
  let (newLines, modified) := state in
  if has existing entry then state
  else
    let newLines :=
      if (0 <? List.length newLines)%nat
         && negb (is_empty (last newLines []))
      then newLines ++ [[]] else newLines in
    let newLines :=
      if negb modified then newLines ++ [lit "# EnvSimple"] else newLines in
    (newLines ++ [entry], true).

(** [ensureGitignore] from the file as it is found ([None]: not there
    or not readable) to the text written, if any. *)
Definition ensureGitignore (file : option jstring) : option jstring :=
  let content := match file with Some c => c | None => [] end in
  let lines := split LF content in
  let existing := existingEntries lines in
  let (newLines, modified) :=
    fold_left (add_entry existing) requiredEntries (lines, false) in
  if modified then Some (join [LF] newLines ++ [LF]) else None.

(** The entries the loop finds missing. *)
Definition wanted (existing es : list jstring) : list jstring :=
  filter (fun e => negb (has existing e)) es.

(** The file after the call. *)
Definition after (file : option jstring) : option jstring :=
  match ensureGitignore file with
  | Some written => Some written
  | None => file
  end.

End Gitignore.

(* ------------------------------------------------------------------ *)
(** ** Further vocabulary for the runs of the commands *)

(** Text meant for a person: the messages of [Output], the lines of
    print, and the prompts. *)
Definition is_human (e : Event) : bool :=
  match e with
  | Success _ | Warning _ | ErrorOut _ | Info _ | ConsoleLog _ | Prompt _ =>
      true
  | _ => false
  end.

Definition is_document (e : Event) : bool :=
  match e with JsonOut _ => true | _ => false end.

Definition documents (l : list Event) : nat :=
  List.length (filter is_document l).

Definition is_prompt (e : Event) : bool :=
  match e with Prompt _ => true | _ => false end.

(** An event that stands for a request or for a write. *)
Definition is_effect (e : Event) : bool :=
  match e with
  | Request _ _ | EnvWritten _ | BackupWritten _ | TrackerWritten _ _
  | SharedContextWritten | GitignoreEnsured => true
  | _ => false
  end.

Definition no_effect (e : Event) : bool := negb (is_effect e).

(** All of the world but the clock and the record of events. *)
Definition state {R} (w : World R) :=
  (env_file w, backup_file w, shared_file w, local_file w, tracker_file w,
   credentials w, service_token w, remote w, confirms w, selects w, ticks w).

(** The working file is missing or holds white space only. *)
Definition blank_env {R} (w : World R) : Prop :=
  trim (match env_file w with Some content => content | None => [] end) = [].

Definition not_logged_in_error : JsError :=
  AuthenticationError
    (lit "Not logged in. Run " ++ quoted (lit "envsimple login")
     ++ lit " first.").

(** Further worlds the statements are run on. *)
Module Cases.

(** No stored credentials. *)
Definition logged_out : World Remote.Store :=
  mkWorld (Some (lit "A=1" ++ [LF])) None Scenes.acme_pay_prod Missing
          NoTracker None None Scenes.seven [] []
          (fun _ => Scenes.timestamp) 0 [].

(** Rollback to version 3. *)
Definition to_version_3 : CLIOptions :=
  mkOptions false false None None None false false None (Some 3%Z).

(** Rollback with [--target 0]. *)
Definition to_version_0 : CLIOptions :=
  mkOptions false false None None None false false None (Some 0%Z).

(** Options with [--json]. *)
Definition json : CLIOptions :=
  mkOptions true false None None None false false None None.

(** Options with [--token]. *)
Definition token : CLIOptions :=
  mkOptions false false None None None false true None None.

(** A working file [A=1] and a backup [OLD=1] already there. *)
Definition with_backup : World Remote.Store :=
  mkWorld (Some (lit "A=1" ++ [LF])) (Some (lit "OLD=1" ++ [LF]))
          Scenes.acme_pay_prod Missing Scenes.tracked_at_5
          (Some (lit "token")) (Some (lit "service")) Scenes.seven
          [Some true] [] (fun _ => Scenes.timestamp) 0 [].

End Cases.

Section FurtherBehaviours.
Variable R : Type.

(** A computation that does not end the process. *)
Definition never_exits {A} (m : M R A) : Prop :=
  forall w c w', m w <> (Exited c, w').

(** In JSON mode: nothing meant for a person is shown, and [d]
    documents are printed when the computation returns, none when it
    throws, one when it ends the process. *)
Definition json_run {A} (d : nat) (m : M R A) : Prop :=
  forall w o w', m w = (o, w') ->
  exists l,
    events w' = events w ++ l
    /\ forallb (fun e => negb (is_human e)) l = true
    /\ documents l
       = match o with Done _ => d | Raised _ => 0%nat | Exited _ => 1%nat end.

(** The backup file is only ever added to. *)
Definition extends (old new : option jstring) : Prop :=
  match old with
  | Some before => exists suffix, new = Some (before ++ suffix)
  | None => True
  end.

Definition grows {A} (m : M R A) : Prop :=
  forall w, extends (backup_file w) (backup_file (snd (m w))).

End FurtherBehaviours.

(** Nothing is asked and no backup is written. *)
Definition unattended (e : Event) : bool :=
  negb (is_prompt e) && negb (is_backup_write e).

(** The remote has answered a fetch for pull with [snapshot]. *)
Definition fetched_from {R} (api : Api R) (options : CLIOptions)
  (snapshot : VersionSnapshot) : Prop :=
  exists envId token r r',
    match nonzero (opt_version options) with
    | Some version => getVersionSnapshot api envId version token r
    | None => getCurrentVersion api envId token r
    end = (Ret snapshot, r').

(** What pull and rollback write for a snapshot under local overrides. *)
Definition merged (snapshot : VersionSnapshot) (overrides : EnvMapping)
  : EnvMapping :=
  applyOverrides (parseEnvContent (plaintext snapshot)) overrides.

(** The tracker holds [v] as the base version of [context]. *)
Definition tracks (file : TrackerFile) (context : ResolvedContext) (v : Z)
  : Prop :=
  exists timestamp,
    getVersionInfo file (org context) (project context) (environment context)
    = Some (mkTracker (org context) (project context) (environment context)
              v timestamp).

(** The remote has answered [call] with [a]. *)
Definition answered {R A} (call : R -> Thrown A * R) (a : A) : Prop :=
  exists r r', call r = (Ret a, r').

(* ================================================================== *)
(** * Part II: facts and theorems *)

(* ================================================================== *)
(** * Facts about the built-ins *)
(* ================================================================== *)

Section StringFacts.

Lemma jstr_eqb_eq (a b : jstring) : jstr_eqb a b = true <-> a = b.
Proof.
  revert b; induction a as [|x a IH]; intros [|y b]; simpl;
    try (split; [discriminate | discriminate]); try tauto.
  rewrite andb_true_iff, N.eqb_eq, IH.
  split; [intros [-> ->]; reflexivity | intros H; inversion H; auto].
Qed.

Lemma jstr_eqb_refl (a : jstring) : jstr_eqb a a = true.
Proof. apply jstr_eqb_eq; reflexivity. Qed.

Lemma jstr_eqb_neq (a b : jstring) : jstr_eqb a b = false <-> a <> b.
Proof.
  rewrite <- jstr_eqb_eq. destruct (jstr_eqb a b); split; congruence.
Qed.

Lemma jstr_eqb_sym (a b : jstring) : jstr_eqb a b = jstr_eqb b a.
Proof.
  destruct (jstr_eqb a b) eqn:E; symmetry.
  - apply jstr_eqb_eq in E; subst; apply jstr_eqb_refl.
  - apply jstr_eqb_neq; apply jstr_eqb_neq in E; congruence.
Qed.

(** [trimStart] leaves a string that starts with no white space. *)
Lemma trimStart_id (s : jstring) :
  match s with [] => True | c :: _ => is_ws c = false end ->
  trimStart s = s.
Proof. destruct s as [|c s]; simpl; [reflexivity | intros ->; reflexivity]. Qed.

Lemma trimEnd_id (s : jstring) :
  match rev s with [] => True | c :: _ => is_ws c = false end ->
  trimEnd s = s.
Proof.
  intros H; unfold trimEnd. rewrite (trimStart_id _ H). apply rev_involutive.
Qed.

Lemma trim_id (s : jstring) : edges_clean s -> trim s = s.
Proof.
  intros [H1 H2]; unfold trim. rewrite (trimStart_id _ H1).
  apply trimEnd_id; exact H2.
Qed.

Lemma trimStart_head (s : jstring) :
  match trimStart s with [] => True | c :: _ => is_ws c = false end.
Proof.
  induction s as [|c s IH]; simpl; [exact I|].
  destruct (is_ws c) eqn:E; [exact IH | exact E].
Qed.

Lemma trimStart_length (s : jstring) :
  (List.length (trimStart s) <= List.length s)%nat.
Proof.
  induction s as [|c s IH]; simpl; [lia|]. destruct (is_ws c); simpl; lia.
Qed.

Lemma trimStart_fix (s : jstring) :
  trimStart s = s -> match s with [] => True | c :: _ => is_ws c = false end.
Proof. intros E; rewrite <- E; apply trimStart_head. Qed.

Lemma trimStart_suffix (s : jstring) : exists p, s = p ++ trimStart s.
Proof.
  induction s as [|c s [p IH]]; simpl; [exists []; reflexivity|].
  destruct (is_ws c); [exists (c :: p); simpl; congruence | exists []; reflexivity].
Qed.

Lemma trim_fixed_edges (s : jstring) : trim s = s -> edges_clean s.
Proof.
  intros E. unfold trim, trimEnd in E.
  assert (L : List.length (trimStart s) = List.length s).
  { pose proof (trimStart_length s) as H1.
    pose proof (trimStart_length (rev (trimStart s))) as H2.
    rewrite length_rev in H2.
    pose proof (f_equal (@List.length _) E) as H3.
    rewrite length_rev in H3. lia. }
  assert (S1 : trimStart s = s).
  { destruct (trimStart_suffix s) as [p Hp].
    apply (f_equal (@List.length _)) in Hp as Hl. rewrite length_app in Hl.
    destruct p; [simpl in Hp; congruence | simpl in Hl; lia]. }
  split.
  - apply trimStart_fix; exact S1.
  - rewrite S1 in E. apply (f_equal (@rev _)) in E.
    rewrite rev_involutive in E. apply trimStart_fix; exact E.
Qed.

(** [split] undoes a [join] of pieces free of the separator. *)
Lemma split_no_sep (s : jstring) (sep : code_unit) :
  ~ In sep s -> split sep s = [s].
Proof.
  induction s as [|c s IH]; simpl; intros H; [reflexivity|].
  destruct (N.eqb_spec c sep) as [->|ne]; [exfalso; apply H; auto|].
  rewrite IH by tauto. reflexivity.
Qed.

Lemma split_app_sep (s t : jstring) (sep : code_unit) :
  ~ In sep s -> split sep (s ++ sep :: t) = s :: split sep t.
Proof.
  induction s as [|c s IH]; simpl; intros H.
  - rewrite N.eqb_refl; reflexivity.
  - destruct (N.eqb_spec c sep) as [->|ne]; [exfalso; apply H; auto|].
    rewrite IH by tauto. reflexivity.
Qed.

Lemma split_join_lines (ls : list jstring) (sep : code_unit) :
  (forall l, In l ls -> ~ In sep l) ->
  ls <> [] ->
  split sep (join [sep] ls ++ [sep]) = ls ++ [[]].
Proof.
  induction ls as [|l ls IH]; intros H NE; [congruence|].
  destruct ls as [|l' ls].
  - simpl. rewrite split_app_sep by (apply H; left; reflexivity).
    reflexivity.
  - assert (E : join [sep] (l :: l' :: ls) ++ [sep]
                = l ++ sep :: (join [sep] (l' :: ls) ++ [sep])).
    { change (join [sep] (l :: l' :: ls))
        with (l ++ [sep] ++ join [sep] (l' :: ls)).
      rewrite <- !app_assoc. reflexivity. }
    rewrite E, split_app_sep by (apply H; left; reflexivity).
    rewrite IH; [reflexivity | | discriminate].
    intros x Hx; apply H; right; exact Hx.
Qed.

Lemma indexOf_absent (c : code_unit) (s : jstring) :
  ~ In c s -> indexOf c s = (-1)%Z.
Proof.
  induction s as [|x s IH]; simpl; intros H; [reflexivity|].
  destruct (N.eqb_spec x c) as [->|ne]; [exfalso; apply H; auto|].
  rewrite IH by tauto. reflexivity.
Qed.

Lemma indexOf_nonneg_or_absent (c : code_unit) (s : jstring) :
  indexOf c s = (-1)%Z \/ (0 <= indexOf c s)%Z.
Proof.
  induction s as [|x s IH]; simpl; [left; reflexivity|].
  destruct (N.eqb x c); [right; lia|].
  destruct (Z.eqb_spec (indexOf c s) (-1)); [left; reflexivity | right; lia].
Qed.

Lemma indexOf_first (c : code_unit) (s t : jstring) :
  ~ In c s -> indexOf c (s ++ c :: t) = len s.
Proof.
  unfold len. induction s as [|x s IH]; simpl List.length; simpl app; intros H.
  - simpl. rewrite N.eqb_refl; reflexivity.
  - simpl indexOf.
    destruct (N.eqb_spec x c) as [->|ne]; [exfalso; apply H; left; reflexivity|].
    rewrite IH by (intros F; apply H; right; exact F).
    destruct (Z.eqb_spec (Z.of_nat (List.length s)) (-1)); lia.
Qed.

Lemma substring_prefix (s t : jstring) :
  substring (s ++ t) 0 (len s) = s.
Proof.
  unfold substring, clamp, len. rewrite length_app.
  replace (Z.max 0 (Z.min 0 (Z.of_nat (List.length s + List.length t)))) with 0%Z by lia.
  replace (Z.max 0 (Z.min (Z.of_nat (List.length s))
                          (Z.of_nat (List.length s + List.length t))))
    with (Z.of_nat (List.length s)) by lia.
  rewrite Z.min_l, Z.max_r by lia.
  rewrite Z.sub_0_r, Nat2Z.id. simpl skipn.
  rewrite firstn_app, firstn_all, Nat.sub_diag. simpl. apply app_nil_r.
Qed.

Lemma substring_from_suffix (s t : jstring) :
  substring_from (s ++ t) (len s) = t.
Proof.
  unfold substring_from, substring, clamp, len. rewrite length_app.
  replace (Z.max 0 (Z.min (Z.of_nat (List.length s))
                          (Z.of_nat (List.length s + List.length t))))
    with (Z.of_nat (List.length s)) by lia.
  replace (Z.max 0 (Z.min (Z.of_nat (List.length s + List.length t))
                          (Z.of_nat (List.length s + List.length t))))
    with (Z.of_nat (List.length s + List.length t)) by lia.
  rewrite Z.min_l, Z.max_r by lia.
  rewrite Nat2Z.id.
  replace (Z.to_nat (Z.of_nat (List.length s + List.length t) - Z.of_nat (List.length s)))
    with (List.length t) by lia.
  rewrite skipn_app, skipn_all, Nat.sub_diag. simpl. apply firstn_all.
Qed.

(** Stripping the first and the last code unit. *)
Lemma substring_inner (c d : code_unit) (s : jstring) :
  substring (c :: s ++ [d]) 1 (len (c :: s ++ [d]) - 1) = s.
Proof.
  unfold substring, clamp, len. simpl List.length. rewrite length_app. simpl List.length.
  replace (Z.max 0 (Z.min 1 (Z.of_nat (S (List.length s + 1))))) with 1%Z by lia.
  replace (Z.max 0 (Z.min (Z.of_nat (S (List.length s + 1)) - 1)
                          (Z.of_nat (S (List.length s + 1)))))
    with (Z.of_nat (List.length s) + 1)%Z by lia.
  rewrite Z.min_l, Z.max_r by lia.
  replace (Z.to_nat (Z.of_nat (List.length s) + 1 - 1)) with (List.length s) by lia.
  change (Z.to_nat 1) with 1%nat. simpl skipn.
  rewrite firstn_app, firstn_all, Nat.sub_diag. simpl. apply app_nil_r.
Qed.

(** [substring(1, 0)] on a string of one code unit: the indices are
    swapped and the string comes back whole. *)
Lemma substring_single (c : code_unit) :
  substring [c] 1 (len [c] - 1) = [c].
Proof. reflexivity. Qed.

Lemma startsWith_cons (c d : code_unit) (s : jstring) :
  startsWith (c :: s) [d] = (c =? d)%N.
Proof. simpl. destruct s; apply andb_true_r. Qed.

Lemma endsWith_snoc (c d : code_unit) (s : jstring) :
  endsWith (s ++ [c]) [d] = (c =? d)%N.
Proof.
  unfold endsWith. rewrite rev_app_distr. simpl.
  destruct (rev s); apply andb_true_r.
Qed.

Lemma test_ws_or_hash_false (s : jstring) :
  test_ws_or_hash s = false ->
  forall c, In c s -> is_ws c = false /\ c <> HASH.
Proof.
  unfold test_ws_or_hash. intros H c Hc.
  destruct (is_ws c) eqn:W.
  - assert (existsb (fun c => is_ws c || (c =? HASH)%N) s = true).
    { apply existsb_exists. exists c. rewrite W. auto. }
    congruence.
  - split; [reflexivity|]. intros ->.
    assert (existsb (fun c => is_ws c || (c =? HASH)%N) s = true).
    { apply existsb_exists. exists HASH. rewrite N.eqb_refl, orb_true_r. auto. }
    congruence.
Qed.

Lemma test_ws_or_hash_true (s : jstring) :
  test_ws_or_hash s = true <->
  exists c, In c s /\ (is_ws c = true \/ c = HASH).
Proof.
  unfold test_ws_or_hash. rewrite existsb_exists.
  split; intros [c [Hc H]]; exists c; split; auto.
  - apply orb_true_iff in H. destruct H as [H|H]; [left; exact H|].
    right; apply N.eqb_eq; exact H.
  - apply orb_true_iff. destruct H as [H| ->]; [left; exact H|].
    right; apply N.eqb_refl.
Qed.

End StringFacts.

Section ObjectFacts.
Variable V : Type.
Implicit Types (o : Record V) (k : jstring) (v : V).

Lemma obj_get_in o k v : obj_get o k = Some v -> In (k, v) o.
Proof.
  induction o as [|[k' v'] o IH]; simpl; [discriminate|].
  destruct (jstr_eqb k' k) eqn:E.
  - apply jstr_eqb_eq in E. intros H; inversion H; subst. left; reflexivity.
  - intros H; right; apply IH; exact H.
Qed.

Lemma obj_get_none o k : obj_get o k = None <-> ~ In k (keys o).
Proof.
  induction o as [|[k' v'] o IH]; simpl; [tauto|].
  destruct (jstr_eqb k' k) eqn:E.
  - apply jstr_eqb_eq in E. split; [discriminate | intros H; exfalso; apply H; auto].
  - apply jstr_eqb_neq in E. rewrite IH. tauto.
Qed.

Lemma in_keys_get o k : In k (keys o) <-> exists v, obj_get o k = Some v.
Proof.
  destruct (obj_get o k) eqn:E.
  - split; [eauto|]. intros _. apply obj_get_in in E.
    apply (in_map fst) in E. exact E.
  - split; [|intros [v H]; discriminate].
    intros H. apply obj_get_none in E. contradiction.
Qed.

Lemma in_obj_get o k v : wf_obj o -> In (k, v) o -> obj_get o k = Some v.
Proof.
  unfold wf_obj, keys.
  induction o as [|[k' v'] o IH]; simpl; intros ND H; [contradiction|].
  inversion ND as [|? ? Hn ND']; subst.
  destruct H as [H|H].
  - inversion H; subst. rewrite jstr_eqb_refl. reflexivity.
  - destruct (jstr_eqb k' k) eqn:E.
    + apply jstr_eqb_eq in E; subst. exfalso; apply Hn.
      apply (in_map fst) in H. exact H.
    + apply IH; assumption.
Qed.

Lemma has_key_true o k : has_key o k = true <-> In k (keys o).
Proof.
  unfold has_key. rewrite in_keys_get.
  destruct (obj_get o k); split; try eauto; try discriminate.
  intros [v H]; discriminate.
Qed.

Lemma has_key_false o k : has_key o k = false <-> obj_get o k = None.
Proof. unfold has_key. destruct (obj_get o k); split; congruence. Qed.

Lemma keys_replace k v o : keys (obj_replace k v o) = keys o.
Proof.
  unfold keys. induction o as [|[k' v'] o IH]; simpl; [reflexivity|].
  destruct (jstr_eqb k' k); simpl; congruence.
Qed.

Lemma obj_get_replace_same k v o :
  has_key o k = true -> obj_get (obj_replace k v o) k = Some v.
Proof.
  unfold has_key.
  induction o as [|[k' v'] o IH]; simpl; [discriminate|].
  destruct (jstr_eqb k' k) eqn:E; simpl; rewrite E; auto.
Qed.

Lemma obj_get_replace_other k k' v o :
  k <> k' -> obj_get (obj_replace k v o) k' = obj_get o k'.
Proof.
  intros NE. induction o as [|[k0 v0] o IH]; simpl; [reflexivity|].
  destruct (jstr_eqb k0 k) eqn:E; simpl.
  - apply jstr_eqb_eq in E; subst.
    destruct (jstr_eqb k k') eqn:E'; [apply jstr_eqb_eq in E'; congruence | reflexivity].
  - destruct (jstr_eqb k0 k'); [reflexivity | exact IH].
Qed.

Lemma obj_insert_index_perm i k v o :
  Permutation (obj_insert_index i k v o) ((k, v) :: o).
Proof.
  induction o as [|[k' v'] o IH]; simpl; [reflexivity|].
  destruct (array_index k'); [|reflexivity].
  destruct (N.ltb n i); [|reflexivity].
  rewrite IH. apply perm_swap.
Qed.

Lemma obj_get_insert_index_same i k v o :
  obj_get o k = None -> obj_get (obj_insert_index i k v o) k = Some v.
Proof.
  induction o as [|[k' v'] o IH]; simpl.
  - intros _. rewrite jstr_eqb_refl. reflexivity.
  - destruct (jstr_eqb k' k) eqn:E; [discriminate|]. intros H.
    destruct (array_index k'); simpl.
    + destruct (N.ltb n i); simpl.
      * rewrite E. apply IH; exact H.
      * rewrite jstr_eqb_refl. reflexivity.
    + rewrite jstr_eqb_refl. reflexivity.
Qed.

Lemma obj_get_insert_index_other i k k' v o :
  k <> k' -> obj_get (obj_insert_index i k v o) k' = obj_get o k'.
Proof.
  intros NE. apply jstr_eqb_neq in NE.
  induction o as [|[k0 v0] o IH]; simpl.
  - rewrite NE. reflexivity.
  - destruct (array_index k0); simpl.
    + destruct (N.ltb n i); simpl.
      * destruct (jstr_eqb k0 k'); [reflexivity | exact IH].
      * rewrite NE. reflexivity.
    + rewrite NE. reflexivity.
Qed.

Lemma obj_get_app o1 o2 k :
  obj_get (o1 ++ o2) k =
  match obj_get o1 k with Some v => Some v | None => obj_get o2 k end.
Proof.
  induction o1 as [|[k' v'] o1 IH]; simpl; [reflexivity|].
  destruct (jstr_eqb k' k); [reflexivity | exact IH].
Qed.

(** Reading back what [obj_set] wrote, and the frame around it. *)
Lemma obj_get_set_same k v o : obj_get (obj_set k v o) k = Some v.
Proof.
  unfold obj_set. destruct (has_key o k) eqn:H.
  - apply obj_get_replace_same; exact H.
  - apply has_key_false in H. destruct (array_index k).
    + apply obj_get_insert_index_same; exact H.
    + rewrite obj_get_app, H. simpl. rewrite jstr_eqb_refl. reflexivity.
Qed.

Lemma obj_get_set_other k k' v o :
  k <> k' -> obj_get (obj_set k v o) k' = obj_get o k'.
Proof.
  intros NE. unfold obj_set. destruct (has_key o k).
  - apply obj_get_replace_other; exact NE.
  - destruct (array_index k).
    + apply obj_get_insert_index_other; exact NE.
    + rewrite obj_get_app. simpl.
      apply jstr_eqb_neq in NE. rewrite NE.
      destruct (obj_get o k'); reflexivity.
Qed.

Lemma wf_obj_set k v o : wf_obj o -> wf_obj (obj_set k v o).
Proof.
  unfold wf_obj, obj_set. intros ND. destruct (has_key o k) eqn:H.
  - rewrite keys_replace. exact ND.
  - assert (Hn : ~ In k (keys o)).
    { rewrite <- has_key_true. congruence. }
    assert (P : forall o', Permutation o' ((k, v) :: o) -> NoDup (keys o')).
    { intros o' Hp. unfold keys.
      apply (Permutation_NoDup (l := map fst ((k, v) :: o))).
      - apply Permutation_map. symmetry. exact Hp.
      - simpl. constructor; assumption. }
    destruct (array_index k).
    + apply P. apply obj_insert_index_perm.
    + apply P. rewrite Permutation_app_comm. reflexivity.
Qed.

Lemma obj_get_set_all (l : list (jstring * V)) (acc : Record V) k :
  NoDup (map fst l) ->
  obj_get (set_all l acc) k =
  match obj_get l k with Some v => Some v | None => obj_get acc k end.
Proof.
  unfold set_all. revert acc.
  induction l as [|[k' v'] l IH]; simpl; intros acc ND; [reflexivity|].
  inversion ND as [|? ? Hn ND']; subst.
  rewrite IH by exact ND'.
  destruct (jstr_eqb k' k) eqn:E.
  - apply jstr_eqb_eq in E; subst.
    assert (G : obj_get l k = None) by (apply obj_get_none; exact Hn).
    rewrite G. apply obj_get_set_same.
  - apply jstr_eqb_neq in E.
    destruct (obj_get l k); [reflexivity|].
    apply obj_get_set_other; exact E.
Qed.

Lemma wf_set_all (l : list (jstring * V)) (acc : Record V) : wf_obj acc -> wf_obj (set_all l acc).
Proof.
  unfold set_all. revert acc.
  induction l as [|[k v] l IH]; simpl; intros acc H; [exact H|].
  apply IH. apply wf_obj_set. exact H.
Qed.

Lemma obj_get_perm (l l' : Record V) k :
  wf_obj l -> Permutation l l' -> obj_get l k = obj_get l' k.
Proof.
  intros ND P.
  assert (ND' : wf_obj l').
  { unfold wf_obj, keys in *.
    apply (Permutation_NoDup (l := map fst l)); [apply Permutation_map; exact P | exact ND]. }
  destruct (obj_get l k) eqn:E.
  - symmetry. apply in_obj_get; [exact ND'|].
    apply (Permutation_in _ P). apply obj_get_in; exact E.
  - destruct (obj_get l' k) eqn:E'; [|reflexivity].
    apply obj_get_in in E'. apply (Permutation_in _ (Permutation_sym P)) in E'.
    apply in_obj_get in E'; [congruence | exact ND].
Qed.

End ObjectFacts.

Section SortFacts.
Variable A : Type.
Variable cmp : A -> A -> Z.

Lemma sort_insert_perm (x : A) (l : list A) :
  Permutation (sort_insert cmp x l) (x :: l).
Proof.
  induction l as [|y l IH]; simpl; [reflexivity|].
  destruct (cmp x y >? 0)%Z; [|reflexivity].
  rewrite IH. apply perm_swap.
Qed.

Lemma sort_perm (l : list A) : Permutation (sort cmp l) l.
Proof.
  induction l as [|x l IH]; simpl; [reflexivity|].
  rewrite sort_insert_perm. constructor. exact IH.
Qed.

Hypothesis cmp_antisym : forall a b, (cmp a b > 0)%Z -> (cmp b a <= 0)%Z.

Lemma sort_insert_sorted (x : A) (l : list A) :
  Sorted (ordered cmp) l -> Sorted (ordered cmp) (sort_insert cmp x l).
Proof.
  induction l as [|y l IH]; simpl; intros S.
  - repeat constructor.
  - inversion S as [|? ? S' Hd]; subst.
    destruct (Z.gtb_spec (cmp x y) 0) as [G|G].
    + constructor; [apply IH; exact S'|].
      destruct l as [|z l]; simpl.
      * constructor. apply cmp_antisym. lia.
      * destruct (cmp x z >? 0)%Z.
        -- inversion Hd; subst. constructor. assumption.
        -- constructor. apply cmp_antisym. lia.
    + constructor; [exact S|]. constructor. unfold ordered. lia.
Qed.

Lemma sort_sorted (l : list A) : Sorted (ordered cmp) (sort cmp l).
Proof.
  induction l as [|x l IH]; simpl; [constructor|].
  apply sort_insert_sorted. exact IH.
Qed.

End SortFacts.

Section MergeFacts.

Lemma applyOverrides_set_all (B O : EnvMapping) :
  applyOverrides B O = set_all O (set_all B []).
Proof.
  unfold applyOverrides, spread2, set_all, entries.
  apply fold_left_app.
Qed.

Lemma applyOverrides_get (B O : EnvMapping) (k : jstring) :
  wf_obj B -> wf_obj O ->
  obj_get (applyOverrides B O) k =
  match obj_get O k with Some v => Some v | None => obj_get B k end.
Proof.
  intros HB HO. rewrite applyOverrides_set_all.
  rewrite obj_get_set_all by exact HO.
  destruct (obj_get O k); [reflexivity|].
  rewrite obj_get_set_all by exact HB.
  destruct (obj_get B k); reflexivity.
Qed.

End MergeFacts.

(** C2: [applyOverrides] reads as the overrides where they have the
    key and as the base elsewhere, and its keys are those of either. *)
Theorem applyOverrides_spec (B O : EnvMapping) :
  wf_obj B -> wf_obj O ->
  (forall k v, obj_get O k = Some v ->
               obj_get (applyOverrides B O) k = Some v) /\
  (forall k, obj_get O k = None ->
             obj_get (applyOverrides B O) k = obj_get B k) /\
  (forall k, In k (keys (applyOverrides B O)) <->
             In k (keys B) \/ In k (keys O)) /\
  wf_obj (applyOverrides B O).
Proof.
  intros HB HO. repeat split.
  - intros k v H. rewrite applyOverrides_get, H by assumption. reflexivity.
  - intros k H. rewrite applyOverrides_get, H by assumption. reflexivity.
  - rewrite !in_keys_get. intros [v H].
    rewrite applyOverrides_get in H by assumption.
    destruct (obj_get O k) eqn:E; [right; eauto | left; eauto].
  - rewrite !in_keys_get. intros H.
    rewrite applyOverrides_get by assumption.
    destruct (obj_get O k) eqn:E; [eauto|].
    destruct H as [[v H]|[v H]]; [eauto | discriminate].
  - rewrite applyOverrides_set_all. apply wf_set_all. apply wf_set_all.
    constructor.
Qed.

Lemma applyOverrides_spec_witness :
  obj_get (applyOverrides [(lit "A", lit "1"); (lit "B", lit "2")]
                          [(lit "B", lit "3"); (lit "C", lit "4")])
          (lit "B") = Some (lit "3").
Proof.
  assert (HB : wf_obj [(lit "A", lit "1"); (lit "B", lit "2")]).
  { repeat constructor; simpl; intuition discriminate. }
  assert (HO : wf_obj [(lit "B", lit "3"); (lit "C", lit "4")]).
  { repeat constructor; simpl; intuition discriminate. }
  exact (proj1 (applyOverrides_spec HB HO) (lit "B") (lit "3") eq_refl).
Defined.

Section FormatFacts.
Variable localeCompare : jstring -> jstring -> Z.

Lemma format_entry_quoted (k v : jstring) :
  test_ws_or_hash v = true ->
  format_entry (k, v) = k ++ [EQUALS] ++ [DQUOTE] ++ v ++ [DQUOTE].
Proof. unfold format_entry. intros ->. reflexivity. Qed.

Lemma format_entry_plain (k v : jstring) :
  test_ws_or_hash v = false ->
  format_entry (k, v) = k ++ [EQUALS] ++ v.
Proof. unfold format_entry. intros ->. reflexivity. Qed.

(** No entry ends with a newline. *)
Lemma format_entry_no_trailing_newline (kv : jstring * jstring) (b : jstring) :
  format_entry kv <> b ++ [LF].
Proof.
  destruct kv as [k v]. intros E.
  destruct (test_ws_or_hash v) eqn:T.
  - rewrite format_entry_quoted in E by exact T.
    apply (f_equal (@rev _)) in E.
    rewrite !rev_app_distr in E. simpl in E. discriminate.
  - rewrite format_entry_plain in E by exact T.
    apply (f_equal (@rev _)) in E.
    rewrite !rev_app_distr in E. simpl in E.
    destruct (rev v) as [|c r] eqn:R; simpl in E; [discriminate|].
    inversion E; subst.
    assert (In LF v) by (apply in_rev; rewrite R; left; reflexivity).
    destruct (test_ws_or_hash_false _ T LF H) as [W _]. discriminate.
Qed.

Lemma join_snoc (sep : jstring) (ls : list jstring) (l : jstring) :
  exists p, join sep (ls ++ [l]) = p ++ l.
Proof.
  induction ls as [|x ls [p IH]]; simpl.
  - exists []; reflexivity.
  - destruct (ls ++ [l]) eqn:E.
    + destruct ls; discriminate.
    + exists (x ++ sep ++ p). rewrite IH, <- !app_assoc. reflexivity.
Qed.

Lemma join_lines_no_trailing_newline (es : list (jstring * jstring)) (b : jstring) :
  join [LF] (map format_entry es) <> b ++ [LF].
Proof.
  destruct es as [|e es] using rev_ind.
  - simpl. destruct b; discriminate.
  - rewrite map_app. simpl map.
    destruct (join_snoc [LF] (map format_entry es) (format_entry e)) as [p Hp].
    rewrite Hp. intros E.
    destruct (format_entry e) as [|c r] eqn:F using rev_ind.
    + destruct e as [k v]. unfold format_entry in F.
      destruct k; discriminate.
    + clear IHr. rewrite app_assoc in E. apply app_inj_tail in E.
      destruct E as [_ ->].
      apply (format_entry_no_trailing_newline e r). exact F.
Qed.

End FormatFacts.

(** C6: the serialisation is the entries sorted by the comparator, one
    [KEY=VALUE] line each, a value quoted exactly when it has white
    space or [#], the lines joined by newlines, and one newline at the
    end; the empty mapping gives that newline alone. *)
Theorem formatEnvContent_shape
  (localeCompare : jstring -> jstring -> Z) (env : EnvMapping) :
  (forall a b, (localeCompare a b > 0)%Z -> (localeCompare b a <= 0)%Z) ->
  (exists sorted,
     Permutation sorted (entries env) /\
     Sorted (fun a b => (localeCompare (fst a) (fst b) <= 0)%Z) sorted /\
     formatEnvContent localeCompare env
     = join [LF] (map format_entry sorted) ++ [LF]) /\
  (forall k v,
     (exists c, In c v /\ (is_ws c = true \/ c = HASH)) ->
     format_entry (k, v) = k ++ [EQUALS] ++ [DQUOTE] ++ v ++ [DQUOTE]) /\
  (forall k v,
     (forall c, In c v -> is_ws c = false /\ c <> HASH) ->
     format_entry (k, v) = k ++ [EQUALS] ++ v) /\
  ends_with_one_newline (formatEnvContent localeCompare env) /\
  formatEnvContent localeCompare [] = [LF].
Proof.
  intros Hcmp. repeat split.
  - exists (sort (compare_keys localeCompare) (entries env)).
    split; [apply sort_perm|]. split; [|reflexivity].
    apply (@sort_sorted _ (compare_keys localeCompare)).
    intros a b. unfold compare_keys. apply Hcmp.
  - intros k v H. apply format_entry_quoted.
    apply test_ws_or_hash_true. exact H.
  - intros k v H. apply format_entry_plain.
    destruct (test_ws_or_hash v) eqn:T; [|reflexivity].
    apply test_ws_or_hash_true in T. destruct T as [c [Hc [W| ->]]].
    + destruct (H c Hc) as [W' _]. congruence.
    + destruct (H HASH Hc) as [_ N]. congruence.
  - unfold formatEnvContent. eexists. split; [reflexivity|].
    apply join_lines_no_trailing_newline.
Qed.

Section CollationFacts.

Lemma ordinalCompare_flip (a b : jstring) :
  ordinalCompare b a = (- ordinalCompare a b)%Z.
Proof.
  revert b. induction a as [|x a IH]; intros [|y b]; simpl; try reflexivity.
  destruct (N.ltb_spec x y), (N.ltb_spec y x); try reflexivity; try lia.
  apply IH.
Qed.

Lemma asciiCollate_flip (a b : jstring) :
  asciiCollate b a = (- asciiCollate a b)%Z.
Proof.
  unfold asciiCollate.
  rewrite (ordinalCompare_flip (map fold_case a) (map fold_case b)).
  rewrite (ordinalCompare_flip a b).
  destruct (Z.eqb_spec (ordinalCompare (map fold_case a) (map fold_case b)) 0)
    as [E|E].
  - rewrite E. simpl. lia.
  - destruct (Z.eqb_spec (- ordinalCompare (map fold_case a) (map fold_case b)) 0);
      lia.
Qed.

Lemma asciiCollate_antisym (a b : jstring) :
  (asciiCollate a b > 0)%Z -> (asciiCollate b a <= 0)%Z.
Proof. rewrite (asciiCollate_flip a b). lia. Qed.

End CollationFacts.

Lemma formatEnvContent_shape_witness :
  ends_with_one_newline (formatEnvContent asciiCollate Scenes.spaced_value)
  /\ formatEnvContent asciiCollate [] = [LF].
Proof.
  exact (proj2 (proj2 (proj2
           (@formatEnvContent_shape asciiCollate Scenes.spaced_value
              asciiCollate_antisym)))).
Defined.

(** Counterexample to C6 as stated, on the order: the keys come out in the order
    of the collation, here [a] before [B], not in the order of their
    code units. *)
Lemma formatEnvContent_order_is_not_ordinal :
  formatEnvContent asciiCollate Scenes.mixed_case
  = lit "a=2" ++ [LF] ++ lit "B=1" ++ [LF]
  /\ formatEnvContent ordinalCompare Scenes.mixed_case
     = lit "B=1" ++ [LF] ++ lit "a=2" ++ [LF]
  /\ ordinalCompare (lit "a") (lit "B") = 1%Z.
Proof. vm_compute. repeat split. Qed.

Section RoundTrip.

Lemma edges_clean_line (k fv : jstring) :
  k <> [] -> edges_clean k ->
  match rev fv with [] => True | c :: _ => is_ws c = false end ->
  edges_clean (k ++ [EQUALS] ++ fv).
Proof.
  intros NE [Hk _] Hfv. split.
  - destruct k as [|c k]; [congruence | exact Hk].
  - rewrite !rev_app_distr. simpl.
    destruct (rev fv) as [|c r]; simpl; [reflexivity | exact Hfv].
Qed.

Lemma formatted_value_last (v : jstring) :
  edges_clean v ->
  match rev (if test_ws_or_hash v then [DQUOTE] ++ v ++ [DQUOTE] else v)
  with [] => True | c :: _ => is_ws c = false end.
Proof.
  intros [_ H]. destruct (test_ws_or_hash v).
  - simpl. rewrite rev_app_distr. reflexivity.
  - exact H.
Qed.

Lemma formatted_value_first (v : jstring) :
  edges_clean v ->
  match (if test_ws_or_hash v then [DQUOTE] ++ v ++ [DQUOTE] else v)
  with [] => True | c :: _ => is_ws c = false end.
Proof.
  intros [H _]. destruct (test_ws_or_hash v); [reflexivity | exact H].
Qed.

Lemma unquote_formatted (v : jstring) :
  (test_ws_or_hash v = false -> quote_wrapped v = false) ->
  unquote (if test_ws_or_hash v then [DQUOTE] ++ v ++ [DQUOTE] else v) = v.
Proof.
  intros H. destruct (test_ws_or_hash v).
  - unfold unquote. simpl app.
    rewrite startsWith_cons.
    change (DQUOTE :: v ++ [DQUOTE]) with ((DQUOTE :: v) ++ [DQUOTE]).
    rewrite endsWith_snoc. simpl orb. cbv match.
    apply substring_inner.
  - specialize (H eq_refl). unfold quote_wrapped in H. unfold unquote.
    destruct ((startsWith v [DQUOTE] && endsWith v [DQUOTE])
              || (startsWith v [SQUOTE] && endsWith v [SQUOTE])) eqn:Q;
      [|reflexivity].
    simpl in H. apply Z.leb_gt in H.
    destruct v as [|c [|d v]].
    + reflexivity.
    + reflexivity.
    + unfold len in H. simpl List.length in H. lia.
Qed.

Lemma parse_line_format_entry (acc : EnvMapping) (k v : jstring) :
  roundtrip_key k -> roundtrip_value v ->
  parse_line acc (format_entry (k, v)) = obj_set k v acc.
Proof.
  intros (NE & Tk & _ & Ek & Hk & Pk) (_ & Tv & Qv).
  apply trim_fixed_edges in Tk as Ck. apply trim_fixed_edges in Tv as Cv.
  unfold format_entry. cbv zeta.
  set (fv := if test_ws_or_hash v then [DQUOTE] ++ v ++ [DQUOTE] else v).
  assert (Tl : trim (k ++ [EQUALS] ++ fv) = k ++ [EQUALS] ++ fv).
  { apply trim_id. apply edges_clean_line; auto.
    apply formatted_value_last; exact Cv. }
  unfold parse_line. rewrite Tl.
  assert (E1 : is_empty (k ++ [EQUALS] ++ fv) = false).
  { destruct k; [congruence | reflexivity]. }
  assert (E2 : startsWith (k ++ [EQUALS] ++ fv) [HASH] = false).
  { destruct k as [|c k]; [congruence|]. simpl app.
    rewrite startsWith_cons. rewrite startsWith_cons in Hk. exact Hk. }
  rewrite E1, E2. simpl orb. cbv match. cbv zeta.
  assert (E3 : indexOf EQUALS (k ++ [EQUALS] ++ fv) = len k).
  { apply indexOf_first. exact Ek. }
  rewrite E3.
  assert (E4 : (len k =? -1)%Z = false).
  { apply Z.eqb_neq. unfold len. lia. }
  rewrite E4. rewrite substring_prefix, Tk.
  assert (E5 : substring_from (k ++ [EQUALS] ++ fv) (len k + 1) = fv).
  { replace (len k + 1)%Z with (len (k ++ [EQUALS])).
    - rewrite app_assoc. apply substring_from_suffix.
    - unfold len. rewrite length_app. simpl. lia. }
  rewrite E5.
  assert (E6 : trim fv = fv).
  { apply trim_id. split;
      [apply formatted_value_first | apply formatted_value_last]; exact Cv. }
  rewrite E6. unfold fv. rewrite unquote_formatted by exact Qv.
  unfold obj_assign.
  assert (E7 : jstr_eqb k (lit "__proto__") = false)
    by (apply jstr_eqb_neq; exact Pk).
  rewrite E7. reflexivity.
Qed.

Lemma format_entry_no_newline (k v : jstring) :
  ~ In LF k -> ~ In LF v -> ~ In LF (format_entry (k, v)).
Proof.
  intros Hk Hv. unfold format_entry. cbv zeta.
  destruct (test_ws_or_hash v); rewrite !in_app_iff; simpl;
    intros H; repeat destruct H as [H|H]; auto; try discriminate.
Qed.

Lemma parse_line_blank (acc : EnvMapping) : parse_line acc [] = acc.
Proof. reflexivity. Qed.

Lemma parse_lines_set_all (es : list (jstring * jstring)) (acc : EnvMapping) :
  (forall k v, In (k, v) es -> roundtrip_key k /\ roundtrip_value v) ->
  fold_left parse_line (map format_entry es) acc = set_all es acc.
Proof.
  revert acc. induction es as [|[k v] es IH]; intros acc H; [reflexivity|].
  cbn [map fold_left]. destruct (H k v (or_introl eq_refl)) as [Hk Hv].
  rewrite (parse_line_format_entry acc Hk Hv).
  rewrite IH by (intros k' v' Hin; apply H; right; exact Hin).
  reflexivity.
Qed.

Lemma parse_format_entries (es : list (jstring * jstring)) :
  (forall k v, In (k, v) es -> roundtrip_key k /\ roundtrip_value v) ->
  parseEnvContent (join [LF] (map format_entry es) ++ [LF]) = set_all es [].
Proof.
  intros H. unfold parseEnvContent.
  destruct es as [|e es].
  - reflexivity.
  - rewrite split_join_lines.
    + rewrite fold_left_app.
      rewrite parse_lines_set_all by exact H. apply parse_line_blank.
    + intros l Hl. apply in_map_iff in Hl. destruct Hl as [[k v] [<- Hin]].
      destruct (H k v Hin) as [(_ & _ & Hk & _) (Hv & _)].
      apply format_entry_no_newline; assumption.
    + discriminate.
Qed.

End RoundTrip.

(** C3: on mappings whose keys and values pass through the text
    format unchanged, parsing the serialisation gives back the mapping:
    every key reads as before. *)
Theorem parse_format_roundtrip
  (localeCompare : jstring -> jstring -> Z) (m : EnvMapping) :
  wf_obj m ->
  (forall k v, In (k, v) m -> roundtrip_key k /\ roundtrip_value v) ->
  forall k,
    obj_get (parseEnvContent (formatEnvContent localeCompare m)) k
    = obj_get m k.
Proof.
  intros ND H k. unfold formatEnvContent.
  set (sorted := sort (compare_keys localeCompare) (entries m)).
  assert (P : Permutation sorted m) by apply sort_perm.
  assert (ND' : wf_obj sorted).
  { unfold wf_obj, keys in *.
    apply (Permutation_NoDup (l := map fst m));
      [apply Permutation_map; symmetry; exact P | exact ND]. }
  rewrite parse_format_entries.
  - rewrite obj_get_set_all by exact ND'.
    rewrite (obj_get_perm k ND' P).
    destruct (obj_get m k); reflexivity.
  - intros k' v' Hin. apply H. apply (Permutation_in _ P). exact Hin.
Qed.

Ltac decide_key :=
  unfold roundtrip_key;
  repeat split;
  try discriminate; try reflexivity;
  try (simpl; intuition discriminate).

Lemma parse_format_roundtrip_witness :
  obj_get (parseEnvContent (formatEnvContent asciiCollate Scenes.spaced_value))
          (lit "a")
  = obj_get Scenes.spaced_value (lit "a").
Proof.
  apply (@parse_format_roundtrip asciiCollate Scenes.spaced_value).
  - repeat constructor; simpl; intuition discriminate.
  - intros k v [H|[H|[]]]; inversion H; subst; split;
      try decide_key;
      unfold roundtrip_value; repeat split;
      try reflexivity; try discriminate;
      try (simpl; intuition discriminate).
Defined.

(** Counterexample to C3 as stated: a value written between quotes comes back
    without them. *)
Lemma roundtrip_strips_quoted_value :
  wf_obj Scenes.quoted_value
  /\ claimed_roundtrip_domain Scenes.quoted_value
  /\ obj_get (parseEnvContent
                (formatEnvContent asciiCollate Scenes.quoted_value))
             (lit "A")
     = Some (lit "x")
  /\ obj_get Scenes.quoted_value (lit "A")
     = Some ([DQUOTE] ++ lit "x" ++ [DQUOTE]).
Proof.
  split; [|split; [|split]].
  - repeat constructor; simpl; intuition.
  - intros k v [H|[]]. inversion H; subst.
    repeat split; try discriminate; try reflexivity.
    simpl; intuition discriminate.
  - vm_compute. reflexivity.
  - reflexivity.
Qed.

Section ContextFacts.

Lemma truthy_false (s : option jstring) :
  truthy s = false <-> missing_or_empty s.
Proof.
  unfold missing_or_empty. destruct s as [[|c s]|]; simpl; split; auto;
    try discriminate; intros [H|H]; discriminate.
Qed.

Lemma js_or_first_present (a b c : option jstring) :
  truthy (js_or (js_or a b) c) = true ->
  first_present [a; b; c] = Some (the_string (js_or (js_or a b) c)).
Proof.
  unfold js_or. simpl.
  destruct (truthy a) eqn:A.
  - rewrite A. intros _. destruct a; [reflexivity | discriminate].
  - destruct (truthy b) eqn:B.
    + intros _. destruct b; [reflexivity | discriminate].
    + intros C. rewrite C. destruct c; [reflexivity | discriminate].
Qed.

Lemma js_or_first_absent (a b c : option jstring) :
  truthy (js_or (js_or a b) c) = false -> first_present [a; b; c] = None.
Proof.
  unfold js_or. simpl.
  destruct (truthy a) eqn:A.
  - rewrite A. congruence.
  - destruct (truthy b) eqn:B; [congruence|]. intros C. rewrite C. reflexivity.
Qed.

Lemma configuration_error_not_enoent (msg : string) :
  includes (lit msg) (lit "No such file") = false ->
  catch_enoent (A := SharedContext) (Throw (ConfigurationError (lit msg)))
  = Throw (ConfigurationError (lit msg)).
Proof. intros H. unfold catch_enoent, is_enoent. simpl. rewrite H. reflexivity. Qed.

End ContextFacts.

(** C7: a shared-context file that is there and parses, but lacks one
    of org, project, environment (or holds it empty), makes the load,
    and with it the resolution, throw a configuration error; it is not
    taken for an absent file. *)
Theorem loadSharedContext_rejects_incomplete (doc : YamlDoc) :
  lacks_required_field doc ->
  (exists e,
     loadSharedContext (Parsed doc) = Throw e /\ is_configuration_error e /\
     forall options localFile skipLocal,
       resolveContext options (Parsed doc) localFile skipLocal = Throw e) /\
  loadSharedContext (Parsed doc) <> Ret None /\
  loadSharedContext (Parsed doc) <> loadSharedContext Missing.
Proof.
  intros H.
  assert (G : exists e, loadSharedContext (Parsed doc) = Throw e
                        /\ is_configuration_error e).
  { destruct doc as [|fields].
    - eexists. split; [reflexivity | reflexivity].
    - simpl in H.
      assert (T : negb (truthy (lc_org fields)) || negb (truthy (lc_project fields))
                  || negb (truthy (lc_environment fields)) = true).
      { rewrite !orb_true_iff, !negb_true_iff, !truthy_false. tauto. }
      eexists. split.
      + unfold loadSharedContext. cbv zeta. rewrite T.
        apply configuration_error_not_enoent. reflexivity.
      + reflexivity. }
  destruct G as [e [E C]]. split; [|split].
  - exists e. repeat split; auto.
    intros. unfold resolveContext. rewrite E. reflexivity.
  - rewrite E. discriminate.
  - rewrite E. discriminate.
Qed.

Lemma loadSharedContext_rejects_incomplete_witness :
  loadSharedContext Scenes.shared_org_only <> Ret None
  /\ loadSharedContext Scenes.shared_org_only <> loadSharedContext Missing.
Proof.
  refine (proj2 (@loadSharedContext_rejects_incomplete
            (YObject (mkLocal (Some (lit "s")) None None None)) _)).
  simpl. right. left. left. reflexivity.
Defined.




Section MonadFacts.
Variable R : Type.
Implicit Types w : World R.

Lemma bind_done {A B} {m : M R A} {k : A -> M R B} {w b w'} :
  bind m k w = (Done b, w') ->
  exists a w1, m w = (Done a, w1) /\ k a w1 = (Done b, w').
Proof.
  unfold bind. destruct (m w) as [[a|e|c] w1]; try discriminate.
  intros H. exists a, w1. auto.
Qed.

Lemma bind_run {A B} {m : M R A} (k : A -> M R B) {w a w1} :
  m w = (Done a, w1) -> bind m k w = k a w1.
Proof. unfold bind. intros ->. reflexivity. Qed.

Lemma bind_raised {A B} {m : M R A} (k : A -> M R B) {w e w1} :
  m w = (Raised e, w1) -> bind m k w = (Raised e, w1).
Proof. unfold bind. intros ->. reflexivity. Qed.

Lemma bind_exited {A B} {m : M R A} (k : A -> M R B) {w c w1} :
  m w = (Exited c, w1) -> bind m k w = (Exited c, w1).
Proof. unfold bind. intros ->. reflexivity. Qed.

(** *** [logs] *)
Section Logs.
Variable ok : Event -> bool.

Lemma logs_ret {A} (a : A) : logs ok (ret (R := R) a).
Proof. intros w. exists []. simpl. rewrite app_nil_r. auto. Qed.

Lemma logs_throw {A} e : logs ok (throw (R := R) (A := A) e).
Proof. intros w. exists []. simpl. rewrite app_nil_r. auto. Qed.

Lemma logs_exit {A} c : logs ok (exit (R := R) (A := A) c).
Proof. intros w. exists []. simpl. rewrite app_nil_r. auto. Qed.

Lemma logs_read {A} (f : World R -> A) : logs ok (read f).
Proof. intros w. exists []. simpl. rewrite app_nil_r. auto. Qed.

Lemma logs_lift {A} (r : Thrown A) : logs ok (lift (R := R) r).
Proof. destruct r; [apply logs_ret | apply logs_throw]. Qed.

Lemma logs_bind {A B} (m : M R A) (k : A -> M R B) :
  logs ok m -> (forall a, logs ok (k a)) -> logs ok (bind m k).
Proof.
  intros Hm Hk w. unfold bind.
  destruct (Hm w) as [l1 [E1 F1]].
  destruct (m w) as [[a|e|c] w1]; simpl in *.
  - destruct (Hk a w1) as [l2 [E2 F2]]. exists (l1 ++ l2).
    rewrite E2, E1, app_assoc, forallb_app, F1, F2. auto.
  - exists l1; auto.
  - exists l1; auto.
Qed.

Lemma logs_try_catch {A} (m : M R A) (h : JsError -> M R A) :
  logs ok m -> (forall e, logs ok (h e)) -> logs ok (try_catch m h).
Proof.
  intros Hm Hh w. unfold try_catch.
  destruct (Hm w) as [l1 [E1 F1]].
  destruct (m w) as [[a|e|c] w1]; simpl in *.
  - exists l1; auto.
  - destruct (Hh e w1) as [l2 [E2 F2]]. exists (l1 ++ l2).
    rewrite E2, E1, app_assoc, forallb_app, F1, F2. auto.
  - exists l1; auto.
Qed.

Lemma logs_when (b : bool) (m : M R unit) : logs ok m -> logs ok (when b m).
Proof. destruct b; simpl; [auto | intros _; apply logs_ret]. Qed.

Lemma logs_modify (g : World R -> World R) :
  (forall w, events (g w) = events w) -> logs ok (modify g).
Proof. intros H w. exists []. simpl. rewrite app_nil_r, H. auto. Qed.

Lemma logs_emit (e : Event) : ok e = true -> logs ok (emit (R := R) e).
Proof. intros H w. exists [e]. simpl. rewrite H. auto. Qed.

Lemma logs_now : logs ok (now (R := R)).
Proof. intros w. exists []. simpl. rewrite app_nil_r. auto. Qed.

Lemma logs_nextConfirm : logs ok (nextConfirm (R := R)).
Proof.
  intros w. exists []. unfold nextConfirm. rewrite app_nil_r.
  destruct (confirms w) as [|[b|] rest]; auto.
Qed.

Lemma logs_nextSelect choices : logs ok (nextSelect (R := R) choices).
Proof.
  intros w. exists []. unfold nextSelect. rewrite app_nil_r.
  destruct (selects w) as [|[i|] rest]; auto.
  destruct (nth_error choices i) as [[t v]|]; auto.
Qed.

Lemma logs_request {A} (c : Call) (g : R -> Thrown A * R) :
  (forall b, ok (Request c b) = true) -> logs ok (request c g).
Proof.
  intros H w. unfold request. destruct (g (remote w)) as [[a|e] r].
  - exists [Request c true]. simpl. rewrite H. auto.
  - exists [Request c false]. simpl. rewrite H. auto.
Qed.

Lemma logs_fold_right {A} (step : A -> M R unit -> M R unit) (l : list A) :
  (forall a rest, logs ok rest -> logs ok (step a rest)) ->
  logs ok (fold_right step (ret tt) l).
Proof.
  intros H. induction l as [|a l IH]; simpl; [apply logs_ret | apply H, IH].
Qed.

End Logs.

(** *** [tracked] *)
Section Tracked.
Variable ok : Event -> bool.
Variable X : Type.
Variable f : World R -> X.

Lemma tracked_ret {A} (a : A) : tracked ok f (ret (R := R) a).
Proof. intros w. exists []. simpl. rewrite app_nil_r. auto. Qed.

Lemma tracked_throw {A} e : tracked ok f (throw (R := R) (A := A) e).
Proof. intros w. exists []. simpl. rewrite app_nil_r. auto. Qed.

Lemma tracked_exit {A} c : tracked ok f (exit (R := R) (A := A) c).
Proof. intros w. exists []. simpl. rewrite app_nil_r. auto. Qed.

Lemma tracked_read {A} (g : World R -> A) : tracked ok f (read g).
Proof. intros w. exists []. simpl. rewrite app_nil_r. auto. Qed.

Lemma tracked_lift {A} (r : Thrown A) : tracked ok f (lift (R := R) r).
Proof. destruct r; [apply tracked_ret | apply tracked_throw]. Qed.

Lemma tracked_bind {A B} (m : M R A) (k : A -> M R B) :
  tracked ok f m -> (forall a, tracked ok f (k a)) -> tracked ok f (bind m k).
Proof.
  intros Hm Hk w. unfold bind.
  destruct (Hm w) as [l1 [E1 F1]].
  destruct (m w) as [[a|e|c] w1]; simpl in *.
  - destruct (Hk a w1) as [l2 [E2 F2]]. exists (l1 ++ l2).
    rewrite E2, E1, app_assoc, forallb_app. split; [reflexivity|].
    intros H. apply andb_true_iff in H. destruct H as [H1 H2].
    rewrite F2, F1; auto.
  - exists l1; auto.
  - exists l1; auto.
Qed.

Lemma tracked_try_catch {A} (m : M R A) (h : JsError -> M R A) :
  tracked ok f m -> (forall e, tracked ok f (h e)) ->
  tracked ok f (try_catch m h).
Proof.
  intros Hm Hh w. unfold try_catch.
  destruct (Hm w) as [l1 [E1 F1]].
  destruct (m w) as [[a|e|c] w1]; simpl in *.
  - exists l1; auto.
  - destruct (Hh e w1) as [l2 [E2 F2]]. exists (l1 ++ l2).
    rewrite E2, E1, app_assoc, forallb_app. split; [reflexivity|].
    intros H. apply andb_true_iff in H. destruct H as [H1 H2].
    rewrite F2, F1; auto.
  - exists l1; auto.
Qed.

Lemma tracked_when (b : bool) (m : M R unit) :
  tracked ok f m -> tracked ok f (when b m).
Proof. destruct b; simpl; [auto | intros _; apply tracked_ret]. Qed.

Lemma tracked_modify (g : World R -> World R) :
  (forall w, events (g w) = events w) -> (forall w, f (g w) = f w) ->
  tracked ok f (modify g).
Proof. intros H G w. exists []. simpl. rewrite app_nil_r, H, G. auto. Qed.

(** A write that the next event reports. *)
Lemma tracked_modify_reported (g : World R -> World R) (e : Event) :
  (forall w, events (g w) = events w) ->
  (forall w l, f (set_events w l) = f w) ->
  ok e = false ->
  tracked ok f (bind (modify g) (fun _ => emit e)).
Proof.
  intros H G N w. exists [e]. simpl. rewrite H, N. split; [reflexivity|].
  simpl. discriminate.
Qed.

Lemma tracked_emit (e : Event) :
  (forall w l, f (set_events w l) = f w) -> tracked ok f (emit (R := R) e).
Proof. intros G w. exists [e]. simpl. rewrite G. auto. Qed.

Lemma tracked_now :
  (forall w n, f (set_ticks w n) = f w) -> tracked ok f (now (R := R)).
Proof. intros G w. exists []. simpl. rewrite app_nil_r, G. auto. Qed.

Lemma tracked_nextConfirm :
  (forall w c, f (set_confirms w c) = f w) ->
  tracked ok f (nextConfirm (R := R)).
Proof.
  intros G w. exists []. unfold nextConfirm. rewrite app_nil_r.
  destruct (confirms w) as [|[b|] rest]; simpl; rewrite ?G; auto.
Qed.

Lemma tracked_nextSelect choices :
  (forall w c, f (set_selects w c) = f w) ->
  tracked ok f (nextSelect (R := R) choices).
Proof.
  intros G w. exists []. unfold nextSelect. rewrite app_nil_r.
  destruct (selects w) as [|[i|] rest]; simpl; rewrite ?G; auto.
  destruct (nth_error choices i) as [[t v]|]; simpl; rewrite ?G; auto.
Qed.

Lemma tracked_request {A} (c : Call) (g : R -> Thrown A * R) :
  (forall w r l, f (set_events (set_remote w r) l) = f w) ->
  tracked ok f (request c g).
Proof.
  intros G w. unfold request. destruct (g (remote w)) as [[a|e] r].
  - exists [Request c true]. simpl. rewrite G. auto.
  - exists [Request c false]. simpl. rewrite G. auto.
Qed.

Lemma tracked_fold_right {A} (step : A -> M R unit -> M R unit) (l : list A) :
  (forall a rest, tracked ok f rest -> tracked ok f (step a rest)) ->
  tracked ok f (fold_right step (ret tt) l).
Proof.
  intros H. induction l as [|a l IH]; simpl; [apply tracked_ret | apply H, IH].
Qed.

End Tracked.

(** What [logs] and [tracked] give together. *)
Lemma quiet_keeps {A X} ok (f : World R -> X) (m : M R A) :
  logs ok m -> tracked ok f m -> forall w, f (snd (m w)) = f w.
Proof.
  intros L T w. destruct (L w) as [l1 [E1 F1]]. destruct (T w) as [l2 [E2 F2]].
  rewrite E1 in E2. apply app_inv_head in E2. subst. auto.
Qed.

Lemma tracked_keeps {A X} (f : World R -> X) (m : M R A) :
  tracked any_event f m -> keeps f m.
Proof.
  intros T w. destruct (T w) as [l [E F]]. apply F.
  clear. induction l; simpl; auto.
Qed.

Lemma logs_weaken {A} (ok ok' : Event -> bool) (m : M R A) :
  (forall e, ok e = true -> ok' e = true) -> logs ok m -> logs ok' m.
Proof.
  intros H L w. destruct (L w) as [l [E F]]. exists l. split; [exact E|].
  rewrite forallb_forall in *. auto.
Qed.

(** *** [follows] *)
Lemma follows_none W P (l : list Event) :
  forallb (fun e => negb (W e)) l = true -> follows W P l.
Proof.
  intros F pre e post -> We. rewrite forallb_app in F.
  apply andb_true_iff in F. destruct F as [_ F]. simpl in F.
  rewrite We in F. discriminate.
Qed.

Lemma succeeded_app_l P (l1 l2 : list Event) :
  succeeded P l1 -> succeeded P (l1 ++ l2).
Proof. intros [c [Hc Hin]]. exists c. split; [exact Hc|]. apply in_or_app; auto. Qed.

Lemma split_at_app {T} (l1 l2 pre post : list T) (e : T) :
  l1 ++ l2 = pre ++ e :: post ->
  (exists mid, l1 = pre ++ e :: mid /\ post = mid ++ l2)
  \/ (exists pre', pre = l1 ++ pre' /\ l2 = pre' ++ e :: post).
Proof.
  revert pre. induction l1 as [|x l1 IH]; intros pre H; simpl in *.
  - right. exists pre. auto.
  - destruct pre as [|y pre]; simpl in *.
    + inversion H; subst. left. exists l1. auto.
    + inversion H; subst. destruct (IH pre H2) as [[mid [-> ->]]|[pre' [-> ->]]].
      * left. exists mid. auto.
      * right. exists pre'. auto.
Qed.

Lemma follows_app W P (l1 l2 : list Event) :
  follows W P l1 -> follows W P l2 -> follows W P (l1 ++ l2).
Proof.
  intros F1 F2 pre e post E We.
  destruct (split_at_app _ _ _ _ _ E) as [[mid [-> ->]]|[pre' [-> ->]]].
  - apply (F1 pre e mid eq_refl We).
  - destruct (F2 pre' e post eq_refl We) as [c [Hc Hin]].
    exists c. split; [exact Hc|]. apply in_or_app; auto.
Qed.

Lemma follows_after W P (l1 l2 : list Event) :
  follows W P l1 -> succeeded P l1 -> follows W P (l1 ++ l2).
Proof.
  intros F1 S pre e post E We.
  destruct (split_at_app _ _ _ _ _ E) as [[mid [-> ->]]|[pre' [-> ->]]].
  - apply (F1 pre e mid eq_refl We).
  - apply succeeded_app_l. exact S.
Qed.

(** *** [guarded] *)
Section Guarded.
Variable W : Event -> bool.
Variable P : Call -> bool.

Lemma guarded_quiet {A} (m : M R A) :
  logs (fun e => negb (W e)) m -> guarded W P m.
Proof.
  intros L w. destruct (L w) as [l [E F]]. exists l. split; [exact E|].
  apply follows_none. exact F.
Qed.

Lemma guarded_bind {A B} (m : M R A) (k : A -> M R B) :
  guarded W P m -> (forall a, guarded W P (k a)) -> guarded W P (bind m k).
Proof.
  intros Hm Hk w. unfold bind.
  destruct (Hm w) as [l1 [E1 F1]].
  destruct (m w) as [[a|e|c] w1]; simpl in *.
  - destruct (Hk a w1) as [l2 [E2 F2]]. exists (l1 ++ l2).
    rewrite E2, E1, app_assoc. split; [reflexivity|].
    apply follows_app; assumption.
  - exists l1; auto.
  - exists l1; auto.
Qed.

Lemma guarded_try_catch {A} (m : M R A) (h : JsError -> M R A) :
  guarded W P m -> (forall e, guarded W P (h e)) -> guarded W P (try_catch m h).
Proof.
  intros Hm Hh w. unfold try_catch.
  destruct (Hm w) as [l1 [E1 F1]].
  destruct (m w) as [[a|e|c] w1]; simpl in *.
  - exists l1; auto.
  - destruct (Hh e w1) as [l2 [E2 F2]]. exists (l1 ++ l2).
    rewrite E2, E1, app_assoc. split; [reflexivity|].
    apply follows_app; assumption.
  - exists l1; auto.
Qed.

(** What comes after a computation that returns only on an answer is
    covered by that answer. *)
Lemma guarded_after {A B} (m : M R A) (k : A -> M R B) :
  guarded W P m -> answers P m -> (forall a, logs any_event (k a)) ->
  guarded W P (bind m k).
Proof.
  intros Hm Ha Hk w. unfold bind.
  destruct (Hm w) as [l1 [E1 F1]].
  destruct (m w) as [[a|e|c] w1] eqn:Em; simpl in *.
  - destruct (Hk a w1) as [l2 [E2 _]]. exists (l1 ++ l2).
    rewrite E2, E1, app_assoc. split; [reflexivity|].
    apply follows_after; [exact F1|].
    destruct (Ha w a w1 Em) as [l [E S]].
    rewrite E1 in E. apply app_inv_head in E. subst. exact S.
  - exists l1; auto.
  - exists l1; auto.
Qed.

End Guarded.

(** *** [answers] *)
Section Answers.
Variable P : Call -> bool.

Lemma answers_request {A} (c : Call) (g : R -> Thrown A * R) :
  P c = true -> answers P (request c g).
Proof.
  intros Hc w a w'. unfold request.
  destruct (g (remote w)) as [[x|e] r]; intros H; inversion H; subst.
  exists [Request c true]. split; [reflexivity|].
  exists c. split; [exact Hc | left; reflexivity].
Qed.

Lemma answers_throw {A} e : answers P (throw (R := R) (A := A) e).
Proof. intros w a w' H. discriminate. Qed.

Lemma answers_exit {A} c : answers P (exit (R := R) (A := A) c).
Proof. intros w a w' H. discriminate. Qed.

Lemma answers_bind_l {A B} (m : M R A) (k : A -> M R B) :
  answers P m -> (forall a, logs any_event (k a)) -> answers P (bind m k).
Proof.
  intros Hm Hk w b w' H.
  destruct (bind_done H) as [a [w1 [E1 E2]]].
  destruct (Hm w a w1 E1) as [l1 [L1 S1]].
  destruct (Hk a w1) as [l2 [L2 _]]. rewrite E2 in L2. simpl in L2.
  exists (l1 ++ l2). rewrite L2, L1, app_assoc. split; [reflexivity|].
  apply succeeded_app_l. exact S1.
Qed.

Lemma answers_bind_r {A B} (m : M R A) (k : A -> M R B) :
  logs any_event m -> (forall a, answers P (k a)) -> answers P (bind m k).
Proof.
  intros Hm Hk w b w' H.
  destruct (bind_done H) as [a [w1 [E1 E2]]].
  destruct (Hm w) as [l1 [L1 _]]. rewrite E1 in L1. simpl in L1.
  destruct (Hk a w1 b w' E2) as [l2 [L2 [c [Hc Hin]]]].
  exists (l1 ++ l2). rewrite L2, L1, app_assoc. split; [reflexivity|].
  exists c. split; [exact Hc|]. apply in_or_app; auto.
Qed.

End Answers.

(** *** [total] *)
Lemma total_ret {A} (a : A) : total (ret (R := R) a).
Proof. intros w. exists a, w. reflexivity. Qed.

Lemma total_read {A} (f : World R -> A) : total (read f).
Proof. intros w. exists (f w), w. reflexivity. Qed.

Lemma total_modify (g : World R -> World R) : total (modify g).
Proof. intros w. exists tt, (g w). reflexivity. Qed.

Lemma total_emit (e : Event) : total (emit (R := R) e).
Proof. apply total_modify. Qed.

Lemma total_now : total (now (R := R)).
Proof. intros w. eexists _, _. reflexivity. Qed.

Lemma total_bind {A B} (m : M R A) (k : A -> M R B) :
  total m -> (forall a, total (k a)) -> total (bind m k).
Proof.
  intros Hm Hk w. destruct (Hm w) as [a [w1 E]].
  destruct (Hk a w1) as [b [w2 E2]]. exists b, w2.
  rewrite (bind_run _ E). exact E2.
Qed.

Lemma total_try_catch {A} (m : M R A) (h : JsError -> M R A) :
  total m -> total (try_catch m h).
Proof.
  intros Hm w. destruct (Hm w) as [a [w1 E]]. exists a, w1.
  unfold try_catch. rewrite E. reflexivity.
Qed.

Lemma total_try_catch_handled {A} (m : M R A) (h : JsError -> M R A) :
  (forall w c w', m w <> (Exited c, w')) -> (forall e, total (h e)) ->
  total (try_catch m h).
Proof.
  intros Hm Hh w. unfold try_catch.
  destruct (m w) as [[a|e|c] w1] eqn:E.
  - exists a, w1. reflexivity.
  - apply Hh.
  - exfalso. apply (Hm w c w1). exact E.
Qed.

Lemma total_when (b : bool) (m : M R unit) : total m -> total (when b m).
Proof. destruct b; simpl; [auto | intros _; apply total_ret]. Qed.

Lemma total_fold_right {A} (step : A -> M R unit -> M R unit) (l : list A) :
  (forall a rest, total rest -> total (step a rest)) ->
  total (fold_right step (ret tt) l).
Proof.
  intros H. induction l as [|a l IH]; simpl; [apply total_ret | apply H, IH].
Qed.

(** *** [fails_keeping] *)
Section FailsKeeping.
Variable X : Type.
Variable f : World R -> X.

Lemma fails_keeping_keeps {A} (m : M R A) : keeps f m -> fails_keeping f m.
Proof. intros K w o w' E _. specialize (K w). rewrite E in K. exact K. Qed.

Lemma fails_keeping_total {A} (m : M R A) : total m -> fails_keeping f m.
Proof.
  intros T w o w' E N. destruct (T w) as [a [w1 E1]].
  rewrite E1 in E. inversion E; subst. exfalso. apply (N a). reflexivity.
Qed.

Lemma fails_keeping_bind {A B} (m : M R A) (k : A -> M R B) :
  keeps f m -> (forall a, fails_keeping f (k a)) -> fails_keeping f (bind m k).
Proof.
  intros Km Hk w o w' E N. unfold bind in E. specialize (Km w).
  destruct (m w) as [[a|e|c] w1]; simpl in Km.
  - rewrite (Hk a w1 o w' E N). exact Km.
  - inversion E; subst. exact Km.
  - inversion E; subst. exact Km.
Qed.

Lemma fails_keeping_try_catch {A} (m : M R A) (h : JsError -> M R A) :
  fails_keeping f m -> (forall e, fails_keeping f (h e)) ->
  fails_keeping f (try_catch m h).
Proof.
  intros Hm Hh w o w' E N. unfold try_catch in E.
  destruct (m w) as [[a|e|c] w1] eqn:Em.
  - inversion E; subst. exfalso. apply (N a). reflexivity.
  - rewrite (Hh e w1 o w' E N). apply (Hm w _ _ Em). intros a; discriminate.
  - inversion E; subst. apply (Hm w _ _ Em). intros a; discriminate.
Qed.

End FailsKeeping.

End MonadFacts.

Create HintDb cli discriminated.
#[global] Hint Unfold
  out_success out_warning out_error out_info out_json confirm select
  requireAuth getServiceToken loadSharedContextM resolveContextM
  getLocalOverridesM saveSharedContext getVersionInfoM updateVersionInfoM
  readEnvFile writeEnvFile writeBackup appendBackup copyEnvToBackup
  createBackup ensureGitignore sendTelemetryEvent
  report_error command authenticate findEnvironment confirmOverrides
  determineBase pushPrepare recordVersion pushSubmit pushCommand
  selectContext pullFinish pullWrite pullCommand
  rollbackBackup rollbackApply rollbackCommand printCommand : cli.

Ltac side := solve [intros; reflexivity].

(** Three definitions are opened on request only: lemmas speak of them
    by name. *)
Ltac open_named :=
  progress (try unfold pullFetch; try unfold backupIfDifferent;
            try unfold forcedRetry).

Ltac logs_step :=
  first [ assumption | lazymatch goal with
  | |- logs _ (bind _ _) => apply logs_bind; [|intro]
  | |- logs _ (try_catch _ _) => apply logs_try_catch; [|intro]
  | |- logs _ (ret _) => apply logs_ret
  | |- logs _ (throw _) => apply logs_throw
  | |- logs _ (exit _) => apply logs_exit
  | |- logs _ (read _) => apply logs_read
  | |- logs _ (lift _) => apply logs_lift
  | |- logs _ (when _ _) => apply logs_when
  | |- logs _ (modify _) => apply logs_modify; side
  | |- logs _ (emit _) => apply logs_emit; side
  | |- logs _ now => apply logs_now
  | |- logs _ nextConfirm => apply logs_nextConfirm
  | |- logs _ (nextSelect _) => apply logs_nextSelect
  | |- logs _ (request _ _) => apply logs_request; side
  | |- logs _ (fold_right _ _ _) => apply logs_fold_right; intros
  | |- logs _ (let _ := _ in _) => cbv zeta
  | |- logs _ (if ?b then _ else _) => destruct b
  | |- logs _ (match ?x with _ => _ end) => destruct x
  | |- logs _ _ => first [progress autounfold with cli | open_named]
  end ].

Ltac logs_tac := repeat logs_step.

Ltac tracked_step :=
  first [ assumption | lazymatch goal with
  | |- tracked _ _ (bind (modify _) (fun _ => emit _)) =>
      first [ apply tracked_modify_reported; side
            | apply tracked_bind; [|intro] ]
  | |- tracked _ _ (bind _ _) => apply tracked_bind; [|intro]
  | |- tracked _ _ (try_catch _ _) => apply tracked_try_catch; [|intro]
  | |- tracked _ _ (ret _) => apply tracked_ret
  | |- tracked _ _ (throw _) => apply tracked_throw
  | |- tracked _ _ (exit _) => apply tracked_exit
  | |- tracked _ _ (read _) => apply tracked_read
  | |- tracked _ _ (lift _) => apply tracked_lift
  | |- tracked _ _ (when _ _) => apply tracked_when
  | |- tracked _ _ (modify _) => apply tracked_modify; side
  | |- tracked _ _ (emit _) => apply tracked_emit; side
  | |- tracked _ _ now => apply tracked_now; side
  | |- tracked _ _ nextConfirm => apply tracked_nextConfirm; side
  | |- tracked _ _ (nextSelect _) => apply tracked_nextSelect; side
  | |- tracked _ _ (request _ _) => apply tracked_request; side
  | |- tracked _ _ (fold_right _ _ _) => apply tracked_fold_right; intros
  | |- tracked _ _ (let _ := _ in _) => cbv zeta
  | |- tracked _ _ (if ?b then _ else _) => destruct b
  | |- tracked _ _ (match ?x with _ => _ end) => destruct x
  | |- tracked _ _ _ => first [progress autounfold with cli | open_named]
  end ].

Ltac tracked_tac := repeat tracked_step.

(** *** The capture of pull, step by step *)
Section PullBackup.
Variable R : Type.

Lemma backupIfDifferent_spec options envContent (w : World R) :
  exists w',
    backupIfDifferent options envContent w = (Done tt, w') /\
    env_file w' = env_file w /\ tracker_file w' = tracker_file w /\
    local_file w' = local_file w /\
    if pull_backs_up options (env_file w) envContent then
      exists current info,
        env_file w = Some current /\
        backup_file w'
        = Some (capture (backup_file w) (clock w (ticks w)) current) /\
        events w'
        = events w
          ++ BackupWritten (capture (backup_file w) (clock w (ticks w)) current)
             :: info /\
        forallb not_write info = true
    else w' = w.
Proof.
  unfold backupIfDifferent, pull_backs_up.
  unfold bind at 1. unfold read at 1.
  destruct (env_file w) as [current|] eqn:Ef; cbn [is_some andb].
  2:{ eexists; repeat split; try reflexivity; assumption. }
  destruct (opt_token options) eqn:Tk; cbn [negb andb].
  { eexists; repeat split; try reflexivity; assumption. }
  unfold try_catch, readEnvFile. unfold bind at 1. unfold bind at 1.
  unfold read at 1. cbn [ret]. rewrite Ef.
  destruct (negb (jstr_eqb (normalize current) (normalize envContent))
            && negb (is_empty (normalize current))) eqn:D.
  2:{ eexists; repeat split; try reflexivity; assumption. }
  unfold bind at 1. unfold now at 1. unfold bind at 1. unfold read at 1.
  cbn [backup_file set_ticks].
  destruct (backup_file w) as [existing|] eqn:Bf.
  - unfold appendBackup, writeBackup, out_info, copyEnvToBackup.
    destruct (opt_json options); cbn -[backup_separator];
      rewrite ?Bf, ?Ef; cbn -[backup_separator];
      (eexists; split; [reflexivity|]); cbn -[backup_separator];
      (split; [assumption|]); (split; [reflexivity|]);
      (split; [reflexivity|]); exists current; eexists;
      (split; [reflexivity|]); (split; [reflexivity|]);
      (split; [rewrite <- ?app_assoc; reflexivity | reflexivity]).
  - unfold appendBackup, writeBackup, out_info, copyEnvToBackup.
    destruct (opt_json options); unfold bind, read, ret, emit, modify;
      cbn -[backup_separator]; rewrite ?Ef; cbn -[backup_separator];
      (eexists; split; [reflexivity|]); cbn -[backup_separator];
      (split; [assumption|]); (split; [reflexivity|]);
      (split; [reflexivity|]); exists current; eexists;
      (split; [reflexivity|]); (split; [reflexivity|]);
      (split; [rewrite <- ?app_assoc; reflexivity | reflexivity]).
Qed.

Lemma backupIfDifferent_total options envContent :
  total (backupIfDifferent (R := R) options envContent).
Proof.
  intros w. destruct (backupIfDifferent_spec options envContent w)
    as [w' [E _]]. exists tt, w'. exact E.
Qed.

End PullBackup.

Ltac total_step :=
  first [ assumption | lazymatch goal with
  | |- total (backupIfDifferent _ _) => apply backupIfDifferent_total
  | |- total (bind _ _) => apply total_bind; [|intro]
  | |- total (try_catch _ _) => apply total_try_catch
  | |- total (ret _) => apply total_ret
  | |- total (read _) => apply total_read
  | |- total (when _ _) => apply total_when
  | |- total (modify _) => apply total_modify
  | |- total (emit _) => apply total_emit
  | |- total now => apply total_now
  | |- total (fold_right _ _ _) => apply total_fold_right; intros
  | |- total (let _ := _ in _) => cbv zeta
  | |- total (if ?b then _ else _) => destruct b
  | |- total (match ?x with _ => _ end) => destruct x
  | |- total _ => progress autounfold with cli
  end ].

Ltac total_tac := repeat total_step.

Ltac keeps_tac := apply tracked_keeps; tracked_tac.

(** *** The forced retry, step by step *)
Section ForcedRetry.
Variable R : Type.
Variable api : Api R.

Lemma forcedRetry_cases options s (w : World R) :
  (exists w', forcedRetry api options s w = (Done true, w'))
  \/ (exists o w',
        forcedRetry api options s w = (o, w') /\ o <> Done true /\
        tracker_file w' = tracker_file w).
Proof.
  assert (Keep : forall (o : Outcome bool) (w' : World R),
            o <> Done true -> tracker_file w' = tracker_file w ->
            forall x, x = (o, w') ->
            (exists w', x = (Done true, w'))
            \/ (exists o w', x = (o, w') /\ o <> Done true /\
                  tracker_file w' = tracker_file w)).
  { intros o w' N K x ->. right. exists o, w'. auto. }
  unfold forcedRetry.
  destruct (negb (opt_force options) && negb (opt_token options)).
  2:{ eapply Keep; [| |reflexivity]; [discriminate | reflexivity]. }
  unfold confirm. destruct (opt_json options) eqn:J.
  { eapply Keep; [| |reflexivity]; [discriminate | reflexivity]. }
  unfold bind, emit, modify, nextConfirm, request. cbn.
  destruct (confirms w) as [|[[|]|] rest]; cbn.
  - eapply Keep; [| |reflexivity]; [discriminate | reflexivity].
  - destruct (pushVersion api (env_id (sub_env s)) (sub_plaintext s) None
                (sub_token s) (remote w)) as [[v|e] r]; cbn.
    + left. unfold recordVersion, updateVersionInfoM, out_success, now.
      rewrite J. unfold bind, emit, modify, ret. cbn.
      eexists. reflexivity.
    + eapply Keep; [| |reflexivity]; [discriminate | reflexivity].
  - eapply Keep; [| |reflexivity]; [discriminate | reflexivity].
  - eapply Keep; [| |reflexivity]; [discriminate | reflexivity].
Qed.

Lemma forcedRetry_then options s e :
  fails_keeping (fun w : World R => tracker_file w)
    (retried <- forcedRetry api options s ;;
     if retried then ret tt else throw e).
Proof.
  intros w o w' E N.
  destruct (forcedRetry_cases options s w) as [[w1 H]|[o1 [w1 [H [H1 H2]]]]].
  - rewrite (bind_run _ H) in E. inversion E; subst.
    exfalso. apply (N tt). reflexivity.
  - unfold bind in E. rewrite H in E.
    destruct o1 as [[|]|e1|c1].
    + congruence.
    + inversion E; subst. exact H2.
    + inversion E; subst. exact H2.
    + inversion E; subst. exact H2.
Qed.

End ForcedRetry.

(** [fails_keeping]: a prefix that keeps the state, then a tail that is
    total or keeps it too. *)
Ltac fails_step :=
  lazymatch goal with
  | |- fails_keeping _ (bind (forcedRetry _ _ _) _) => apply forcedRetry_then
  | |- fails_keeping _ (bind _ _) =>
      first [ apply fails_keeping_total; solve [total_tac]
            | apply fails_keeping_keeps; solve [keeps_tac]
            | apply fails_keeping_bind; [solve [keeps_tac] | intro] ]
  | |- fails_keeping _ (try_catch _ _) =>
      apply fails_keeping_try_catch; [|intro]
  | |- fails_keeping _ (let _ := _ in _) => cbv zeta
  | |- fails_keeping _ (if ?b then _ else _) => destruct b
  | |- fails_keeping _ (match ?x with _ => _ end) => destruct x
  | |- fails_keeping _ _ =>
      first [ apply fails_keeping_keeps; solve [keeps_tac]
            | apply fails_keeping_total; solve [total_tac]
            | progress autounfold with cli ]
  end.

Ltac fails_tac := repeat fails_step.

Section CommandFacts.
Variable R : Type.
Variable api : Api R.
Variable localeCompare : jstring -> jstring -> Z.

Lemma pullFetch_logs options : logs not_write (pullFetch api options).
Proof. logs_tac. Qed.

Lemma pullFetch_keeps options :
  keeps (persisted (R := R)) (pullFetch api options).
Proof. keeps_tac. Qed.

Lemma pullWrite_logs options f :
  logs any_event (pullWrite (R := R) localeCompare options f).
Proof. logs_tac. Qed.

Lemma pullWrite_total options f :
  total (pullWrite (R := R) localeCompare options f).
Proof. total_tac. Qed.

Lemma pullCommand_fails_keeping options :
  fails_keeping (fun w => (backup_file w, tracker_file w))
    (pullCommand api localeCompare options).
Proof. fails_tac. Qed.

Lemma pushCommand_fails_keeping options :
  fails_keeping (fun w => tracker_file w)
    (pushCommand api localeCompare options).
Proof. fails_tac. Qed.

Lemma rollbackCommand_fails_keeping options :
  fails_keeping (fun w => tracker_file w)
    (rollbackCommand api localeCompare options).
Proof. fails_tac. Qed.

End CommandFacts.

Section GuardedFacts.
Variable R : Type.

Lemma guarded_request_bind {A B} (W : Event -> bool) (P : Call -> bool)
  (c : Call) (g : R -> Thrown A * R) (k : A -> M R B) :
  P c = true -> (forall b, W (Request c b) = false) ->
  (forall a, logs any_event (k a)) ->
  guarded W P (bind (request c g) k).
Proof.
  intros Hc HW Hk. apply guarded_after.
  - apply guarded_quiet. apply logs_request. intros b. rewrite HW. reflexivity.
  - apply answers_request. exact Hc.
  - exact Hk.
Qed.

Lemma no_event_without_answer W P (l : list Event) :
  follows W P l -> ~ succeeded P l ->
  forallb (fun e => negb (W e)) l = true.
Proof.
  intros F N. apply forallb_forall. intros e Hin.
  destruct (W e) eqn:We; [|reflexivity]. exfalso. apply N.
  apply in_split in Hin. destruct Hin as [pre [post ->]].
  apply (@succeeded_app_l P pre (e :: post)).
  apply (F pre e post eq_refl We).
Qed.

End GuardedFacts.

Ltac guarded_step :=
  lazymatch goal with
  | |- guarded _ _ (bind (request _ _) _) =>
      first [ apply guarded_request_bind;
              [reflexivity | intro; reflexivity | intro; solve [logs_tac]]
            | apply guarded_bind; [|intro] ]
  | |- guarded _ _ (bind _ _) =>
      first [ apply guarded_quiet; solve [logs_tac]
            | apply guarded_bind; [|intro] ]
  | |- guarded _ _ (try_catch _ _) => apply guarded_try_catch; [|intro]
  | |- guarded _ _ (let _ := _ in _) => cbv zeta
  | |- guarded _ _ (if ?b then _ else _) => destruct b
  | |- guarded _ _ (match ?x with _ => _ end) => destruct x
  | |- guarded _ _ _ =>
      first [ apply guarded_quiet; solve [logs_tac]
            | progress autounfold with cli
            | open_named ]
  end.

Ltac guarded_tac := repeat guarded_step.

Ltac answers_step :=
  lazymatch goal with
  | |- answers _ (request _ _) => apply answers_request; reflexivity
  | |- answers _ (throw _) => apply answers_throw
  | |- answers _ (exit _) => apply answers_exit
  | |- answers _ (bind _ _) =>
      first [ apply answers_bind_r; [solve [logs_tac] | intro]
            | apply answers_bind_l; [|intro; solve [logs_tac]] ]
  | |- answers _ (let _ := _ in _) => cbv zeta
  | |- answers _ (if ?b then _ else _) => destruct b
  | |- answers _ (match ?x with _ => _ end) => destruct x
  | |- answers _ _ => first [progress autounfold with cli | open_named]
  end.

Section CommandOrder.
Variable R : Type.
Variable api : Api R.
Variable localeCompare : jstring -> jstring -> Z.

Lemma pullFetch_answers options : answers is_fetch (pullFetch api options).
Proof.
  unfold pullFetch.
  apply answers_bind_r; [logs_tac | intro serviceToken].
  apply answers_bind_r; [logs_tac | intro resolved].
  apply answers_bind_r; [logs_tac | intro context].
  apply answers_bind_r; [logs_tac | intro].
  apply answers_bind_r; [logs_tac | intro envData].
  apply answers_bind_l; [|intro; logs_tac].
  destruct (nonzero (opt_version options)); apply answers_request; reflexivity.
Qed.

Lemma pullCommand_guarded options :
  guarded is_write is_fetch (pullCommand api localeCompare options).
Proof.
  unfold pullCommand, command. apply guarded_try_catch.
  - apply guarded_after.
    + apply guarded_quiet. apply pullFetch_logs.
    + apply pullFetch_answers.
    + intro f. apply pullWrite_logs.
  - intro e. apply guarded_quiet. logs_tac.
Qed.

Lemma pushCommand_guarded options :
  guarded is_tracker_write is_submit (pushCommand api localeCompare options).
Proof. guarded_tac. Qed.

Lemma rollbackCommand_guarded_backup options :
  guarded is_backup_write is_rollback
    (rollbackCommand api localeCompare options).
Proof. guarded_tac. Qed.

Lemma rollbackCommand_guarded_tracker options :
  guarded is_tracker_write is_fetch
    (rollbackCommand api localeCompare options).
Proof. guarded_tac. Qed.

Lemma rollbackCommand_tracked_backup options :
  tracked not_backup_write (fun w => backup_file w)
    (rollbackCommand api localeCompare options).
Proof. tracked_tac. Qed.

End CommandOrder.


Section TrackerFacts.

Lemma tracker_key_not_proto (org project environment : jstring) :
  jstr_eqb (tracker_key org project environment) (lit "__proto__") = false.
Proof.
  apply jstr_eqb_neq. intros E.
  assert (H : In SLASH (tracker_key org project environment)).
  { unfold tracker_key. apply in_or_app. right. left. reflexivity. }
  rewrite E in H. simpl in H.
  repeat (destruct H as [H|H]; [discriminate|]). exact H.
Qed.

Lemma updateVersionInfo_data file org project environment v timestamp :
  loadVersionTracker
    (updateVersionInfo file org project environment v timestamp)
  = obj_set (tracker_key org project environment)
      (mkTracker org project environment v timestamp)
      (loadVersionTracker file).
Proof.
  unfold updateVersionInfo, saveVersionTracker, obj_assign. simpl.
  rewrite tracker_key_not_proto. reflexivity.
Qed.

Lemma getVersionInfo_updated file org project environment v timestamp :
  getVersionInfo
    (updateVersionInfo file org project environment v timestamp)
    org project environment
  = Some (mkTracker org project environment v timestamp).
Proof.
  unfold getVersionInfo. rewrite updateVersionInfo_data.
  apply obj_get_set_same.
Qed.

End TrackerFacts.


(* ------------------------------------------------------------------ *)
Section PullFacts.
Variable R : Type.
Variable api : Api R.
Variable localeCompare : jstring -> jstring -> Z.

Lemma run_total {A X} ok (f : World R -> X) (m : M R A) (w : World R) :
  total m -> keeps f m -> logs ok m ->
  exists a w' l,
    m w = (Done a, w') /\ f w' = f w /\
    events w' = events w ++ l /\ forallb ok l = true.
Proof.
  intros T K L. destruct (T w) as [a [w' E]].
  destruct (L w) as [l [E1 E2]]. specialize (K w).
  rewrite E in K, E1. simpl in K, E1. exists a, w', l. auto.
Qed.

Lemma pullFinish_spec options f envContent (w : World R) :
  exists w' l,
    pullFinish options f envContent w = (Done tt, w') /\
    env_file w' = Some envContent /\ backup_file w' = backup_file w /\
    events w' = events w ++ l /\ forallb not_backup_write l = true.
Proof.
  assert (T : total (pullFinish (R := R) options f envContent)) by total_tac.
  assert (L : logs not_backup_write (pullFinish (R := R) options f envContent))
    by logs_tac.
  assert (K : keeps (fun w : World R => backup_file w)
                    (pullFinish options f envContent)) by keeps_tac.
  destruct (run_total w T K L) as [[] [w' [l [E [Kb [El Fl]]]]]].
  exists w', l. repeat split; auto.
  (* the working file *)
  revert E. unfold pullFinish. cbv zeta. intros E.
  unfold writeEnvFile in E.
  match type of E with
  | bind (bind (modify ?g) (fun _ => emit ?e)) ?k ?w0 = _ =>
      change (k tt (set_events (g w0) (events (g w0) ++ [e])) = (Done tt, w'))
        in E;
      assert (K2 : keeps (fun w : World R => env_file w) (k tt))
        by keeps_tac;
      specialize (K2 (set_events (g w0) (events (g w0) ++ [e])));
      cbv beta in K2, E; rewrite E in K2; exact K2
  end.
Qed.

Lemma pullWrite_spec options f (w : World R) :
  let envContent := formatEnvContent localeCompare (f_finalEnv f) in
  exists w' l,
    pullWrite localeCompare options f w = (Done tt, w') /\
    events w' = events w ++ l /\
    env_file w' = Some envContent /\
    if pull_backs_up options (env_file w) envContent then
      exists current,
        env_file w = Some current /\
        backup_file w'
        = Some (capture (backup_file w) (clock w (ticks w)) current) /\
        backups_written l = 1%nat
    else backup_file w' = backup_file w /\ backups_written l = 0%nat.
Proof.
  cbv zeta. unfold pullWrite. cbv zeta.
  set (envContent := formatEnvContent localeCompare (f_finalEnv f)).
  destruct (backupIfDifferent_spec options envContent w)
    as [w1 [E1 [_ [_ [_ Hb]]]]].
  rewrite (bind_run _ E1).
  destruct (pullFinish_spec options f envContent w1)
    as [w' [l2 [E2 [He [Kb [El Fl]]]]]].
  assert (Z2 : backups_written l2 = 0%nat).
  { unfold backups_written. clear - Fl.
    induction l2 as [|e l2 IH]; [reflexivity|]. simpl in *.
    apply andb_true_iff in Fl. destruct Fl as [F1 F2].
    unfold not_backup_write in F1. apply negb_true_iff in F1.
    rewrite F1. auto. }
  destruct (pull_backs_up options (env_file w) envContent).
  - destruct Hb as [current [info [Hc [Hbk [Hev Hinfo]]]]].
    exists w', (BackupWritten (capture (backup_file w) (clock w (ticks w)) current)
                :: info ++ l2).
    split; [exact E2|]. split.
    { rewrite El, Hev, <- app_assoc. reflexivity. }
    split; [exact He|]. exists current. split; [exact Hc|].
    split; [rewrite Kb; exact Hbk|].
    unfold backups_written in *. simpl. rewrite filter_app, length_app, Z2.
    assert (Z1 : List.length (filter is_backup_write info) = 0%nat).
    { clear - Hinfo. induction info as [|e info IH]; [reflexivity|]. simpl in *.
      apply andb_true_iff in Hinfo. destruct Hinfo as [F1 F2].
      unfold not_write, is_write in F1. apply negb_true_iff in F1.
      apply orb_false_iff in F1. destruct F1 as [F1 _]. rewrite F1. auto. }
    rewrite Z1. reflexivity.
  - subst w1. exists w', l2. repeat split; auto.
Qed.

Lemma pull_backs_up_same options content :
  pull_backs_up options (Some content) content = false.
Proof.
  unfold pull_backs_up. rewrite jstr_eqb_refl. simpl.
  apply andb_false_r.
Qed.

Lemma command_done {A} options fallback unauthorized (body : M R unit)
  (w w' : World R) (a : A) :
  body w = (Done tt, w') ->
  command options fallback unauthorized body w = (Done tt, w').
Proof. unfold command, try_catch. intros ->. reflexivity. Qed.

Lemma command_not_done options fallback unauthorized (body : M R unit)
  (w : World R) :
  (forall w', body w <> (Done tt, w')) ->
  forall w', command options fallback unauthorized body w <> (Done tt, w').
Proof.
  unfold command, try_catch. intros H w'.
  destruct (body w) as [[[]|e|c] w1] eqn:E.
  - exfalso. apply (H w1). reflexivity.
  - unfold report_error, bind.
    destruct ((if opt_json options
               then out_json [("error"%string, JCode (err_code e) fallback);
                              ("message"%string, JString (err_message e))]
               else if unauthorized && has_code e "PERMISSION_DENIED"
                    then out_error options
                           [Text "Unauthorized: "; Str (err_message e)]
                    else out_error options [Str (err_message e)]) w1)
      as [[[]|e'|c'] w2]; discriminate.
  - discriminate.
Qed.

End PullFacts.

Section PullCommandFacts.
Variable R : Type.
Variable api : Api R.
Variable localeCompare : jstring -> jstring -> Z.

Lemma backups_written_none ok (l : list Event) :
  (forall e, ok e = true -> is_backup_write e = false) ->
  forallb ok l = true -> backups_written l = 0%nat.
Proof.
  intros H F. unfold backups_written.
  induction l as [|e l IH]; [reflexivity|]. simpl in *.
  apply andb_true_iff in F. destruct F as [F1 F2].
  rewrite (H e F1). auto.
Qed.

Lemma pullCommand_backup options (w : World R) o w' :
  pullCommand api localeCompare options w = (o, w') ->
  (o <> Done tt /\ backup_file w' = backup_file w
   /\ forall f w1, pullFetch api options w <> (Done f, w1))
  \/ (exists f w1 l,
       let envContent := formatEnvContent localeCompare (f_finalEnv f) in
       pullFetch api options w = (Done f, w1) /\
       o = Done tt /\ events w' = events w ++ l /\
       env_file w' = Some envContent /\
       if pull_backs_up options (env_file w) envContent then
         exists current,
           env_file w = Some current /\
           backup_file w'
           = Some (capture (backup_file w) (clock w (ticks w)) current) /\
           backups_written l = 1%nat
       else backup_file w' = backup_file w /\ backups_written l = 0%nat).
Proof.
  intros E. unfold pullCommand in E.
  destruct (pullFetch api options w) as [[f|e|c] w1] eqn:Ef.
  - right.
    pose proof (pullFetch_keeps api options w) as K. rewrite Ef in K.
    simpl in K. unfold persisted in K. injection K as K1 K2 K3 K4 K5 K6.
    destruct (pullFetch_logs api options w) as [l1 [L1 F1]].
    rewrite Ef in L1. simpl in L1.
    destruct (pullWrite_spec localeCompare options f w1)
      as [w2 [l2 [E2 [L2 [He Hb]]]]].
    unfold command, try_catch in E. rewrite (bind_run _ Ef), E2 in E.
    inversion E; subst o w'.
    exists f, w1, (l1 ++ l2). cbv zeta.
    split; [reflexivity|].
    split; [reflexivity|]. split; [rewrite L2, L1, app_assoc; reflexivity|].
    split; [exact He|].
    assert (Z1 : backups_written l1 = 0%nat).
    { apply (backups_written_none not_write); [|exact F1].
      intros e H. unfold not_write, is_write in H.
      apply negb_true_iff, orb_false_iff in H. tauto. }
    assert (Zs : backups_written (l1 ++ l2) = backups_written l2).
    { unfold backups_written in *. rewrite filter_app, length_app, Z1.
      reflexivity. }
    rewrite K1, K2, K5, K6 in Hb. rewrite Zs. exact Hb.
  - left.
    assert (N : o <> Done tt).
    { intros ->. revert E. apply command_not_done.
      intros w2. rewrite (bind_raised _ Ef). discriminate. }
    split; [exact N|].
    assert (U : forall a : unit, o <> Done a) by (intros []; exact N).
    pose proof (pullCommand_fails_keeping api localeCompare options w E U) as K.
    simpl in K. inversion K. split; [reflexivity | discriminate].
  - left.
    assert (N : o <> Done tt).
    { intros ->. revert E. apply command_not_done.
      intros w2. rewrite (bind_exited _ Ef). discriminate. }
    split; [exact N|].
    assert (U : forall a : unit, o <> Done a) by (intros []; exact N).
    pose proof (pullCommand_fails_keeping api localeCompare options w E U) as K.
    simpl in K. inversion K. split; [reflexivity | discriminate].
Qed.

End PullCommandFacts.

(** C5: pull captures the working file exactly when the file is there,
    the command does not run on a service token, and the file, with
    line endings normalised and trimmed, is neither empty nor equal to
    the new content normalised alike.  A capture is one write of the
    backup: a copy of the old content when no backup was there, else
    the old backup, a separator with the time, and the old content.
    The new content goes to the working file, and a pull that follows
    and computes the content the working file then holds captures
    nothing. *)
Theorem pull_backup_when_different
  (R : Type) (api : Api R) (localeCompare : jstring -> jstring -> Z)
  (options : CLIOptions) (w : World R) (o : Outcome unit) (w' : World R) :
  pullCommand api localeCompare options w = (o, w') ->
  ((o <> Done tt /\ backup_file w' = backup_file w)
   \/ (exists f w1 l,
        let envContent := formatEnvContent localeCompare (f_finalEnv f) in
        pullFetch api options w = (Done f, w1) /\
        o = Done tt /\ events w' = events w ++ l /\
        env_file w' = Some envContent /\
        if pull_backs_up options (env_file w) envContent then
          exists current,
            env_file w = Some current /\
            backup_file w'
            = Some (capture (backup_file w) (clock w (ticks w)) current) /\
            backups_written l = 1%nat
        else backup_file w' = backup_file w /\ backups_written l = 0%nat))
  /\ (forall backup timestamp current,
        capture None timestamp current = current /\
        capture (Some backup) timestamp current
        = backup ++ backup_separator timestamp ++ current)
  /\ (forall options2 o2 w2,
        o = Done tt ->
        pullCommand api localeCompare options2 w' = (o2, w2) ->
        (forall f2 w3, pullFetch api options2 w' = (Done f2, w3) ->
           Some (formatEnvContent localeCompare (f_finalEnv f2)) = env_file w') ->
        backup_file w2 = backup_file w').
Proof.
  intros E. split; [|split].
  - destruct (pullCommand_backup api localeCompare options w E)
      as [[N [K _]]|H]; [left; auto | right; exact H].
  - intros; split; reflexivity.
  - intros options2 o2 w2 D E2 Same.
    destruct (pullCommand_backup api localeCompare options2 w' E2)
      as [[_ [K _]]|[f2 [w3 [l [Ef [_ [_ [_ Hb]]]]]]]]; [exact K|].
    cbv zeta in Hb. rewrite <- (Same f2 w3 Ef) in Hb.
    rewrite pull_backs_up_same in Hb. tauto.
Qed.

Lemma pull_backup_when_different_witness :
  backup_file
    (snd (pullCommand Remote.api asciiCollate Scenes.options
            (snd (pullCommand Remote.api asciiCollate Scenes.options
                    Scenes.old_env))))
  = backup_file
      (snd (pullCommand Remote.api asciiCollate Scenes.options
              Scenes.old_env)).
Proof.
  refine (proj2 (proj2 (@pull_backup_when_different _ Remote.api asciiCollate
            Scenes.options Scenes.old_env (Done tt) _ _))
          Scenes.options _ _ eq_refl _ _).
  - vm_compute. reflexivity.
  - apply surjective_pairing.
  - intros f2 w3 H. vm_compute in H. inversion H. vm_compute. reflexivity.
Defined.

(** Counterexample to C5 as stated: a working file of blanks differs from the
    new content and is not captured; a first capture holds the old
    content alone, with no separator and not the new content. *)
Lemma pull_backup_not_iff_different :
  jstr_eqb (replace_crlf (lit "   " ++ [LF])) (replace_crlf (lit "A=7" ++ [LF]))
  = false
  /\ fst (pullCommand Remote.api asciiCollate Scenes.options Scenes.blank_env)
     = Done tt
  /\ env_file (snd (pullCommand Remote.api asciiCollate Scenes.options
                      Scenes.blank_env))
     = Some (lit "A=7" ++ [LF])
  /\ backup_file (snd (pullCommand Remote.api asciiCollate Scenes.options
                         Scenes.blank_env))
     = None
  /\ backup_file (snd (pullCommand Remote.api asciiCollate Scenes.options
                         Scenes.old_env))
     = Some (lit "OLD=1" ++ [LF]).
Proof. vm_compute. repeat split. Qed.






(** C9 on the code: print shows the value of the working file and marks
    the key; the value of the override is not shown. *)
Lemma print_shows_working_file_value :
  getLocalOverrides (local_file Scenes.overridden)
  = Ret [(lit "A", lit "2")]
  /\ printCommand asciiCollate Scenes.raw_options Scenes.overridden
     = (Done tt,
        set_events Scenes.overridden
          [Telemetry "cli.print";
           Info [Text "Environment variables ("; Num 1; Text " keys):";
                 Str [LF]];
           ConsoleLog [Cyan (lit "A"); Text "="; Str (lit "1");
                       Text " (override)"]])
  /\ events (snd (printCommand asciiCollate Scenes.json_options
                    Scenes.overridden))
     = [Telemetry "cli.print";
        JsonOut [("keys"%string, JEnv [(lit "A", lit "1")]);
                 ("count"%string, JNumber 1);
                 ("overrides"%string, JKeys [lit "A"])]].
Proof. vm_compute. repeat split. Qed.

(* ================================================================== *)
(** * Part III: further behaviours of the sources *)
(* ================================================================== *)

(** ** More on strings *)
Section MoreStringFacts.

Lemma In_trimStart (c : code_unit) (s : jstring) :
  In c (trimStart s) -> In c s.
Proof.
  destruct (trimStart_suffix s) as [p E]. intros H.
  rewrite E. apply in_or_app. right. exact H.
Qed.

Lemma trimEnd_prefix (s : jstring) : exists q, s = trimEnd s ++ q.
Proof.
  unfold trimEnd. destruct (trimStart_suffix (rev s)) as [p E].
  exists (rev p). rewrite <- rev_app_distr, <- E. symmetry. apply rev_involutive.
Qed.

Lemma In_trimEnd (c : code_unit) (s : jstring) : In c (trimEnd s) -> In c s.
Proof.
  destruct (trimEnd_prefix s) as [q E]. intros H.
  rewrite E. apply in_or_app. left. exact H.
Qed.

Lemma In_trim (c : code_unit) (s : jstring) : In c (trim s) -> In c s.
Proof. intros H. apply In_trimStart, In_trimEnd. exact H. Qed.

Lemma trimEnd_last (s : jstring) :
  match rev (trimEnd s) with [] => True | c :: _ => is_ws c = false end.
Proof. unfold trimEnd. rewrite rev_involutive. apply trimStart_head. Qed.

(** Trimming the end keeps a first code unit that is no white space. *)
Lemma trimEnd_head (c : code_unit) (s : jstring) :
  is_ws c = false -> exists t, trimEnd (c :: s) = c :: t.
Proof.
  intros W. destruct (trimEnd_prefix (c :: s)) as [q E].
  destruct (trimEnd (c :: s)) as [|d t] eqn:T.
  - exfalso. unfold trimEnd in T.
    apply (f_equal (@rev _)) in T. rewrite rev_involutive in T. simpl in T.
    pose proof (trimStart_suffix (rev s ++ [c])) as [p P].
    simpl in P. rewrite T in P. rewrite app_nil_r in P.
    (* the whole reversed string would be white space *)
    assert (A : forall u, trimStart u = [] -> forall x, In x u -> is_ws x = true).
    { induction u as [|y u IH]; simpl; [contradiction|].
      destruct (is_ws y) eqn:Y; [|discriminate].
      intros Hu x [<-|Hx]; [exact Y | apply IH; assumption]. }
    assert (Hc : is_ws c = true).
    { apply (A (rev s ++ [c]) T). apply in_or_app. right. left. reflexivity. }
    congruence.
  - simpl in E. injection E as <- _. exists t. reflexivity.
Qed.

Lemma trim_edges_clean (s : jstring) : edges_clean (trim s).
Proof.
  unfold trim. split; [|apply trimEnd_last].
  pose proof (trimStart_head s) as H.
  destruct (trimStart s) as [|c t]; [exact I|].
  destruct (@trimEnd_head c t H) as [u ->]. exact H.
Qed.

Lemma trim_idem (s : jstring) : trim (trim s) = trim s.
Proof. apply trim_id, trim_edges_clean. Qed.

Lemma In_first_n {A} (x : A) (n : nat) (l : list A) :
  In x (firstn n l) -> In x l.
Proof.
  intros H. rewrite <- (firstn_skipn n l). apply in_or_app. left. exact H.
Qed.

Lemma In_skip_n {A} (x : A) (n : nat) (l : list A) :
  In x (skipn n l) -> In x l.
Proof.
  intros H. rewrite <- (firstn_skipn n l). apply in_or_app. right. exact H.
Qed.

Lemma In_substring (c : code_unit) (s : jstring) (a b : Z) :
  In c (substring s a b) -> In c s.
Proof.
  unfold substring. intros H.
  apply In_first_n in H. apply In_skip_n in H. exact H.
Qed.

Lemma split_pieces_no_sep (sep : code_unit) (s : jstring) :
  forall l, In l (split sep s) -> ~ In sep l.
Proof.
  induction s as [|c s IH]; simpl.
  - intros l [<-|[]]. intros [].
  - destruct (N.eqb_spec c sep) as [->|ne].
    + intros l [<-|H]; [intros [] | apply IH; exact H].
    + destruct (split sep s) as [|l0 ls] eqn:E.
      * intros l [<-|[]]. intros [H|[]]. congruence.
      * intros l [<-|H].
        -- intros [H|H]; [congruence|]. apply (IH l0); [left; reflexivity|exact H].
        -- apply IH. right. exact H.
Qed.

Lemma indexOf_bound (c : code_unit) (s : jstring) :
  (indexOf c s < len s)%Z.
Proof.
  unfold len. induction s as [|x s IH]; simpl List.length; simpl indexOf; [lia|].
  destruct (x =? c)%N; [lia|].
  destruct (indexOf c s =? -1)%Z; lia.
Qed.

(** Before the position [indexOf] gives there is no occurrence. *)
Lemma indexOf_prefix_free (c : code_unit) (s : jstring) :
  ~ In c (firstn (Z.to_nat (indexOf c s)) s).
Proof.
  induction s as [|x s IH]; simpl; [intros []|].
  destruct (N.eqb_spec x c) as [->|ne]; [simpl; intros []|].
  destruct (Z.eqb_spec (indexOf c s) (-1)) as [E|E]; [simpl; intros []|].
  destruct (indexOf_nonneg_or_absent c s) as [A|A]; [congruence|].
  replace (Z.to_nat (indexOf c s + 1)) with (S (Z.to_nat (indexOf c s))) by lia.
  simpl. intros [H|H]; [congruence | exact (IH H)].
Qed.

Lemma substring_0 (s : jstring) (n : Z) :
  (0 <= n <= len s)%Z -> substring s 0 n = firstn (Z.to_nat n) s.
Proof.
  intros H. unfold substring, clamp.
  replace (Z.max 0 (Z.min 0 (len s))) with 0%Z by (unfold len in *; lia).
  replace (Z.max 0 (Z.min n (len s))) with n by lia.
  replace (Z.min 0 n) with 0%Z by lia. replace (Z.max 0 n) with n by lia.
  simpl. rewrite Z.sub_0_r. reflexivity.
Qed.

End MoreStringFacts.

(** ** What the parser leaves *)
Section ParserFacts.

Lemma In_obj_replace {V} (k k' : jstring) (v v' : V) (o : Record V) :
  In (k', v') (obj_replace k v o) -> (k', v') = (k, v) \/ In (k', v') o.
Proof.
  induction o as [|[k0 v0] o IH]; simpl; [tauto|].
  destruct (jstr_eqb k0 k) eqn:E.
  - apply jstr_eqb_eq in E. subst k0. simpl. intros [H|H]; auto.
  - simpl. intros [H|H]; auto. destruct (IH H); auto.
Qed.

Lemma In_obj_set {V} (k k' : jstring) (v v' : V) (o : Record V) :
  In (k', v') (obj_set k v o) -> (k', v') = (k, v) \/ In (k', v') o.
Proof.
  unfold obj_set. destruct (has_key o k).
  - apply In_obj_replace.
  - destruct (array_index k) as [i|].
    + intros H.
      apply (Permutation_in _ (obj_insert_index_perm i k v o)) in H.
      destruct H as [H|H]; auto.
    + intros H. apply in_app_or in H. destruct H as [H|[H|[]]]; auto.
Qed.

Lemma In_unquote (c : code_unit) (v : jstring) :
  In c (unquote v) -> In c v.
Proof.
  unfold unquote.
  destruct ((startsWith v [DQUOTE] && endsWith v [DQUOTE])
            || (startsWith v [SQUOTE] && endsWith v [SQUOTE]));
    [apply In_substring | tauto].
Qed.

(** One line either leaves the mapping as it is or defines one
    property, whose key has the shape [parsed_key] and whose value is
    made of code units of the line. *)
Lemma parse_line_cases (result : EnvMapping) (line : jstring) :
  ~ In LF line ->
  parse_line result line = result
  \/ exists k v,
       parsed_key k /\ (forall c, In c v -> In c line)
       /\ parse_line result line = obj_set k v result.
Proof.
  intros NL. unfold parse_line. cbv zeta.
  pose proof (trim_edges_clean line) as [Hd _].
  destruct (trim line) as [|c t] eqn:T; [left; reflexivity|].
  cbn [is_empty orb]. rewrite startsWith_cons.
  destruct (N.eqb_spec c HASH) as [->|NH]; [left; reflexivity|].
  set (trimmed := c :: t) in *.
  destruct (Z.eqb_spec (indexOf EQUALS trimmed) (-1)) as [A|A];
    [left; reflexivity|].
  unfold obj_assign.
  destruct (jstr_eqb _ (lit "__proto__")) eqn:P; [left; reflexivity|].
  right. eexists _, _. split; [|split; [|reflexivity]].
  - assert (B : (0 <= indexOf EQUALS trimmed <= len trimmed)%Z).
    { destruct (indexOf_nonneg_or_absent EQUALS trimmed) as [F|F];
        [congruence|]. pose proof (indexOf_bound EQUALS trimmed). lia. }
    rewrite (substring_0 trimmed B) in *.
    unfold parsed_key. repeat split.
    + apply trim_idem.
    + intros H. apply In_trim in H.
      exact (indexOf_prefix_free EQUALS trimmed H).
    + intros H. apply In_trim, In_first_n in H.
      apply NL. apply In_trim. rewrite T. exact H.
    + destruct (Z.to_nat (indexOf EQUALS trimmed)) as [|n]; [reflexivity|].
      unfold trimmed. cbn [firstn]. unfold trim. cbn [trimStart].
      rewrite Hd. destruct (@trimEnd_head c (firstn n t) Hd) as [u ->].
      rewrite startsWith_cons. apply N.eqb_neq. exact NH.
    + apply jstr_eqb_neq. exact P.
  - intros x H. apply In_unquote, In_trim in H.
    unfold substring_from in H. apply In_substring in H.
    apply In_trim. rewrite T. exact H.
Qed.

Lemma parse_lines_invariant (lines : list jstring) (acc : EnvMapping) :
  (forall l, In l lines -> ~ In LF l) ->
  parsed_mapping acc -> parsed_mapping (fold_left parse_line lines acc).
Proof.
  revert acc. induction lines as [|l lines IH]; simpl; intros acc NL P;
    [exact P|].
  apply IH; [intros; apply NL; auto|].
  destruct (@parse_line_cases acc l (NL l (or_introl eq_refl)))
    as [->|[k [v [K [Vl ->]]]]]; [exact P|].
  destruct P as [W P]. split; [apply wf_obj_set; exact W|].
  intros k' v' H. apply In_obj_set in H. destruct H as [H|H]; [|auto].
  injection H as -> ->. split; [exact K|].
  intros F. apply (NL l (or_introl eq_refl)). apply Vl. exact F.
Qed.

End ParserFacts.

(** X1: whatever the text, the mapping [parseEnvContent]
    returns has no two entries of one key; every key is trimmed, holds
    no [=] and no newline, does not start with [#] and is not
    [__proto__]; no value holds a newline. *)
Theorem parseEnvContent_shape (content : jstring) :
  wf_obj (parseEnvContent content)
  /\ forall k v, In (k, v) (parseEnvContent content) ->
       parsed_key k /\ ~ In LF v.
Proof.
  apply parse_lines_invariant.
  - apply split_pieces_no_sep.
  - split; [constructor | intros k v []].
Qed.

(** ** Line endings *)
Section LineEndings.

Lemma trimEnd_snoc_ws (u : jstring) (w : code_unit) :
  is_ws w = true -> trimEnd (u ++ [w]) = trimEnd u.
Proof.
  intros W. unfold trimEnd. rewrite rev_app_distr. simpl. rewrite W.
  reflexivity.
Qed.

Lemma trim_snoc_ws (l : jstring) (w : code_unit) :
  is_ws w = true -> trim (l ++ [w]) = trim l.
Proof.
  intros W. unfold trim. induction l as [|x l IH]; simpl.
  - rewrite W. reflexivity.
  - destruct (is_ws x); [exact IH|].
    apply (trimEnd_snoc_ws (x :: l) w W).
Qed.

Lemma same_but_cr_trim (l l' : jstring) :
  same_but_cr l l' -> trim l' = trim l.
Proof.
  intros [->| ->]; [reflexivity|]. apply trim_snoc_ws. reflexivity.
Qed.

Lemma same_but_cr_cons (c : code_unit) (l l' : jstring) :
  same_but_cr l l' -> same_but_cr (c :: l) (c :: l').
Proof. intros [->| ->]; [left | right]; reflexivity. Qed.

Lemma split_nonempty (sep : code_unit) (s : jstring) : split sep s <> [].
Proof.
  destruct s as [|c s]; simpl; [discriminate|].
  destruct (c =? sep)%N; [discriminate|].
  destruct (split sep s); discriminate.
Qed.

Lemma split_cons_other (sep c : code_unit) (s : jstring) :
  c <> sep ->
  exists l ls, split sep s = l :: ls /\ split sep (c :: s) = (c :: l) :: ls.
Proof.
  intros N. simpl. apply N.eqb_neq in N. rewrite N.
  destruct (split sep s) as [|l ls] eqn:E;
    [exfalso; exact (split_nonempty sep s E)|].
  exists l, ls. split; reflexivity.
Qed.

Lemma replace_crlf_cons (c d : code_unit) (s : jstring) :
  replace_crlf (c :: d :: s)
  = if (c =? CR)%N && (d =? LF)%N then LF :: replace_crlf s
    else c :: replace_crlf (d :: s).
Proof. reflexivity. Qed.

Lemma split_replace_crlf (n : nat) (s : jstring) :
  (List.length s < n)%nat ->
  Forall2 same_but_cr (split LF (replace_crlf s)) (split LF s).
Proof.
  revert s. induction n as [|n IH]; intros s L; [lia|].
  destruct s as [|c [|d s]].
  - simpl. repeat constructor.
  - simpl. destruct (c =? LF)%N; repeat constructor.
  - rewrite replace_crlf_cons.
    destruct ((c =? CR)%N && (d =? LF)%N) eqn:E.
    + apply andb_true_iff in E. destruct E as [Ec Ed].
      apply N.eqb_eq in Ec, Ed. subst c d.
      change (split LF (LF :: replace_crlf s))
        with ([] :: split LF (replace_crlf s)).
      change (split LF (CR :: LF :: s)) with ([CR] :: split LF s).
      constructor; [right; reflexivity|].
      apply IH. simpl in L. lia.
    + assert (H : Forall2 same_but_cr (split LF (replace_crlf (d :: s)))
                                      (split LF (d :: s))).
      { apply IH. simpl in L |- *. lia. }
      destruct (N.eqb_spec c LF) as [->|NE].
      * change (split LF (LF :: replace_crlf (d :: s)))
          with ([] :: split LF (replace_crlf (d :: s))).
        change (split LF (LF :: d :: s)) with ([] :: split LF (d :: s)).
        constructor; [left; reflexivity | exact H].
      * destruct (@split_cons_other LF c (replace_crlf (d :: s)) NE)
          as [l [ls [E1 ->]]].
        destruct (@split_cons_other LF c (d :: s) NE) as [l' [ls' [E2 ->]]].
        rewrite E1, E2 in H. inversion H; subst.
        constructor; [apply same_but_cr_cons|]; assumption.
Qed.

Lemma parse_line_trim (acc : EnvMapping) (l l' : jstring) :
  trim l = trim l' -> parse_line acc l = parse_line acc l'.
Proof. unfold parse_line. intros ->. reflexivity. Qed.

Lemma parse_lines_same_but_cr (ls ls' : list jstring) :
  Forall2 same_but_cr ls ls' ->
  forall acc, fold_left parse_line ls acc = fold_left parse_line ls' acc.
Proof.
  induction 1 as [|l l' ls ls' H _ IH]; intros acc; [reflexivity|].
  simpl. rewrite (@parse_line_trim acc l l') by
    (symmetry; apply same_but_cr_trim; exact H).
  apply IH.
Qed.

End LineEndings.

(** X2: a text with Windows line endings parses to the
    mapping its Unix form parses to. *)
Theorem parseEnvContent_crlf (content : jstring) :
  parseEnvContent (replace_crlf content) = parseEnvContent content.
Proof.
  unfold parseEnvContent. apply parse_lines_same_but_cr.
  apply (@split_replace_crlf (S (List.length content))). lia.
Qed.

(** ** Texts read line by line *)
Section AppendedLines.

Lemma split_app (sep : code_unit) (s t : jstring) :
  split sep (s ++ sep :: t) = split sep s ++ split sep t.
Proof.
  induction s as [|c s IH].
  - simpl. rewrite N.eqb_refl. reflexivity.
  - change ((c :: s) ++ sep :: t) with (c :: (s ++ sep :: t)).
    destruct (N.eqb_spec c sep) as [->|NE].
    + simpl. rewrite N.eqb_refl, IH. reflexivity.
    + destruct (@split_cons_other sep c (s ++ sep :: t) NE)
        as [l [ls [E ->]]].
      destruct (@split_cons_other sep c s NE) as [l' [ls' [E' ->]]].
      rewrite IH, E' in E. simpl in E. injection E as <- <-. reflexivity.
Qed.

Lemma parseEnvContent_snoc (content line : jstring) :
  ~ In LF line ->
  parseEnvContent (content ++ [LF] ++ line)
  = parse_line (parseEnvContent content) line.
Proof.
  intros NL. unfold parseEnvContent. simpl app.
  rewrite split_app, (split_no_sep line LF NL), fold_left_app. reflexivity.
Qed.

Lemma parse_line_comment (acc : EnvMapping) (comment : jstring) :
  parse_line acc (HASH :: comment) = acc.
Proof.
  unfold parse_line. cbv zeta.
  assert (H : exists t, trim (HASH :: comment) = HASH :: t).
  { unfold trim. cbn [trimStart].
    change (is_ws HASH) with false. cbv iota.
    apply trimEnd_head. reflexivity. }
  destruct H as [t ->]. cbn [is_empty orb]. rewrite startsWith_cons.
  reflexivity.
Qed.

End AppendedLines.

(** X3: a line [KEY=VALUE] added at the end of a text
    decides the value of its key and leaves the other keys as the text
    had them; a comment line added at the end changes nothing. *)
Theorem parseEnvContent_last_line_wins (content k v : jstring) :
  roundtrip_key k -> roundtrip_value v ->
  let text := content ++ [LF] ++ format_entry (k, v) in
  obj_get (parseEnvContent text) k = Some v
  /\ (forall k', k' <> k ->
        obj_get (parseEnvContent text) k' = obj_get (parseEnvContent content) k')
  /\ (forall comment, ~ In LF comment ->
        parseEnvContent (content ++ [LF] ++ HASH :: comment)
        = parseEnvContent content).
Proof.
  intros K V text.
  assert (E : parseEnvContent text = obj_set k v (parseEnvContent content)).
  { unfold text. rewrite parseEnvContent_snoc.
    - apply parse_line_format_entry; assumption.
    - destruct K as (_ & _ & K1 & _), V as (V1 & _).
      apply format_entry_no_newline; assumption. }
  rewrite E. split; [apply obj_get_set_same|]. split.
  - intros k' NE. apply obj_get_set_other. congruence.
  - intros comment NL. rewrite parseEnvContent_snoc.
    + apply parse_line_comment.
    + intros [H|H]; [discriminate | exact (NL H)].
Qed.

Lemma parseEnvContent_last_line_wins_witness :
  obj_get (parseEnvContent (lit "A=1" ++ [LF] ++ lit "A=2")) (lit "A")
  = Some (lit "2").
Proof.
  refine (proj1 (@parseEnvContent_last_line_wins (lit "A=1") (lit "A")
                   (lit "2") _ _)).
  - unfold roundtrip_key. repeat split; try discriminate; try reflexivity;
      simpl; intuition discriminate.
  - unfold roundtrip_value. repeat split; try reflexivity.
    simpl; intuition discriminate.
Defined.

(** ** The codec of [Output] *)

(** X4: the parser kept on [Output] reads every text as
    the parser of env/file-ops.ts does, and it reads the unsorted
    serialisation of a mapping back to that mapping, on the mappings
    whose keys and values pass through the text format unchanged. *)
Theorem Output_codec_roundtrip (m : EnvMapping) :
  wf_obj m ->
  (forall k v, In (k, v) m -> roundtrip_key k /\ roundtrip_value v) ->
  (forall text, Formatter.parseEnvContent text = parseEnvContent text)
  /\ forall k,
       obj_get (Formatter.parseEnvContent (Formatter.formatEnvContent m)) k
       = obj_get m k.
Proof.
  intros W H. split; [reflexivity|]. intros k.
  change (Formatter.parseEnvContent (Formatter.formatEnvContent m))
    with (parseEnvContent (join [LF] (map format_entry m) ++ [LF])).
  rewrite (parse_format_entries m H).
  rewrite obj_get_set_all by exact W.
  destruct (obj_get m k); reflexivity.
Qed.

Lemma Output_codec_roundtrip_witness :
  obj_get (Formatter.parseEnvContent
             (Formatter.formatEnvContent Scenes.spaced_value))
          (lit "a")
  = obj_get Scenes.spaced_value (lit "a").
Proof.
  refine (proj2 (@Output_codec_roundtrip Scenes.spaced_value _ _) (lit "a")).
  - repeat constructor; simpl; intuition discriminate.
  - intros k v [H|[H|[]]]; inversion H; subst; split;
      try decide_key;
      unfold roundtrip_value; repeat split;
      try reflexivity; try discriminate;
      try (simpl; intuition discriminate).
Defined.

(** ** One serialisation per mapping *)
Section Canonical.
Variable cmp : jstring -> jstring -> Z.
Hypothesis cmp_orders : orders_keys cmp.

Lemma same_key_same_entry (l : EnvMapping) (k v v' : jstring) :
  wf_obj l -> In (k, v) l -> In (k, v') l -> v = v'.
Proof.
  intros W H H'.
  apply (@in_obj_get _ l k v W) in H. apply (@in_obj_get _ l k v' W) in H'.
  congruence.
Qed.

Lemma sorted_entries_unique (l l' : EnvMapping) :
  StronglySorted (ordered (compare_keys cmp)) l ->
  StronglySorted (ordered (compare_keys cmp)) l' ->
  Permutation l l' -> wf_obj l -> l = l'.
Proof.
  destruct cmp_orders as [anti _].
  revert l'. induction l as [|x l IH]; intros l' S S' P W.
  - apply Permutation_nil in P. congruence.
  - destruct l' as [|y l'];
      [apply Permutation_sym, Permutation_nil in P; discriminate|].
    assert (E : x = y).
    { assert (Hx : In x (y :: l')) by
        (apply (Permutation_in _ P); left; reflexivity).
      assert (Hy : In y (x :: l)) by
        (apply (Permutation_in _ (Permutation_sym P)); left; reflexivity).
      destruct Hx as [->|Hx]; [reflexivity|].
      destruct Hy as [->|Hy]; [reflexivity|].
      inversion S as [|? ? _ Fx]; subst. inversion S' as [|? ? _ Fy]; subst.
      rewrite Forall_forall in Fx, Fy.
      assert (K : fst x = fst y) by
        (apply anti; [apply Fx; exact Hy | apply Fy; exact Hx]).
      destruct x as [k v], y as [k' v']. simpl in K. subst k'.
      f_equal. apply (@same_key_same_entry ((k, v) :: l) k v v' W);
        [left; reflexivity | right; exact Hy]. }
    subst y. f_equal.
    inversion S; subst. inversion S'; subst.
    apply IH; try assumption.
    + exact (Permutation_cons_inv P).
    + unfold wf_obj, keys in *. simpl in W. inversion W. assumption.
Qed.

Lemma sort_strongly_sorted (l : EnvMapping) :
  StronglySorted (ordered (compare_keys cmp)) (sort (compare_keys cmp) l).
Proof.
  destruct cmp_orders as (_ & trans & total).
  apply Sorted_StronglySorted.
  - intros a b c. unfold ordered, compare_keys. apply trans.
  - apply (@sort_sorted _ (compare_keys cmp)).
    intros a b. apply total.
Qed.

Lemma sort_canonical (l l' : EnvMapping) :
  wf_obj l -> Permutation l l' ->
  sort (compare_keys cmp) l = sort (compare_keys cmp) l'.
Proof.
  intros W P. apply sorted_entries_unique; try apply sort_strongly_sorted.
  - rewrite sort_perm, P. symmetry. apply sort_perm.
  - unfold wf_obj, keys in *.
    apply (Permutation_NoDup (l := map fst l)); [|exact W].
    apply Permutation_map. symmetry. apply sort_perm.
Qed.

End Canonical.

Section OrdinalOrder.

Lemma ordinalCompare_eq (a b : jstring) : ordinalCompare a b = 0%Z -> a = b.
Proof.
  revert b. induction a as [|x a IH]; intros [|y b]; simpl;
    try discriminate; [reflexivity|].
  destruct (N.ltb_spec x y); [discriminate|].
  destruct (N.ltb_spec y x); [discriminate|].
  intros E. f_equal; [lia | apply IH; exact E].
Qed.

Lemma ordinalCompare_range (a b : jstring) :
  ordinalCompare a b = (-1)%Z \/ ordinalCompare a b = 0%Z
  \/ ordinalCompare a b = 1%Z.
Proof.
  revert b. induction a as [|x a IH]; intros [|y b]; simpl; auto.
  destruct (x <? y)%N; auto. destruct (y <? x)%N; auto.
Qed.

Lemma ordinalCompare_trans (a b c : jstring) :
  (ordinalCompare a b <= 0)%Z -> (ordinalCompare b c <= 0)%Z ->
  (ordinalCompare a c <= 0)%Z.
Proof.
  revert b c. induction a as [|x a IH]; intros [|y b] [|z c]; simpl;
    try lia.
  destruct (N.ltb_spec x y), (N.ltb_spec y z), (N.ltb_spec x z);
    try lia;
    destruct (N.ltb_spec y x), (N.ltb_spec z y), (N.ltb_spec z x);
    try lia.
  apply IH.
Qed.

Lemma ordinalCompare_orders : orders_keys ordinalCompare.
Proof.
  split; [|split].
  - intros a b H1 H2. apply ordinalCompare_eq.
    rewrite (ordinalCompare_flip a b) in H2. lia.
  - apply ordinalCompare_trans.
  - intros a b. rewrite (ordinalCompare_flip a b). lia.
Qed.

End OrdinalOrder.



(** ** Masked values *)
Section Masking.

Lemma last_two {A} (l : list A) :
  (2 <= List.length l)%nat -> exists m c d, l = m ++ [c; d].
Proof.
  intros L. destruct (rev l) as [|d [|c m]] eqn:E.
  - apply (f_equal (@List.length _)) in E. rewrite length_rev in E.
    simpl in E. lia.
  - apply (f_equal (@List.length _)) in E. rewrite length_rev in E.
    simpl in E. lia.
  - exists (rev m), c, d. apply (f_equal (@rev _)) in E.
    rewrite rev_involutive in E. rewrite E. simpl.
    rewrite <- app_assoc. reflexivity.
Qed.

End Masking.

(** X6: unless raw output is asked for, [maskSecret] shows at most
    seven code units: nothing of a value of four code units or fewer,
    and the first two and the last two of a longer one.  With raw
    output the value comes out whole. *)
Theorem maskSecret_shows_four (options : CLIOptions) (value : jstring) :
  opt_raw options = false ->
  let shown := maskSecret options value false in
  (len shown <= 7)%Z
  /\ ((len value <= 4)%Z -> shown = lit "***")
  /\ ((4 < len value)%Z ->
      exists a b middle c d,
        value = [a; b] ++ middle ++ [c; d]
        /\ shown = [a; b] ++ lit "***" ++ [c; d])
  /\ maskSecret options value true = value.
Proof.
  intros Raw shown.
  assert (Long : (4 < len value)%Z ->
      exists a b middle c d,
        value = [a; b] ++ middle ++ [c; d]
        /\ shown = [a; b] ++ lit "***" ++ [c; d]).
  { intros L. unfold shown, maskSecret. rewrite Raw. cbn [orb].
    destruct (Z.leb_spec (len value) 4) as [F|_]; [lia|].
    destruct value as [|a [|b t]];
      try (unfold len in L; cbn [List.length] in L; lia).
    destruct (@last_two _ t) as [m [c [d ->]]].
    { unfold len in L. cbn [List.length] in L. lia. }
    exists a, b, m, c, d. split; [reflexivity|].
    f_equal; [|f_equal].
    - change (a :: b :: m ++ [c; d]) with ([a; b] ++ (m ++ [c; d])).
      apply (substring_prefix [a; b] (m ++ [c; d])).
    - replace (len (a :: b :: m ++ [c; d]) - 2)%Z with (len (a :: b :: m)).
      + change (a :: b :: m ++ [c; d]) with ((a :: b :: m) ++ [c; d]).
        apply substring_from_suffix.
      + unfold len. cbn [List.length]. rewrite length_app.
        cbn [List.length]. lia. }
  assert (Short : (len value <= 4)%Z -> shown = lit "***").
  { intros L. unfold shown, maskSecret. rewrite Raw. cbn [orb].
    destruct (Z.leb_spec (len value) 4) as [_|F]; [reflexivity | lia]. }
  split; [|split; [exact Short | split; [exact Long | reflexivity]]].
  destruct (Z.leb_spec (len value) 4) as [L|L].
  - rewrite (Short L). vm_compute. discriminate.
  - destruct (Long L) as (a & b & m & c & d & _ & ->). vm_compute.
    discriminate.
Qed.

Lemma maskSecret_shows_four_witness :
  maskSecret Scenes.options (lit "hunter2-secret") false = lit "hu***et".
Proof.
  destruct (@maskSecret_shows_four Scenes.options (lit "hunter2-secret")
              eq_refl) as (_ & _ & L & _).
  destruct L as (a & b & m & c & d & E & ->); [reflexivity|].
  injection E as <- <- E.
  assert (H : rev (lit "nter2-secret") = rev (m ++ [c; d])) by (f_equal; exact E).
  rewrite rev_app_distr in H. simpl in H. injection H as <- <- _.
  reflexivity.
Defined.

(** ** Keys of the tracker *)
Section TrackerKeys.

Lemma app_sep_inj (sep : code_unit) (a a' r r' : jstring) :
  ~ In sep a -> ~ In sep a' ->
  a ++ sep :: r = a' ++ sep :: r' -> a = a' /\ r = r'.
Proof.
  revert a'. induction a as [|x a IH]; intros [|y a'] Na Na' E; simpl in E.
  - injection E as ->. auto.
  - injection E as <- _. exfalso. apply Na'. left. reflexivity.
  - injection E as -> _. exfalso. apply Na. left. reflexivity.
  - injection E as -> E.
    destruct (IH a') as [-> ->]; auto;
      intros H; [apply Na | apply Na']; right; exact H.
Qed.

Lemma tracker_key_inj (o p e o' p' e' : jstring) :
  ~ In SLASH o -> ~ In SLASH p -> ~ In SLASH o' -> ~ In SLASH p' ->
  tracker_key o p e = tracker_key o' p' e' -> o = o' /\ p = p' /\ e = e'.
Proof.
  intros No Np No' Np' E. unfold tracker_key in E. simpl in E.
  destruct (@app_sep_inj _ _ _ _ _ No No' E) as [-> E2].
  destruct (@app_sep_inj _ _ _ _ _ Np Np' E2) as [-> ->]. auto.
Qed.

End TrackerKeys.

(** X7: when organization and project names hold no
    slash, two contexts have the same tracker key only if they are the
    same context, so recording a version for one leaves what is
    recorded for any other. *)
Theorem tracker_contexts_apart (o p e o' p' e' : jstring) :
  ~ In SLASH o -> ~ In SLASH p -> ~ In SLASH o' -> ~ In SLASH p' ->
  (tracker_key o p e = tracker_key o' p' e' -> o = o' /\ p = p' /\ e = e')
  /\ ((o, p, e) <> (o', p', e') ->
      forall file v timestamp,
        getVersionInfo (updateVersionInfo file o' p' e' v timestamp) o p e
        = getVersionInfo file o p e).
Proof.
  intros No Np No' Np'. split; [apply tracker_key_inj; assumption|].
  intros NE file v timestamp. unfold getVersionInfo.
  rewrite updateVersionInfo_data. apply obj_get_set_other.
  intros E. apply NE.
  destruct (@tracker_key_inj _ _ _ _ _ _ No' Np' No Np E) as (-> & -> & ->).
  reflexivity.
Qed.

Lemma tracker_contexts_apart_witness :
  getVersionInfo
    (updateVersionInfo Scenes.tracked_at_5 (lit "acme") (lit "pay")
       (lit "staging") 9 Scenes.timestamp)
    (lit "acme") (lit "pay") (lit "prod")
  = getVersionInfo Scenes.tracked_at_5 (lit "acme") (lit "pay") (lit "prod").
Proof.
  refine (proj2 (@tracker_contexts_apart (lit "acme") (lit "pay") (lit "prod")
                   (lit "acme") (lit "pay") (lit "staging") _ _ _ _)
            _ Scenes.tracked_at_5 9%Z Scenes.timestamp);
    try (simpl; intuition discriminate).
Defined.



(** ** Errors of the API *)
Section ApiErrorFacts.
Import ApiErrors.

Lemma js_or_default_truthy (a : option jstring) (d : jstring) :
  d <> [] -> the_string (js_or a (Some d)) <> [].
Proof.
  intros D. unfold js_or. destruct a as [[|c s]|]; simpl; congruence.
Qed.

Lemma handleAPIError_message (response : Response) (body : option ErrorBody) :
  err_message (handleAPIError response body) <> [].
Proof.
  unfold handleAPIError. cbv zeta.
  set (m := the_string (js_or _ (Some (lit "An error occurred")))).
  assert (M : m <> []) by (apply js_or_default_truthy; discriminate).
  repeat match goal with
         | |- context [if ?b then _ else _] => destruct b
         end; simpl; try exact M.
  destruct m; [congruence | discriminate].
Qed.

End ApiErrorFacts.

(** X9: whatever the response, the error [handleAPIError]
    throws has a message, and a command that catches it exits with
    code 1; a 409 is a conflict for push, whatever the body says, a 403
    is reported as unauthorized and a 401 asks for authentication. *)
Theorem handleAPIError_codes
  (response : ApiErrors.Response) (body : option ApiErrors.ErrorBody) :
  let e := ApiErrors.handleAPIError response body in
  exit_code e = 1%Z
  /\ err_message e <> []
  /\ (ApiErrors.status response = 409%Z -> is_conflict e = true)
  /\ (ApiErrors.status response = 403%Z ->
      has_code e "PERMISSION_DENIED" = true)
  /\ (ApiErrors.status response = 401%Z ->
      has_code e "AUTHENTICATION_REQUIRED" = true)
  /\ (is_conflict e = true ->
      ApiErrors.status response = 409%Z
      \/ includes (err_message e) (lit "conflict") = true
      \/ ApiErrors.body_field ApiErrors.body_error body
         = Some (lit "CONFLICT")).
Proof.
  intros e. split; [|split; [apply handleAPIError_message|]].
  - unfold e, ApiErrors.handleAPIError. cbv zeta.
    repeat match goal with
           | |- context [if ?b then _ else _] => destruct b
           end; reflexivity.
  - unfold e, ApiErrors.handleAPIError. cbv zeta.
    repeat split.
    + intros ->. reflexivity.
    + intros ->. reflexivity.
    + intros ->. reflexivity.
    + destruct (Z.eqb_spec (ApiErrors.status response) 409) as [E|NE];
        [auto|]. intros C. right.
      unfold is_conflict in C. apply orb_true_iff in C.
      destruct C as [C|C]; [|left; exact C]. right.
      repeat match type of C with
             | context [if ?b then _ else _] => destruct b
             end; try discriminate.
      unfold has_code, ApiErrors.APIError in C. simpl in C.
      apply jstr_eqb_eq in C.
      unfold js_or in C.
      destruct (ApiErrors.body_field ApiErrors.body_error body)
        as [[|c s]|]; simpl in C; try discriminate.
      rewrite C. reflexivity.
Qed.

(** ** Context files after an environment is deleted *)
Section ClearedContext.

Lemma load_shared_missing : loadSharedContext Missing = Ret None.
Proof. reflexivity. Qed.

Lemma load_local_missing : loadLocalContext Missing = Ret None.
Proof. reflexivity. Qed.

Lemma js_or_falsy (a b : option jstring) :
  truthy a = false -> js_or a b = b.
Proof. unfold js_or. intros ->. reflexivity. Qed.

(** What resolution finds as environment when no flag names one. *)
Lemma resolveContext_environment
  (options : CLIOptions) (sharedFile localFile : ConfigFile)
  (skipLocal : bool) shared_ local_ c :
  truthy (opt_environment options) = false ->
  loadSharedContext sharedFile = Ret shared_ ->
  (if skipLocal then Ret None else loadLocalContext localFile) = Ret local_ ->
  resolveContext options sharedFile localFile skipLocal = Ret (Some c) ->
  Some (environment c)
  = js_or (local_field lc_environment local_)
          (shared_field sc_environment shared_)
  /\ environment c <> [].
Proof.
  intros F HS HL. unfold resolveContext. rewrite HS, HL, F.
  rewrite andb_false_r. cbv zeta. rewrite (js_or_falsy _ _ F).
  set (env := js_or (local_field lc_environment local_)
                    (shared_field sc_environment shared_)).
  destruct (truthy _ && truthy _ && truthy env) eqn:T; [|discriminate].
  intros E. injection E as <-. simpl.
  apply andb_true_iff in T. destruct T as [_ T].
  destruct env as [[|x s]|]; try discriminate. split; [reflexivity|discriminate].
Qed.

End ClearedContext.

(** X10: once [clearContextIfMatches] has returned for a
    deleted environment, a resolution with no environment flag does
    not come back with that environment; a context file that names
    another environment, or none, is left in place. *)
Theorem clearContextIfMatches_forgets
  (deleted : jstring) (sharedFile localFile sharedFile' localFile' : ConfigFile) :
  clearContextIfMatches deleted sharedFile localFile
  = Ret (sharedFile', localFile') ->
  (forall options skipLocal c,
     truthy (opt_environment options) = false ->
     resolveContext options sharedFile' localFile' skipLocal = Ret (Some c) ->
     environment c <> deleted)
  /\ (sharedFile' = sharedFile \/ sharedFile' = Missing)
  /\ (localFile' = localFile \/ localFile' = Missing)
  /\ (forall s, loadSharedContext sharedFile = Ret (Some s) ->
        sc_environment s <> deleted -> sharedFile' = sharedFile)
  /\ (forall l, loadLocalContext localFile = Ret (Some l) ->
        lc_environment l <> Some deleted -> localFile' = localFile).
Proof.
  unfold clearContextIfMatches.
  destruct (loadSharedContext sharedFile) as [shared_|] eqn:HS; [|discriminate].
  destruct (loadLocalContext localFile) as [local_|] eqn:HL; [|discriminate].
  cbv zeta. intros E. injection E as ES EL.
  (* what the files hold after the call *)
  assert (S' : exists s', loadSharedContext sharedFile' = Ret s'
                 /\ shared_field sc_environment s' <> Some deleted).
  { destruct shared_ as [s|].
    - destruct (jstr_eqb (sc_environment s) deleted) eqn:Q; subst sharedFile'.
      + exists None. split; [reflexivity | discriminate].
      + exists (Some s). split; [exact HS|]. simpl. intros [= H].
        apply jstr_eqb_neq in Q. contradiction.
    - subst sharedFile'. exists None. split; [exact HS | discriminate]. }
  assert (L' : exists l', loadLocalContext localFile' = Ret l'
                 /\ local_field lc_environment l' <> Some deleted).
  { destruct local_ as [l|].
    - destruct (lc_environment l) as [e|] eqn:Le.
      + destruct (jstr_eqb e deleted) eqn:Q; subst localFile'.
        * exists None. split; [reflexivity | discriminate].
        * exists (Some l). split; [exact HL|]. simpl. rewrite Le.
          intros [= H]. apply jstr_eqb_neq in Q. contradiction.
      + subst localFile'. exists (Some l). split; [exact HL|].
        simpl. rewrite Le. discriminate.
    - subst localFile'. exists None. split; [exact HL | discriminate]. }
  split; [|repeat split].
  - intros options skipLocal c F H.
    destruct S' as [s' [HS' NS]]. destruct L' as [l' [HL' NL]].
    assert (HL2 : exists l2,
              (if skipLocal then Ret None else loadLocalContext localFile')
              = Ret l2 /\ local_field lc_environment l2 <> Some deleted).
    { destruct skipLocal; [exists None; split; [reflexivity|discriminate]|].
      exists l'. auto. }
    destruct HL2 as [l2 [HL2 NL2]].
    destruct (@resolveContext_environment options sharedFile' localFile'
                skipLocal s' l2 c F HS' HL2 H) as [E _].
    intros D. rewrite D in E. unfold js_or in E.
    destruct (truthy (local_field lc_environment l2)); congruence.
  - destruct shared_ as [s|]; [|auto].
    destruct (jstr_eqb (sc_environment s) deleted); auto.
  - destruct local_ as [l|]; [|auto].
    destruct (lc_environment l) as [e|]; [|auto].
    destruct (jstr_eqb e deleted); auto.
  - intros s [= ->] N. apply jstr_eqb_neq in N. rewrite N in ES. auto.
  - intros l [= ->] N. destruct (lc_environment l) as [e|]; [|auto].
    destruct (jstr_eqb e deleted) eqn:Q; [|auto].
    apply jstr_eqb_eq in Q. congruence.
Qed.

Lemma clearContextIfMatches_forgets_witness :
  clearContextIfMatches (lit "prod") Scenes.shared_s_sp_se Scenes.acme_pay_prod
  = Ret (Scenes.shared_s_sp_se, Missing)
  /\ environment (mkResolved (lit "s") (lit "sp") (lit "se") shared)
     <> lit "prod".
Proof.
  split; [reflexivity|].
  refine (proj1 (@clearContextIfMatches_forgets (lit "prod")
            Scenes.shared_s_sp_se Scenes.acme_pay_prod
            Scenes.shared_s_sp_se Missing eq_refl)
          Scenes.options false _ eq_refl eq_refl).
Defined.

(** ** The ignore file *)
Section GitignoreFacts.
Import Gitignore.

Lemma has_In (set : list jstring) (k : jstring) :
  has set k = true <-> In k set.
Proof.
  unfold has. rewrite existsb_exists. split.
  - intros [x [H E]]. apply jstr_eqb_eq in E. subst. exact H.
  - intros H. exists k. split; [exact H | apply jstr_eqb_refl].
Qed.

Lemma join_split (sep : code_unit) (s : jstring) :
  join [sep] (split sep s) = s.
Proof.
  induction s as [|c s IH]; [reflexivity|].
  destruct (N.eqb_spec c sep) as [->|NE].
  - simpl. rewrite N.eqb_refl.
    destruct (split sep s) as [|l ls] eqn:E;
      [exfalso; exact (split_nonempty sep s E)|].
    change (join [sep] ([] :: l :: ls)) with (sep :: join [sep] (l :: ls)).
    rewrite IH. reflexivity.
  - destruct (@split_cons_other sep c s NE) as [l [ls [E ->]]].
    rewrite E in IH. destruct ls as [|l2 ls]; simpl in *; congruence.
Qed.

Lemma join_app (sep : jstring) (a b : list jstring) :
  a <> [] -> b <> [] -> join sep (a ++ b) = join sep a ++ sep ++ join sep b.
Proof.
  intros Na Nb. induction a as [|x a IH]; [congruence|].
  destruct a as [|y a].
  - destruct b; [congruence | reflexivity].
  - change (join sep ((x :: y :: a) ++ b))
      with (x ++ sep ++ join sep ((y :: a) ++ b)).
    rewrite IH by discriminate.
    change (join sep (x :: y :: a)) with (x ++ sep ++ join sep (y :: a)).
    rewrite <- !app_assoc. reflexivity.
Qed.

Lemma wanted_none (existing es : list jstring) :
  existsb (fun e => negb (has existing e)) es
  = negb (match Gitignore.wanted existing es with [] => true | _ => false end).
Proof.
  unfold wanted. induction es as [|e es IH]; [reflexivity|].
  simpl. destruct (has existing e); simpl; [exact IH | reflexivity].
Qed.

Lemma add_entries (existing es newLines : list jstring) (modified : bool) :
  exists added,
    fold_left (add_entry existing) es (newLines, modified)
    = (newLines ++ added,
       modified || existsb (fun e => negb (has existing e)) es)
    /\ (forall l, In l added ->
          l = [] \/ l = lit "# EnvSimple" \/ In l (wanted existing es))
    /\ (forall e, In e (wanted existing es) -> In e added).
Proof.
  revert newLines modified.
  induction es as [|e es IH]; intros newLines modified.
  - exists []. simpl. rewrite app_nil_r, orb_false_r. auto.
  - simpl. unfold wanted. simpl.
    destruct (has existing e) eqn:Hs; simpl.
    + apply IH.
    + set (n1 := if (0 <? List.length newLines)%nat
                    && negb (is_empty (last newLines []))
                 then newLines ++ [[]] else newLines).
      set (n2 := if negb modified then n1 ++ [lit "# EnvSimple"] else n1).
      destruct (IH (n2 ++ [e]) true) as [added [E [A B]]].
      assert (P : exists pre, n2 ++ [e] = newLines ++ pre ++ [e]
                  /\ forall l, In l pre -> l = [] \/ l = lit "# EnvSimple").
      { assert (P1 : exists p1, n1 = newLines ++ p1
                       /\ forall l, In l p1 -> l = []).
        { unfold n1. destruct (_ && _).
          - exists [[]]. split; [reflexivity|]. intros l [<-|[]]. reflexivity.
          - exists []. rewrite app_nil_r. split; [reflexivity|]. intros l []. }
        destruct P1 as [p1 [-> Q1]]. unfold n2. destruct (negb modified).
        - exists (p1 ++ [lit "# EnvSimple"]). rewrite <- !app_assoc.
          split; [reflexivity|]. intros l H. apply in_app_or in H.
          destruct H as [H|[<-|[]]]; auto.
        - exists p1. rewrite <- !app_assoc. split; [reflexivity|]. auto. }
      destruct P as [pre [Pe Pp]].
      exists (pre ++ [e] ++ added). rewrite E, Pe.
      rewrite orb_true_r. simpl. rewrite <- !app_assoc. simpl.
      split; [reflexivity|]. split.
      * intros l H. apply in_app_or in H. destruct H as [H|[<-|H]].
        -- destruct (Pp l H); auto.
        -- right. right. left. reflexivity.
        -- destruct (A l H) as [?|[?|?]]; auto.
      * intros x [<-|H]; apply in_or_app; right;
          [left; reflexivity | right; apply B; exact H].
Qed.

Lemma existing_has (lines : list jstring) (e : jstring) :
  e <> [] -> startsWith e [HASH] = false -> trim e = e ->
  In e lines -> has (existingEntries lines) e = true.
Proof.
  intros Ne Nh T H. apply has_In. unfold existingEntries.
  apply filter_In. split.
  - rewrite <- T. apply in_map. exact H.
  - rewrite Nh. destruct e; [congruence | reflexivity].
Qed.

Lemma existing_mono (lines more : list jstring) (e : jstring) :
  has (existingEntries lines) e = true ->
  has (existingEntries (lines ++ more)) e = true.
Proof.
  rewrite !has_In. unfold existingEntries. rewrite !filter_In, map_app.
  intros [H F]. split; [apply in_or_app; left; exact H | exact F].
Qed.

Lemma existing_trimmed (lines : list jstring) (e : jstring) :
  has (existingEntries lines) e = true -> In e (map trim lines).
Proof.
  rewrite has_In. unfold existingEntries. rewrite filter_In. tauto.
Qed.

Lemma required_plain (e : jstring) :
  In e requiredEntries ->
  e <> [] /\ startsWith e [HASH] = false /\ trim e = e /\ ~ In LF e.
Proof.
  intros [<-|[<-|[<-|[]]]]; repeat split; try discriminate;
    simpl; intuition discriminate.
Qed.

Lemma nothing_wanted (existing es : list jstring) :
  (forall e, In e es -> has existing e = true) -> wanted existing es = [].
Proof.
  intros H. unfold wanted. induction es as [|e es IH]; [reflexivity|].
  simpl. rewrite (H e (or_introl eq_refl)). simpl.
  apply IH. intros x Hx. apply H. right. exact Hx.
Qed.

Lemma ensureGitignore_covered (file : option jstring) :
  (forall e, In e requiredEntries ->
     has (existingEntries
            (split LF (match file with Some c => c | None => [] end))) e
     = true) ->
  ensureGitignore file = None.
Proof.
  intros H. unfold ensureGitignore. cbv zeta.
  destruct (add_entries (existingEntries
              (split LF match file with Some c => c | None => [] end))
              requiredEntries
              (split LF match file with Some c => c | None => [] end) false)
    as [added [-> _]].
  rewrite wanted_none, (nothing_wanted _ _ H). reflexivity.
Qed.

End GitignoreFacts.

(** X11: [ensureGitignore] writes the ignore file at most
    once: what it writes begins with the text that was there, holds
    each of [.env], [.env.copy] and [.envsimple.local] on a line of its
    own, and a second call finds nothing to write.  When it writes
    nothing, the three entries were there already. *)
Theorem ensureGitignore_once (file : option jstring) :
  let content := match file with Some c => c | None => [] end in
  (forall written,
     Gitignore.ensureGitignore file = Some written ->
     (exists added, written = content ++ added)
     /\ Gitignore.ensureGitignore (Some written) = None)
  /\ (forall after e,
        Gitignore.after file = Some after ->
        In e Gitignore.requiredEntries ->
        In e (map trim (split LF after)))
  /\ (exists text, Gitignore.after file = Some text).
Proof.
  intros content.
  set (lines := split LF content).
  set (existing := Gitignore.existingEntries lines).
  destruct (add_entries existing Gitignore.requiredEntries lines false)
    as [added [E [A B]]].
  assert (W : forall written,
     Gitignore.ensureGitignore file = Some written ->
     written = join [LF] (lines ++ added) ++ [LF]
     /\ added <> []
     /\ forall e, In e Gitignore.requiredEntries ->
          has (Gitignore.existingEntries (split LF written)) e = true).
  { intros written. unfold Gitignore.ensureGitignore. cbv zeta.
    fold content. fold lines. fold existing. rewrite E, wanted_none.
    cbn [orb].
    destruct (Gitignore.wanted existing Gitignore.requiredEntries) as [|x xs] eqn:Wn;
      [discriminate|].
    cbn [negb]. intros [= <-]. split; [reflexivity|].
    assert (Na : added <> []).
    { intros ->. apply (B x). left. reflexivity. }
    split; [exact Na|]. intros e He.
    assert (NL : forall l, In l (lines ++ added) -> ~ In LF l).
    { intros l Hl. apply in_app_or in Hl. destruct Hl as [Hl|Hl].
      - exact (split_pieces_no_sep LF content l Hl).
      - destruct (A l Hl) as [->|[->|Hw]].
        + intros [].
        + simpl. intuition discriminate.
        + rewrite <- Wn in Hw. unfold Gitignore.wanted in Hw.
          apply filter_In in Hw. apply (@required_plain l). tauto. }
    rewrite split_join_lines; [|exact NL|].
    2:{ intros Z. apply app_eq_nil in Z. destruct Z as [Z _].
        exact (split_nonempty LF content Z). }
    rewrite <- app_assoc. destruct (has existing e) eqn:Hs.
    + apply existing_mono. exact Hs.
    + destruct (@required_plain e He) as (R1 & R2 & R3 & _).
      apply existing_has; try assumption.
      apply in_or_app. right. apply in_or_app. left.
      apply B. rewrite <- Wn. unfold Gitignore.wanted. apply filter_In.
      rewrite Hs. auto. }
  split; [|split].
  - intros written H. destruct (W written H) as (-> & Na & C). split.
    + exists ([LF] ++ join [LF] added ++ [LF]).
      rewrite join_app; [| unfold lines; apply split_nonempty | exact Na].
      unfold lines. rewrite join_split, <- !app_assoc. reflexivity.
    + apply ensureGitignore_covered. exact C.
  - intros after e H He. unfold Gitignore.after in H.
    destruct (Gitignore.ensureGitignore file) as [written|] eqn:G.
    + injection H as <-. destruct (W written eq_refl) as (_ & _ & C).
      apply existing_trimmed. apply C. exact He.
    + subst file. apply existing_trimmed.
      unfold Gitignore.ensureGitignore in G. cbv zeta in G.
      fold content in G. fold lines in G. fold existing in G.
      rewrite E, wanted_none in G. cbn [orb] in G.
      destruct (Gitignore.wanted existing Gitignore.requiredEntries) as [|x xs] eqn:Wn;
        [|discriminate].
      destruct (has existing e) eqn:Hs; [exact Hs|].
      exfalso. assert (Hf : In e (Gitignore.wanted existing Gitignore.requiredEntries)).
      { unfold Gitignore.wanted. apply filter_In. rewrite Hs. auto. }
      rewrite Wn in Hf. exact Hf.
  - unfold Gitignore.after.
    destruct (Gitignore.ensureGitignore file) as [written|] eqn:G;
      [exists written; reflexivity|].
    destruct file as [c|]; [exists c; reflexivity|].
    vm_compute in G. discriminate.
Qed.

(** ** Refusals *)
Section Refusals.
Variable R : Type.
Variable api : Api R.
Variable localeCompare : jstring -> jstring -> Z.

Lemma exit_code_nonzero (e : JsError) : exit_code e <> 0%Z.
Proof.
  unfold exit_code. destruct (err_exitCode e) as [c|]; [|discriminate].
  destruct (Z.eqb_spec c 0); [discriminate | assumption].
Qed.

(** What the [catch] of a command does with an error. *)
Lemma report_error_run options fallback unauthorized e (w : World R) :
  report_error options fallback unauthorized e w
  = (Exited (exit_code e),
     set_events w (events w ++ error_report options fallback unauthorized e)).
Proof.
  unfold report_error, error_report, out_json, out_error.
  destruct (opt_json options); [reflexivity|].
  destruct (unauthorized && has_code e "PERMISSION_DENIED"); reflexivity.
Qed.

Lemma command_raised options fallback unauthorized (body : M R unit)
  (w w1 : World R) e :
  body w = (Raised e, w1) ->
  command options fallback unauthorized body w
  = (Exited (exit_code e),
     set_events w1
       (events w1 ++ error_report options fallback unauthorized e)).
Proof.
  intros E. unfold command, try_catch. rewrite E. apply report_error_run.
Qed.

Lemma authenticate_not_logged_in options greet (w : World R) :
  opt_token options = false -> truthy (credentials w) = false ->
  authenticate options greet w = (Raised not_logged_in_error, w).
Proof.
  intros T C. unfold authenticate. rewrite T.
  unfold requireAuth, bind, read. rewrite C. reflexivity.
Qed.

End Refusals.

(** X12: without a service token and without stored
    credentials, pull, push and rollback end with exit code 1 after the
    one report of the error: no request is sent and nothing else in
    the world changes. *)
Theorem not_logged_in_is_refused
  (R : Type) (api : Api R) (localeCompare : jstring -> jstring -> Z)
  (options : CLIOptions) (w : World R) :
  opt_token options = false -> truthy (credentials w) = false ->
  let refused fallback :=
    (Exited (A := unit) 1,
     set_events w
       (events w ++ error_report options fallback true not_logged_in_error)) in
  pullCommand api localeCompare options w = refused "PULL_ERROR"%string
  /\ pushCommand api localeCompare options w = refused "PUSH_ERROR"%string
  /\ rollbackCommand api localeCompare options w
     = refused "ROLLBACK_ERROR"%string.
Proof.
  intros T C refused. unfold refused. repeat split.
  - unfold pullCommand.
    apply (@command_raised _ _ _ _ _ w w not_logged_in_error).
    apply bind_raised. unfold pullFetch. apply bind_raised.
    apply authenticate_not_logged_in; assumption.
  - unfold pushCommand.
    apply (@command_raised _ _ _ _ _ w w not_logged_in_error).
    apply bind_raised. unfold pushPrepare. apply bind_raised.
    apply authenticate_not_logged_in; assumption.
  - unfold rollbackCommand.
    apply (@command_raised _ _ _ _ _ w w not_logged_in_error).
    apply bind_raised. unfold requireAuth, bind, read. rewrite C. reflexivity.
Qed.

Lemma not_logged_in_is_refused_witness :
  pushCommand Remote.api asciiCollate Scenes.options Cases.logged_out
  = (Exited 1,
     set_events Cases.logged_out
       [ErrorOut [Str (err_message not_logged_in_error)]]).
Proof.
  exact (proj1 (proj2 (@not_logged_in_is_refused _ Remote.api asciiCollate
                         Scenes.options Cases.logged_out eq_refl eq_refl))).
Defined.

(** ** What a part of a command leaves alone *)
Section Prefixes.
Variable R : Type.
Variable api : Api R.
Variable localeCompare : jstring -> jstring -> Z.

Lemma authenticate_keeps options greet :
  keeps (state (R := R)) (authenticate options greet).
Proof. keeps_tac. Qed.

Lemma authenticate_logs options greet :
  logs no_effect (authenticate (R := R) options greet).
Proof. logs_tac. Qed.

Lemma resolveContextM_run options skipLocal (w : World R) :
  resolveContextM options skipLocal w
  = match resolveContext options (shared_file w) (local_file w) skipLocal with
    | Ret c => (Done c, w)
    | Throw e => (Raised e, w)
    end.
Proof.
  unfold resolveContextM, bind, read, lift.
  destruct (resolveContext _ _ _ _); reflexivity.
Qed.

Lemma readEnvFile_run (w : World R) :
  readEnvFile w
  = (Done (match env_file w with Some content => content | None => [] end), w).
Proof. reflexivity. Qed.

(** Push stops before the look-up of the environment when the working
    file is blank. *)
Lemma pushPrepare_blank options (w : World R) :
  blank_env w ->
  exists o w1 l,
    pushPrepare api localeCompare options w = (o, w1)
    /\ (forall s, o <> Done s) /\ (forall c, o <> Exited c)
    /\ state w1 = state w
    /\ events w1 = events w ++ l /\ forallb no_effect l = true.
Proof.
  intros B. unfold pushPrepare.
  pose proof (authenticate_keeps options false w) as K.
  destruct (authenticate_logs options false w) as [l [L F]].
  destruct (authenticate options false w) as [[tok|e|c] wa] eqn:EA;
    simpl in K, L.
  - rewrite (bind_run _ EA). unfold bind at 1. rewrite resolveContextM_run.
    assert (Be : blank_env wa).
    { unfold blank_env in *. unfold state in K.
      injection K as K1 _. rewrite K1. exact B. }
    destruct (resolveContext _ _ _ _) as [[ctx|]|e].
    + unfold bind at 1. rewrite readEnvFile_run. rewrite Be.
      cbn [is_empty]. eexists _, wa, l. split; [reflexivity|].
      repeat split; try discriminate; assumption.
    + eexists _, wa, l. split; [reflexivity|].
      repeat split; try discriminate; assumption.
    + eexists _, wa, l. split; [reflexivity|].
      repeat split; try discriminate; assumption.
  - rewrite (bind_raised _ EA). eexists _, wa, l. split; [reflexivity|].
    repeat split; try discriminate; assumption.
  - exfalso. revert EA. unfold authenticate.
    destruct (opt_token options).
    + unfold getServiceToken, loadSharedContextM, out_info, bind, read, lift,
        emit, modify, throw, ret.
      destruct (truthy (service_token w)); [|discriminate].
      destruct (negb (truthy (opt_org options))
                || negb (truthy (opt_project options))
                || negb (truthy (opt_environment options)));
        [destruct (loadSharedContext (shared_file w)) as [[s|]|e] |];
        try discriminate; destruct (opt_json options); discriminate.
    + unfold requireAuth, when, out_info, bind, read, emit, modify, throw, ret.
      destruct (truthy (credentials w)); [|discriminate].
      discriminate.
Qed.

End Prefixes.

(** X13: push never submits a missing or blank working file:
    it ends with an error exit before any request, and nothing but the
    messages shown changes in the world. *)
Theorem push_refuses_blank_env
  (R : Type) (api : Api R) (localeCompare : jstring -> jstring -> Z)
  (options : CLIOptions) (w : World R) :
  blank_env w ->
  exists code w' l,
    pushCommand api localeCompare options w = (Exited code, w')
    /\ code <> 0%Z
    /\ state w' = state w
    /\ events w' = events w ++ l /\ forallb no_effect l = true.
Proof.
  intros B.
  destruct (pushPrepare_blank api localeCompare options B)
    as (o & w1 & l & E & ND & NE & S & L & F).
  destruct o as [s|e|c]; [elim (ND s); reflexivity | | elim (NE c); reflexivity].
  unfold pushCommand.
  rewrite (@command_raised _ _ _ _ _ w w1 e) by (apply bind_raised; exact E).
  eexists _, _, (l ++ error_report options "PUSH_ERROR" true e).
  split; [reflexivity|]. split; [apply exit_code_nonzero|].
  split; [exact S|]. split.
  - simpl. rewrite L, app_assoc. reflexivity.
  - rewrite forallb_app, F. unfold error_report.
    destruct (opt_json options); [reflexivity|].
    destruct (true && has_code e "PERMISSION_DENIED"); reflexivity.
Qed.

Lemma push_refuses_blank_env_witness :
  exists code w' l,
    pushCommand Remote.api asciiCollate Scenes.options Scenes.blank_env
    = (Exited code, w')
    /\ code <> 0%Z
    /\ state w' = state Scenes.blank_env
    /\ events w' = events Scenes.blank_env ++ l
    /\ forallb no_effect l = true.
Proof.
  apply (@push_refuses_blank_env _ Remote.api asciiCollate Scenes.options
           Scenes.blank_env).
  reflexivity.
Defined.

(** X14: rollback without [--target], or with target 0,
    ends with exit code 1 after the one report of the error, before
    any request; nothing else changes in the world. *)
Theorem rollback_requires_target
  (R : Type) (api : Api R) (localeCompare : jstring -> jstring -> Z)
  (options : CLIOptions) (w : World R) :
  nonzero (opt_target options) = None ->
  rollbackCommand api localeCompare options w
  = (Exited 1,
     set_events w
       (events w
        ++ error_report options "ROLLBACK_ERROR" true
             (if truthy (credentials w)
              then PlainError (lit "--target flag is required")
              else not_logged_in_error))).
Proof.
  intros T. unfold rollbackCommand. rewrite T.
  destruct (truthy (credentials w)) eqn:C.
  - apply (@command_raised _ _ _ _ _ w w
             (PlainError (lit "--target flag is required"))).
    unfold requireAuth, bind, read. rewrite C. reflexivity.
  - apply (@command_raised _ _ _ _ _ w w not_logged_in_error).
    unfold requireAuth, bind, read. rewrite C. reflexivity.
Qed.

Lemma rollback_requires_target_witness :
  rollbackCommand Remote.api asciiCollate Cases.to_version_0 Scenes.old_env
  = (Exited 1,
     set_events Scenes.old_env
       [ErrorOut [Str (lit "--target flag is required")]]).
Proof.
  exact (@rollback_requires_target _ Remote.api asciiCollate
           Cases.to_version_0 Scenes.old_env eq_refl).
Defined.

(** ** Computations that do not end the process *)
Section NeverExits.
Variable R : Type.

Lemma never_exits_ret {A} (a : A) : never_exits (ret (R := R) a).
Proof. intros w c w' H. discriminate. Qed.

Lemma never_exits_throw {A} e : never_exits (throw (R := R) (A := A) e).
Proof. intros w c w' H. discriminate. Qed.

Lemma never_exits_read {A} (f : World R -> A) : never_exits (read f).
Proof. intros w c w' H. discriminate. Qed.

Lemma never_exits_lift {A} (r : Thrown A) : never_exits (lift (R := R) r).
Proof. destruct r; intros w c w' H; discriminate. Qed.

Lemma never_exits_modify (g : World R -> World R) : never_exits (modify g).
Proof. intros w c w' H. discriminate. Qed.

Lemma never_exits_emit (e : Event) : never_exits (emit (R := R) e).
Proof. intros w c w' H. discriminate. Qed.

Lemma never_exits_now : never_exits (now (R := R)).
Proof. intros w c w' H. discriminate. Qed.

Lemma never_exits_nextConfirm : never_exits (nextConfirm (R := R)).
Proof.
  intros w c w'. unfold nextConfirm.
  destruct (confirms w) as [|[b|] rest]; discriminate.
Qed.

Lemma never_exits_nextSelect choices : never_exits (nextSelect (R := R) choices).
Proof.
  intros w c w'. unfold nextSelect.
  destruct (selects w) as [|[i|] rest]; try discriminate.
  destruct (nth_error choices i) as [[? ?]|]; discriminate.
Qed.

Lemma never_exits_request {A} (c : Call) (g : R -> Thrown A * R) :
  never_exits (request c g).
Proof.
  intros w x w'. unfold request. destruct (g (remote w)) as [[a|e] r];
    discriminate.
Qed.

Lemma never_exits_bind {A B} (m : M R A) (k : A -> M R B) :
  never_exits m -> (forall a, never_exits (k a)) -> never_exits (bind m k).
Proof.
  intros Hm Hk w c w'. unfold bind.
  destruct (m w) as [[a|e|x] w1] eqn:E.
  - apply Hk.
  - discriminate.
  - elim (Hm w x w1 E).
Qed.

Lemma never_exits_try_catch {A} (m : M R A) (h : JsError -> M R A) :
  never_exits m -> (forall e, never_exits (h e)) ->
  never_exits (try_catch m h).
Proof.
  intros Hm Hh w c w'. unfold try_catch.
  destruct (m w) as [[a|e|x] w1] eqn:E.
  - discriminate.
  - apply Hh.
  - elim (Hm w x w1 E).
Qed.

Lemma never_exits_when (b : bool) (m : M R unit) :
  never_exits m -> never_exits (when b m).
Proof. destruct b; simpl; [auto | intros _; apply never_exits_ret]. Qed.

Lemma never_exits_fold_right {A} (step : A -> M R unit -> M R unit)
  (l : list A) :
  (forall a rest, never_exits rest -> never_exits (step a rest)) ->
  never_exits (fold_right step (ret tt) l).
Proof.
  intros H. induction l as [|a l IH]; simpl;
    [apply never_exits_ret | apply H; exact IH].
Qed.

(** A command whose body does not end the process returns, or exits
    with the code of the error it met, which is not 0. *)
Lemma command_outcome options fallback unauthorized (body : M R unit) w :
  never_exits body ->
  fst (command options fallback unauthorized body w) = Done tt
  \/ exists code,
       fst (command options fallback unauthorized body w) = Exited code
       /\ code <> 0%Z.
Proof.
  intros N. unfold command, try_catch.
  destruct (body w) as [[[]|e|c] w1] eqn:E.
  - left. reflexivity.
  - right. rewrite report_error_run. eexists. split; [reflexivity|].
    apply exit_code_nonzero.
  - elim (N w c w1 E).
Qed.

End NeverExits.

Ltac never_exits_step :=
  first [ assumption | lazymatch goal with
  | |- never_exits (bind _ _) => apply never_exits_bind; [|intro]
  | |- never_exits (try_catch _ _) => apply never_exits_try_catch; [|intro]
  | |- never_exits (ret _) => apply never_exits_ret
  | |- never_exits (throw _) => apply never_exits_throw
  | |- never_exits (read _) => apply never_exits_read
  | |- never_exits (lift _) => apply never_exits_lift
  | |- never_exits (when _ _) => apply never_exits_when
  | |- never_exits (modify _) => apply never_exits_modify
  | |- never_exits (emit _) => apply never_exits_emit
  | |- never_exits now => apply never_exits_now
  | |- never_exits nextConfirm => apply never_exits_nextConfirm
  | |- never_exits (nextSelect _) => apply never_exits_nextSelect
  | |- never_exits (request _ _) => apply never_exits_request
  | |- never_exits (fold_right _ _ _) =>
      apply never_exits_fold_right; intros
  | |- never_exits (let _ := _ in _) => cbv zeta
  | |- never_exits (if ?b then _ else _) => destruct b
  | |- never_exits (match ?x with _ => _ end) => destruct x
  | |- never_exits _ => first [progress autounfold with cli | open_named]
  end ].

Ltac never_exits_tac := repeat never_exits_step.

(** X15: print sends no request to the API and writes no
    file: but for the messages it shows and the telemetry event, the
    world is as before.  It returns, or exits with a code that is not
    0. *)
Theorem print_only_reads
  (R : Type) (localeCompare : jstring -> jstring -> Z)
  (options : CLIOptions) (w : World R) :
  let run := printCommand localeCompare options w in
  state (snd run) = state w
  /\ (exists l,
        events (snd run) = events w ++ l /\ forallb no_effect l = true)
  /\ (fst run = Done tt
      \/ exists code, fst run = Exited code /\ code <> 0%Z).
Proof.
  cbv zeta. split; [|split].
  - assert (K : keeps (state (R := R)) (printCommand localeCompare options))
      by keeps_tac.
    apply K.
  - assert (L : logs no_effect (printCommand (R := R) localeCompare options))
      by logs_tac.
    apply L.
  - unfold printCommand. apply command_outcome. never_exits_tac.
Qed.

(** ** The backup file only grows *)

(** The definitions of [cli] but for those that write the backup. *)
Create HintDb cmd discriminated.
#[global] Hint Unfold
  out_success out_warning out_error out_info out_json confirm select
  requireAuth getServiceToken loadSharedContextM resolveContextM
  getLocalOverridesM saveSharedContext getVersionInfoM updateVersionInfoM
  readEnvFile writeEnvFile ensureGitignore sendTelemetryEvent
  report_error command authenticate findEnvironment confirmOverrides
  determineBase pushPrepare recordVersion pushSubmit pushCommand
  selectContext pullFinish pullWrite pullCommand pullFetch forcedRetry
  rollbackApply rollbackCommand printCommand : cmd.

Section Grows.
Variable R : Type.

Lemma extends_refl (b : option jstring) : extends b b.
Proof.
  destruct b as [s|]; simpl; [|exact I]. exists []. rewrite app_nil_r.
  reflexivity.
Qed.

Lemma extends_trans (a b c : option jstring) :
  extends a b -> extends b c -> extends a c.
Proof.
  destruct a as [s|]; simpl; [|auto].
  intros [x ->] [y ->]. exists (x ++ y). rewrite app_assoc. reflexivity.
Qed.

Lemma grows_keeps {A} (m : M R A) :
  keeps (fun w => backup_file w) m -> grows m.
Proof. intros K w. rewrite (K w). apply extends_refl. Qed.

Lemma grows_bind {A B} (m : M R A) (k : A -> M R B) :
  grows m -> (forall a, grows (k a)) -> grows (bind m k).
Proof.
  intros Hm Hk w. unfold bind. specialize (Hm w).
  destruct (m w) as [[a|e|c] w1]; simpl in Hm |- *; try exact Hm.
  eapply extends_trans; [exact Hm | apply Hk].
Qed.

Lemma grows_try_catch {A} (m : M R A) (h : JsError -> M R A) :
  grows m -> (forall e, grows (h e)) -> grows (try_catch m h).
Proof.
  intros Hm Hh w. unfold try_catch. specialize (Hm w).
  destruct (m w) as [[a|e|c] w1]; simpl in Hm |- *; try exact Hm.
  eapply extends_trans; [exact Hm | apply Hh].
Qed.

Lemma grows_when (b : bool) (m : M R unit) : grows m -> grows (when b m).
Proof.
  destruct b; simpl; [auto|]. intros _ w. apply extends_refl.
Qed.

Lemma grows_createBackup : grows (createBackup (R := R)).
Proof.
  intros w. unfold createBackup, writeBackup, bind, read, now, modify, emit,
    ret.
  destruct (env_file w) as [content|]; [|apply extends_refl].
  destruct (backup_file w) as [existing|]; simpl; [|exact I].
  eexists. reflexivity.
Qed.

Lemma grows_backupIfDifferent options envContent :
  grows (backupIfDifferent (R := R) options envContent).
Proof.
  intros w.
  destruct (backupIfDifferent_spec options envContent w)
    as (w' & E & _ & _ & _ & H).
  rewrite E. simpl.
  destruct (pull_backs_up options (env_file w) envContent).
  - destruct H as (current & info & _ & -> & _).
    unfold capture. destruct (backup_file w); simpl; [|exact I].
    eexists. reflexivity.
  - subst w'. apply extends_refl.
Qed.

Lemma grows_rollbackBackup options : grows (rollbackBackup (R := R) options).
Proof.
  intros w. unfold rollbackBackup, copyEnvToBackup, appendBackup, writeBackup,
    readEnvFile, out_info, bind, read, now, modify, emit, ret.
  destruct (env_file w) as [content|] eqn:Ee; [|apply extends_refl].
  cbn -[backup_separator].
  destruct (backup_file w) as [existing|] eqn:Eb; cbn -[backup_separator];
    [|exact I].
  rewrite ?Ee, ?Eb.
  destruct (opt_json options); cbn -[backup_separator]; rewrite ?Eb;
    eexists; reflexivity.
Qed.

End Grows.

Ltac grows_step :=
  first
    [ assumption
    | apply grows_keeps; solve [keeps_tac]
    | lazymatch goal with
      | |- grows createBackup => apply grows_createBackup
      | |- grows (backupIfDifferent _ _) => apply grows_backupIfDifferent
      | |- grows (rollbackBackup _) => apply grows_rollbackBackup
      | |- grows (bind _ _) => apply grows_bind; [|intro]
      | |- grows (try_catch _ _) => apply grows_try_catch; [|intro]
      | |- grows (when _ _) => apply grows_when
      | |- grows (let _ := _ in _) => cbv zeta
      | |- grows (if ?b then _ else _) => destruct b
      | |- grows (match ?x with _ => _ end) => destruct x
      | |- grows _ => progress autounfold with cmd
      end ].

Ltac grows_tac := repeat grows_step.


(** ** Output in JSON mode *)
Section JsonRuns.
Variable R : Type.

Ltac silent_run :=
  let H := fresh in
  intros ? ? ? H; inversion H; subst; exists []; rewrite app_nil_r;
  repeat split.

Lemma json_run_ret {A} (a : A) : json_run 0 (ret (R := R) a).
Proof. silent_run. Qed.

Lemma json_run_throw {A} (d : nat) e :
  json_run d (throw (R := R) (A := A) e).
Proof. silent_run. Qed.

Lemma json_run_read {A} (f : World R -> A) : json_run 0 (read f).
Proof. silent_run. Qed.

Lemma json_run_lift {A} (r : Thrown A) : json_run 0 (lift (R := R) r).
Proof. destruct r; [apply json_run_ret | apply json_run_throw]. Qed.

Lemma json_run_modify (g : World R -> World R) :
  (forall w, events (g w) = events w) -> json_run 0 (modify g).
Proof.
  intros G w o w' H. inversion H; subst. exists []. rewrite app_nil_r, G.
  repeat split.
Qed.

Lemma json_run_emit (e : Event) :
  is_human e = false -> is_document e = false ->
  json_run 0 (emit (R := R) e).
Proof.
  intros Hh Hd w o w' H. inversion H; subst. exists [e]. simpl.
  unfold documents. simpl. rewrite Hh, Hd. repeat split.
Qed.

Lemma json_run_document (p : Payload) :
  json_run 1 (emit (R := R) (JsonOut p)).
Proof. intros w o w' H. inversion H; subst. exists [JsonOut p]. repeat split. Qed.

Lemma json_run_document_exit {A} (d : nat) (p : Payload) (c : Z) :
  json_run d (bind (emit (R := R) (JsonOut p)) (fun _ => exit (A := A) c)).
Proof. intros w o w' H. inversion H; subst. exists [JsonOut p]. repeat split. Qed.

Lemma json_run_now : json_run 0 (now (R := R)).
Proof. silent_run. Qed.

Lemma json_run_nextConfirm : json_run 0 (nextConfirm (R := R)).
Proof.
  intros w o w'. unfold nextConfirm.
  destruct (confirms w) as [|[b|] rest]; intros H; inversion H; subst;
    exists []; rewrite app_nil_r; repeat split.
Qed.

Lemma json_run_nextSelect choices : json_run 0 (nextSelect (R := R) choices).
Proof.
  intros w o w'. unfold nextSelect.
  destruct (selects w) as [|[i|] rest];
    [| destruct (nth_error choices i) as [[? ?]|] |];
    intros H; inversion H; subst; exists []; rewrite app_nil_r; repeat split.
Qed.

Lemma json_run_request {A} (c : Call) (g : R -> Thrown A * R) :
  json_run 0 (request c g).
Proof.
  intros w o w'. unfold request.
  destruct (g (remote w)) as [[a|e] r]; intros H; inversion H; subst;
    eexists [_]; repeat split.
Qed.

Lemma json_run_raises {A} (d : nat) (m : M R A) e :
  (forall w, m w = (Raised e, w)) -> json_run d m.
Proof.
  intros E w o w' H. rewrite E in H. inversion H; subst. exists [].
  rewrite app_nil_r. repeat split.
Qed.

Lemma json_run_bind {A B} (d : nat) (m : M R A) (k : A -> M R B) :
  json_run 0 m -> (forall a, json_run d (k a)) -> json_run d (bind m k).
Proof.
  intros Hm Hk w o w'. unfold bind.
  destruct (m w) as [[a|e|c] w1] eqn:E;
    destruct (Hm _ _ _ E) as (l1 & L1 & F1 & D1).
  - intros H. destruct (Hk a _ _ _ H) as (l2 & L2 & F2 & D2).
    exists (l1 ++ l2). rewrite L2, L1, app_assoc, forallb_app, F1, F2.
    repeat split. unfold documents in *.
    rewrite filter_app, length_app, D1, D2. reflexivity.
  - intros H. inversion H; subst. exists l1. auto.
  - intros H. inversion H; subst. exists l1. auto.
Qed.

Lemma json_run_bind_ret {A B} (d : nat) (a : A) (k : A -> M R B) :
  json_run d (k a) -> json_run d (bind (ret a) k).
Proof. intros H. exact H. Qed.

Lemma json_run_try_catch {A} (d : nat) (m : M R A) (h : JsError -> M R A) :
  json_run d m -> (forall e, json_run d (h e)) -> json_run d (try_catch m h).
Proof.
  intros Hm Hh w o w'. unfold try_catch.
  destruct (m w) as [[a|e|c] w1] eqn:E;
    destruct (Hm _ _ _ E) as (l1 & L1 & F1 & D1).
  - intros H. inversion H; subst. exists l1. auto.
  - intros H. destruct (Hh e _ _ _ H) as (l2 & L2 & F2 & D2).
    exists (l1 ++ l2). rewrite L2, L1, app_assoc, forallb_app, F1, F2.
    repeat split. unfold documents in *.
    rewrite filter_app, length_app, D1, D2. reflexivity.
  - intros H. inversion H; subst. exists l1. auto.
Qed.

Lemma json_run_when (b : bool) (m : M R unit) :
  json_run 0 m -> json_run 0 (when b m).
Proof. destruct b; simpl; [auto | intros _; apply json_run_ret]. Qed.

Lemma json_run_fold_right {A} (step : A -> M R unit -> M R unit)
  (l : list A) :
  (forall a rest, json_run 0 rest -> json_run 0 (step a rest)) ->
  json_run 0 (fold_right step (ret tt) l).
Proof.
  intros H. induction l as [|a l IH]; simpl;
    [apply json_run_ret | apply H; exact IH].
Qed.

(** A command does not throw: its [catch] exits. *)
Lemma command_never_raises options fallback unauthorized (body : M R unit)
  (w : World R) e :
  fst (command options fallback unauthorized body w) <> Raised e.
Proof.
  unfold command, try_catch.
  destruct (body w) as [[a|x|c] w1]; try discriminate.
  rewrite report_error_run. discriminate.
Qed.

Lemma json_run_command (m : M R unit) (w : World R) :
  json_run 1 m -> (forall e, fst (m w) <> Raised e) ->
  exists l,
    events (snd (m w)) = events w ++ l
    /\ forallb (fun e => negb (is_human e)) l = true
    /\ documents l = 1%nat.
Proof.
  intros J N. destruct (m w) as [o w'] eqn:E.
  destruct (J _ _ _ E) as (l & L & F & D). exists l.
  simpl in *. destruct o; [auto | elim (N e); reflexivity | auto].
Qed.

End JsonRuns.

(** Every definition opened, the mode put in, and the tests it decides
    decided. *)
Ltac json_open J :=
  repeat autounfold with cli;
  repeat (progress (try unfold pullFetch; try unfold backupIfDifferent;
                    try unfold forcedRetry);
          repeat autounfold with cli);
  rewrite ?J; cbn [negb andb orb];
  rewrite ?andb_false_r; cbn [negb andb orb].

Ltac json_step :=
  first [ assumption | lazymatch goal with
  | |- json_run _ (bind (emit (JsonOut _)) (fun _ => exit _)) =>
      apply json_run_document_exit
  | |- json_run _ (bind (if ?c then _ else _) _) => destruct c
  | |- json_run _ (bind (ret _) _) => apply json_run_bind_ret; cbv beta iota
  | |- json_run _ (bind _ _) =>
      first [ solve [eapply json_run_raises; intro; reflexivity]
            | apply json_run_bind; [|intro] ]
  | |- json_run _ (try_catch _ _) => apply json_run_try_catch; [|intro]
  | |- json_run _ (ret _) => apply json_run_ret
  | |- json_run _ (throw _) => apply json_run_throw
  | |- json_run _ (read _) => apply json_run_read
  | |- json_run _ (lift _) => apply json_run_lift
  | |- json_run _ (when _ _) => apply json_run_when
  | |- json_run _ (modify _) => apply json_run_modify; side
  | |- json_run _ (emit (JsonOut _)) => apply json_run_document
  | |- json_run _ (emit _) => apply json_run_emit; reflexivity
  | |- json_run _ now => apply json_run_now
  | |- json_run _ nextConfirm => apply json_run_nextConfirm
  | |- json_run _ (nextSelect _) => apply json_run_nextSelect
  | |- json_run _ (request _ _) => apply json_run_request
  | |- json_run _ (fold_right _ _ _) => apply json_run_fold_right; intros
  | |- json_run _ (let _ := _ in _) => cbv zeta
  | |- json_run _ (if ?b then _ else _) => destruct b
  | |- json_run _ (match ?x with _ => _ end) => destruct x
  end ].

Ltac json_tac := repeat json_step.

Section JsonCommands.
Variable R : Type.
Variable api : Api R.
Variable localeCompare : jstring -> jstring -> Z.
Variable options : CLIOptions.
Hypothesis J : opt_json options = true.

Lemma printCommand_json :
  json_run 1 (printCommand (R := R) localeCompare options).
Proof. json_open J. json_tac. Qed.

Lemma rollbackCommand_json :
  json_run 1 (rollbackCommand api localeCompare options).
Proof. json_open J. json_tac. Qed.

Lemma pullCommand_json :
  json_run 1 (pullCommand api localeCompare options).
Proof. json_open J. json_tac. Qed.

Lemma pushCommand_json :
  json_run 1 (pushCommand api localeCompare options).
Proof. json_open J. json_tac. Qed.

End JsonCommands.

(** X17: with [--json], each of pull, push, rollback
    and print shows nothing meant for a person, asks nothing, and
    prints exactly one JSON document, however the run ends. *)
Theorem json_mode_prints_one_document
  (R : Type) (api : Api R) (localeCompare : jstring -> jstring -> Z)
  (options : CLIOptions) (w : World R) :
  opt_json options = true ->
  let machine_readable (run : Outcome unit * World R) :=
    exists l,
      events (snd run) = events w ++ l
      /\ forallb (fun e => negb (is_human e)) l = true
      /\ documents l = 1%nat in
  machine_readable (pullCommand api localeCompare options w)
  /\ machine_readable (pushCommand api localeCompare options w)
  /\ machine_readable (rollbackCommand api localeCompare options w)
  /\ machine_readable (printCommand localeCompare options w).
Proof.
  intros J machine_readable. unfold machine_readable. repeat split.
  - apply json_run_command; [apply pullCommand_json; exact J|].
    intros e. apply command_never_raises.
  - apply json_run_command; [apply pushCommand_json; exact J|].
    intros e. apply command_never_raises.
  - apply json_run_command; [apply rollbackCommand_json; exact J|].
    intros e. apply command_never_raises.
  - apply json_run_command; [apply printCommand_json; exact J|].
    intros e. apply command_never_raises.
Qed.

Lemma json_mode_prints_one_document_witness :
  exists l,
    events (snd (pushCommand Remote.api asciiCollate Cases.json
                   (Scenes.conflict [Some true])))
    = events (Scenes.conflict [Some true]) ++ l
    /\ forallb (fun e => negb (is_human e)) l = true
    /\ documents l = 1%nat.
Proof.
  exact (proj1 (proj2 (@json_mode_prints_one_document _ Remote.api
                         asciiCollate Cases.json
                         (Scenes.conflict [Some true]) eq_refl))).
Defined.

(** ** Runs on a service token *)

Ltac token_open T :=
  repeat autounfold with cli;
  repeat (progress (try unfold pullFetch; try unfold backupIfDifferent;
                    try unfold forcedRetry);
          repeat autounfold with cli);
  rewrite ?T; cbn [negb andb orb when];
  rewrite ?andb_false_r, ?orb_true_r; cbn [negb andb orb when].

Ltac token_step :=
  first
    [ lazymatch goal with
      | |- logs _ (if ?b then _ else _) =>
          progress (rewrite ?andb_false_r, ?orb_true_r;
                    cbn [negb andb orb when])
      end
    | logs_step ].

Ltac token_tac := repeat token_step.

Section TokenCommands.
Variable R : Type.
Variable api : Api R.
Variable localeCompare : jstring -> jstring -> Z.
Variable options : CLIOptions.
Hypothesis T : opt_token options = true.

Lemma pullCommand_token :
  logs unattended (pullCommand api localeCompare options).
Proof. token_open T. token_tac. Qed.

Lemma pushCommand_token :
  logs unattended (pushCommand api localeCompare options).
Proof. token_open T. token_tac. Qed.

Lemma pullCommand_tracked_backup :
  tracked not_backup_write (fun w : World R => backup_file w)
    (pullCommand api localeCompare options).
Proof. tracked_tac. Qed.

Lemma pushCommand_tracked_backup :
  tracked not_backup_write (fun w : World R => backup_file w)
    (pushCommand api localeCompare options).
Proof. tracked_tac. Qed.

Lemma unattended_no_backup (e : Event) :
  unattended e = true -> not_backup_write e = true.
Proof.
  unfold unattended, not_backup_write. intros H.
  apply andb_true_iff in H. tauto.
Qed.

End TokenCommands.

(** X18: on a service token, pull and push ask nothing
    and write no backup: no prompt is shown, and the backup file is as
    it was, however the run ends. *)
Theorem token_mode_is_unattended
  (R : Type) (api : Api R) (localeCompare : jstring -> jstring -> Z)
  (options : CLIOptions) (w : World R) :
  opt_token options = true ->
  let unattended_run (run : Outcome unit * World R) :=
    backup_file (snd run) = backup_file w
    /\ exists l,
         events (snd run) = events w ++ l
         /\ forallb (fun e => negb (is_prompt e)) l = true
         /\ forallb not_backup_write l = true in
  unattended_run (pullCommand api localeCompare options w)
  /\ unattended_run (pushCommand api localeCompare options w).
Proof.
  intros T unattended_run. unfold unattended_run.
  assert (U : forall l, forallb unattended l = true ->
                forallb (fun e => negb (is_prompt e)) l = true
                /\ forallb not_backup_write l = true).
  { induction l as [|e l IH]; simpl; [auto|]. unfold unattended at 1.
    unfold not_backup_write at 1. intros H.
    apply andb_true_iff in H. destruct H as [H1 H2].
    apply andb_true_iff in H1. destruct H1 as [-> ->].
    destruct (IH H2) as [-> ->]. auto. }
  assert (Lpull := @pullCommand_token R api localeCompare options T).
  assert (Lpush := @pushCommand_token R api localeCompare options T).
  split.
  - split.
    + apply (@quiet_keeps R unit _ not_backup_write
               (fun w => backup_file w)
               (pullCommand api localeCompare options)).
      * apply (logs_weaken (ok := unattended));
          [apply unattended_no_backup | exact Lpull].
      * exact (@pullCommand_tracked_backup R api localeCompare options T).
    + destruct (Lpull w) as [l [L F]].
      exists l. split; [exact L | apply U; exact F].
  - split.
    + apply (@quiet_keeps R unit _ not_backup_write
               (fun w => backup_file w)
               (pushCommand api localeCompare options)).
      * apply (logs_weaken (ok := unattended));
          [apply unattended_no_backup | exact Lpush].
      * exact (@pushCommand_tracked_backup R api localeCompare options T).
    + destruct (Lpush w) as [l [L F]].
      exists l. split; [exact L | apply U; exact F].
Qed.

Lemma token_mode_is_unattended_witness :
  backup_file (snd (pushCommand Remote.api asciiCollate Cases.token
                      Cases.with_backup))
  = backup_file Cases.with_backup.
Proof.
  exact (proj1 (proj2 (@token_mode_is_unattended _ Remote.api asciiCollate
                         Cases.token Cases.with_backup eq_refl))).
Defined.

(** ** What a completed run has done *)
Section Completed.
Variable R : Type.
Variable api : Api R.
Variable localeCompare : jstring -> jstring -> Z.

Lemma request_done {A} (c : Call) (g : R -> Thrown A * R) (w w' : World R) a :
  request c g w = (Done a, w') -> exists r', g (remote w) = (Ret a, r').
Proof.
  unfold request. destruct (g (remote w)) as [[x|e] r']; [|discriminate].
  intros H. injection H as -> _. exists r'. reflexivity.
Qed.

Lemma command_done_inv options fallback unauthorized (body : M R unit)
  (w w' : World R) :
  command options fallback unauthorized body w = (Done tt, w') ->
  body w = (Done tt, w').
Proof.
  unfold command, try_catch. destruct (body w) as [[[]|e|c] w1]; auto.
  - rewrite report_error_run. discriminate.
Qed.

Lemma getLocalOverridesM_done (w w' : World R) overrides :
  getLocalOverridesM w = (Done overrides, w') ->
  getLocalOverrides (local_file w) = Ret overrides /\ w' = w.
Proof.
  unfold getLocalOverridesM, bind, read, lift.
  destruct (getLocalOverrides (local_file w)); [|discriminate].
  intros H. injection H as -> ->. auto.
Qed.

Lemma resolveContextM_done options skipLocal (w w' : World R) c :
  resolveContextM options skipLocal w = (Done c, w') ->
  resolveContext options (shared_file w) (local_file w) skipLocal = Ret c
  /\ w' = w.
Proof.
  rewrite resolveContextM_run.
  destruct (resolveContext _ _ _ _); [|discriminate].
  intros H. injection H as -> ->. auto.
Qed.

(** A step that returns and keeps [f], then the rest. *)
Lemma bind_done_keeps {A B X} (f : World R -> X) (m : M R A)
  (k : A -> M R B) (w w' : World R) b :
  keeps f m -> bind m k w = (Done b, w') ->
  exists a w1, m w = (Done a, w1) /\ f w1 = f w /\ k a w1 = (Done b, w').
Proof.
  intros K H. destruct (bind_done H) as (a & w1 & Hm & Hk).
  exists a, w1. specialize (K w). rewrite Hm in K. auto.
Qed.

(** Once a version is recorded and the rest leaves the tracker alone,
    the tracker holds it. *)
Lemma recorded_then {B} (context : ResolvedContext) (v : Z)
  (k : unit -> M R B) (w : World R) :
  (forall u, keeps (fun w : World R => tracker_file w) (k u)) ->
  exists timestamp,
    getVersionInfo
      (tracker_file (snd (bind (recordVersion context v) k w)))
      (org context) (project context) (environment context)
    = Some (mkTracker (org context) (project context) (environment context)
              v timestamp).
Proof.
  intros K. unfold recordVersion, updateVersionInfoM.
  unfold bind at 1 2 3. unfold now, modify, emit.
  cbn -[updateVersionInfo tracker_key].
  rewrite (K tt). cbn -[updateVersionInfo tracker_key].
  eexists. apply getVersionInfo_updated.
Qed.

Lemma pullFinish_records options f envContent (w : World R) :
  let c := f_context f in
  exists timestamp,
    getVersionInfo
      (tracker_file (snd (pullFinish options f envContent w)))
      (org c) (project c) (environment c)
    = Some (mkTracker (org c) (project c) (environment c)
              (version_number (f_snapshot f)) timestamp).
Proof.
  cbv zeta. unfold pullFinish. cbv zeta.
  unfold writeEnvFile, ensureGitignore.
  unfold bind at 1 2 3. unfold modify at 1, emit at 1 2.
  unfold modify at 1. cbv beta iota.
  apply recorded_then. intros u. keeps_tac.
Qed.

(** What pull has in hand once the fetch is over. *)
Lemma pullFetch_done options (w w1 : World R) f :
  pullFetch api options w = (Done f, w1) ->
  fetched_from api options (f_snapshot f)
  /\ if opt_token options
     then f_finalEnv f = parseEnvContent (plaintext (f_snapshot f))
     else exists overrides,
            getLocalOverrides (local_file w) = Ret overrides
            /\ f_finalEnv f = merged (f_snapshot f) overrides.
Proof.
  intros H.
  pose proof (pullFetch_keeps api options w) as K. rewrite H in K.
  simpl in K. unfold persisted in K. injection K as _ _ _ Kl _ _.
  unfold pullFetch in H.
  apply bind_done in H. destruct H as (tok & wa & _ & H).
  apply bind_done in H. destruct H as (resolved & wb & _ & H).
  apply bind_done in H. destruct H as (context & wc & _ & H).
  apply bind_done in H. destruct H as (u1 & wd & _ & H).
  apply bind_done in H. destruct H as (envData & we & _ & H).
  apply bind_done in H. destruct H as (snapshot & wf & Hs & H).
  cbv zeta in H.
  apply bind_done in H. destruct H as (u2 & wg & _ & H).
  assert (F : fetched_from api options snapshot).
  { unfold fetched_from.
    destruct (nonzero (opt_version options)) as [version|];
      destruct (request_done _ _ _ Hs) as [r' E]; eauto. }
  destruct (opt_token options); cbn [negb] in H.
  - injection H as <- _. simpl. auto.
  - apply bind_done in H. destruct H as (overrides & wh & Ho & H).
    apply getLocalOverridesM_done in Ho. destruct Ho as [Ho ->].
    injection H as <- <-. simpl. split; [exact F|].
    exists overrides. rewrite <- Kl. auto.
Qed.

End Completed.



Section CompletedMore.
Variable R : Type.
Variable api : Api R.
Variable localeCompare : jstring -> jstring -> Z.

Lemma request_answered {A} (c : Call) (g : R -> Thrown A * R)
  (w w' : World R) a :
  request c g w = (Done a, w') -> answered g a.
Proof.
  intros H. destruct (request_done _ _ _ H) as [r' E].
  exists (remote w), r'. exact E.
Qed.

Lemma keeps_bind {A B X} (f : World R -> X) (m : M R A) (k : A -> M R B) :
  keeps f m -> (forall a, keeps f (k a)) -> keeps f (bind m k).
Proof.
  intros Km Kk w. unfold bind. specialize (Km w).
  destruct (m w) as [[a|e|c] w1]; simpl in *; try exact Km.
  rewrite (Kk a w1). exact Km.
Qed.

(** The working file is written, the version recorded, and the rest
    leaves both alone. *)
Lemma written_recorded_then {B} (content : jstring)
  (context : ResolvedContext) (v : Z) (k : unit -> M R B) (w w' : World R)
  (o : Outcome B) :
  (forall u, keeps (fun w : World R => tracker_file w) (k u)) ->
  (forall u, keeps (fun w : World R => env_file w) (k u)) ->
  bind (writeEnvFile content) (fun _ => bind (recordVersion context v) k) w
  = (o, w') ->
  env_file w' = Some content /\ tracks (tracker_file w') context v.
Proof.
  intros Kt Ke.
  set (wa := set_events (set_env_file w (Some content))
               (events (set_env_file w (Some content))
                ++ [EnvWritten content])).
  change (bind (writeEnvFile content)
               (fun _ => bind (recordVersion context v) k) w)
    with (bind (recordVersion context v) k wa).
  intros E. split.
  - assert (K : keeps (fun w : World R => env_file w)
                  (bind (recordVersion context v) k)).
    { apply keeps_bind; [keeps_tac | exact Ke]. }
    specialize (K wa). rewrite E in K. exact K.
  - pose proof (recorded_then context v k wa Kt) as T.
    rewrite E in T. exact T.
Qed.

Lemma requireAuth_done (w w' : World R) :
  requireAuth w = (Done tt, w') -> w' = w.
Proof.
  unfold requireAuth, bind, read. destruct (truthy (credentials w));
    [|discriminate].
  intros H. injection H as <-. reflexivity.
Qed.

End CompletedMore.



(** ** A push that completes *)
Section CompletedPush.
Variable R : Type.
Variable api : Api R.
Variable localeCompare : jstring -> jstring -> Z.

(** The text push submits is the serialisation of the mapping it
    submits. *)
Lemma pushPrepare_done options (w w1 : World R) s :
  pushPrepare api localeCompare options w = (Done s, w1) ->
  sub_plaintext s = formatEnvContent localeCompare (sub_localEnv s).
Proof.
  intros H. unfold pushPrepare in H.
  apply bind_done in H. destruct H as (tok & wa & _ & H).
  apply bind_done in H. destruct H as (resolved & wb & _ & H).
  destruct resolved as [context|]; [|discriminate].
  apply bind_done in H. destruct H as (envContent & wc & _ & H).
  destruct (is_empty (trim envContent)); [discriminate|]. cbv zeta in H.
  apply bind_done in H. destruct H as (overrides & wd & _ & H).
  apply bind_done in H. destruct H as (localEnv & we & _ & H).
  apply bind_done in H. destruct H as (envData & wf & _ & H).
  apply bind_done in H. destruct H as (base & wg & _ & H).
  apply bind_done in H. destruct H as (u & wh & _ & H).
  injection H as <- _. reflexivity.
Qed.

(** A submission that is accepted is recorded. *)
Lemma submitted_recorded {B} (c : Call) (g : R -> Thrown PushedVersion * R)
  (context : ResolvedContext) (k : PushedVersion -> unit -> M R B)
  (w w' : World R) (b : B) :
  (forall v u, keeps (fun w : World R => tracker_file w) (k v u)) ->
  bind (request c g)
       (fun result =>
          bind (recordVersion context (pv_version_number result)) (k result))
       w
  = (Done b, w') ->
  exists v, answered g v /\ tracks (tracker_file w') context
                                   (pv_version_number v).
Proof.
  intros K H. apply bind_done in H. destruct H as (v & wa & Ha & H).
  exists v. split; [exact (request_answered _ _ _ Ha)|].
  pose proof (recorded_then context (pv_version_number v) (k v) wa (K v)) as T.
  rewrite H in T. exact T.
Qed.

Lemma pushSubmit_done options s (w w' : World R) :
  pushSubmit api options s w = (Done tt, w') ->
  exists base v,
    (base = sub_base s \/ base = None)
    /\ answered (pushVersion api (env_id (sub_env s)) (sub_plaintext s) base
                   (sub_token s)) v
    /\ tracks (tracker_file w') (sub_context s) (pv_version_number v).
Proof.
  unfold pushSubmit. cbv zeta. unfold try_catch.
  match goal with
  | |- context [match ?m w with _ => _ end] =>
      destruct (m w) as [[[]|e|c] w1] eqn:E
  end; [| |discriminate].
  - intros H. injection H as <-.
    apply submitted_recorded in E; [|intros v u; keeps_tac].
    destruct E as (v & A & T). exists (sub_base s), v. auto.
  - destruct (is_conflict e); [|discriminate].
    intros H.
    apply bind_done in H. destruct H as (u1 & wa & _ & H).
    apply bind_done in H. destruct H as (u2 & wb & _ & H).
    apply bind_done in H. destruct H as (retried & wc & Hr & H).
    destruct retried; [|discriminate]. injection H as <-.
    unfold forcedRetry in Hr.
    destruct (negb (opt_force options) && negb (opt_token options));
      [|discriminate].
    apply bind_done in Hr. destruct Hr as (forcePush & wd & _ & Hr).
    destruct forcePush; [|discriminate].
    apply submitted_recorded in Hr; [|intros v u; keeps_tac].
    destruct Hr as (v & A & T). exists None, v. auto.
Qed.

End CompletedPush.



(** ** The keys held back from a push *)
Section HeldBack.
Variable R : Type.

Lemma obj_get_delete {V} (k k' : jstring) (o : Record V) :
  obj_get (obj_delete k o) k'
  = if jstr_eqb k k' then None else obj_get o k'.
Proof.
  unfold obj_delete. induction o as [|[k0 v0] o IH]; simpl.
  - destruct (jstr_eqb k k'); reflexivity.
  - destruct (jstr_eqb k0 k) eqn:E0; simpl.
    + apply jstr_eqb_eq in E0. subst k0. rewrite IH.
      destruct (jstr_eqb k k'); reflexivity.
    + rewrite IH. destruct (jstr_eqb k0 k') eqn:E1; [|reflexivity].
      apply jstr_eqb_eq in E1. subst k0.
      rewrite jstr_eqb_sym, E0. reflexivity.
Qed.

Lemma obj_get_delete_all {V} (ks : list jstring) (o : Record V) (k' : jstring) :
  obj_get (fold_left (fun env key => obj_delete key env) ks o) k'
  = if has ks k' then None else obj_get o k'.
Proof.
  revert o. induction ks as [|k ks IH]; intros o; simpl; [reflexivity|].
  rewrite IH, obj_get_delete. rewrite (jstr_eqb_sym k' k).
  destruct (jstr_eqb k k'); simpl; [|reflexivity].
  destruct (has ks k'); reflexivity.
Qed.

Lemma bind_total_keeps {A B X} (f : World R -> X) (m : M R A)
  (k : A -> M R B) (w : World R) :
  total m -> keeps f m ->
  exists a w1, bind m k w = k a w1 /\ f w1 = f w.
Proof.
  intros T K. destruct (T w) as (a & w1 & E). exists a, w1.
  split; [apply (bind_run k E)|]. specialize (K w). rewrite E in K. exact K.
Qed.

Lemma confirm_run message options (w : World R) answer rest :
  opt_json options = false -> confirms w = Some answer :: rest ->
  confirm message options w
  = (Done answer,
     set_confirms (set_events w (events w ++ [Prompt message])) rest).
Proof.
  intros J C. unfold confirm. rewrite J.
  unfold bind, emit, modify, nextConfirm. cbn. rewrite C. reflexivity.
Qed.

End HeldBack.



(** ** The working file *)
Section WorkingFile.
Variable R : Type.
Variable api : Api R.
Variable localeCompare : jstring -> jstring -> Z.

Lemma pullCommand_fails_keeping_env options :
  fails_keeping (fun w : World R => env_file w)
    (pullCommand api localeCompare options).
Proof. fails_tac. Qed.

Lemma rollbackCommand_fails_keeping_env options :
  fails_keeping (fun w : World R => env_file w)
    (rollbackCommand api localeCompare options).
Proof. fails_tac. Qed.

Lemma pushCommand_keeps_env options :
  keeps (fun w : World R => env_file w)
    (pushCommand api localeCompare options).
Proof. keeps_tac. Qed.

End WorkingFile.


(** ** What was asked before a pull overwrites *)
Section PullConfirmed.
Variable R : Type.
Variable api : Api R.

Lemma confirm_done message options (w w' : World R) b :
  confirm message options w = (Done b, w') ->
  exists rest, confirms w = Some b :: rest.
Proof.
  unfold confirm. destruct (opt_json options); [discriminate|].
  unfold bind, emit, modify, nextConfirm. cbn.
  destruct (confirms w) as [|[x|] rest]; try discriminate.
  intros H. injection H as -> _. exists rest. reflexivity.
Qed.

Lemma pullFetch_confirmed options (w w1 : World R) f :
  opt_json options = false -> opt_token options = false ->
  pullFetch api options w = (Done f, w1) ->
  version_number (f_snapshot f) = 0%Z
  \/ parseEnvContent (plaintext (f_snapshot f)) = [] ->
  exists rest, confirms w = Some true :: rest.
Proof.
  intros J T H E. unfold pullFetch in H.
  apply (@bind_done_keeps R _ _ _ (fun w => confirms w)) in H; [|keeps_tac].
  destruct H as (tok & wa & _ & Ka & H).
  apply (@bind_done_keeps R _ _ _ (fun w => confirms w)) in H; [|keeps_tac].
  destruct H as (resolved & wb & _ & Kb & H).
  apply (@bind_done_keeps R _ _ _ (fun w => confirms w)) in H; [|keeps_tac].
  destruct H as (context & wc & _ & Kc & H).
  apply (@bind_done_keeps R _ _ _ (fun w => confirms w)) in H; [|keeps_tac].
  destruct H as (u1 & wd & _ & Kd & H).
  apply (@bind_done_keeps R _ _ _ (fun w => confirms w)) in H; [|keeps_tac].
  destruct H as (envData & we & _ & Ke & H).
  apply (@bind_done_keeps R _ _ _ (fun w => confirms w)) in H; [|keeps_tac].
  destruct H as (snapshot & wf & _ & Kf & H).
  cbv zeta in H. rewrite J, T in H. cbn [negb andb] in H.
  apply bind_done in H. destruct H as (u2 & wg & Hc & H).
  apply bind_done in H. destruct H as (overrides & wh & _ & H).
  injection H as <- _. cbn [f_snapshot] in E.
  assert (C : ((version_number snapshot =? 0)%Z
               || (keyCount (parseEnvContent (plaintext snapshot)) =? 0)%Z)
              = true).
  { destruct E as [-> | ->]; [reflexivity | apply orb_true_r]. }
  rewrite C, ?andb_true_r in Hc. cbn [andb] in Hc.
  apply (@bind_done_keeps R _ _ _ (fun w => confirms w)) in Hc; [|keeps_tac].
  destruct Hc as (u3 & wi & _ & Ki & Hc).
  apply bind_done in Hc. destruct Hc as (shouldContinue & wj & Hq & Hc).
  destruct shouldContinue.
  - destruct (confirm_done _ _ _ Hq) as [rest Q]. exists rest.
    rewrite <- Ka, <- Kb, <- Kc, <- Kd, <- Ke, <- Kf, <- Ki. exact Q.
  - exfalso. revert Hc. unfold out_info. rewrite J. discriminate.
Qed.

End PullConfirmed.



(** ** The base of a push *)
Section PushBase.
Variable R : Type.
Variable api : Api R.
Variable localeCompare : jstring -> jstring -> Z.

Lemma determineBase_done options context envData (w w' : World R) base :
  determineBase api options context envData w = (Done base, w') ->
  if opt_force options || opt_token options then base = None
  else
    match getVersionInfo (tracker_file w) (org context) (project context)
            (environment context) with
    | Some info => base = Some (base_version info)
    | None =>
        base = None
        \/ exists snapshot,
             answered (getCurrentVersion api (env_id envData) None) snapshot
             /\ base = Some (version_number snapshot)
    end.
Proof.
  unfold determineBase. destruct (opt_force options || opt_token options).
  - intros H. apply bind_done in H. destruct H as (u & wa & _ & H).
    injection H as <- _. reflexivity.
  - unfold getVersionInfoM. unfold bind at 1 2. unfold read, ret.
    destruct (getVersionInfo (tracker_file w) (org context) (project context)
                (environment context)) as [info|].
    + intros H. injection H as <- _. reflexivity.
    + unfold try_catch.
      match goal with
      | |- context [match ?m w with _ => _ end] =>
          destruct (m w) as [[b|e|c] w1] eqn:E
      end.
      * intros H. injection H as <- _.
        apply bind_done in E. destruct E as (snapshot & wa & Ha & E).
        injection E as <- _. right. exists snapshot.
        split; [exact (request_answered _ _ _ Ha) | reflexivity].
      * intros H. injection H as <- _. left. reflexivity.
      * discriminate.
Qed.

Lemma pushPrepare_base options (w w1 : World R) s :
  pushPrepare api localeCompare options w = (Done s, w1) ->
  if opt_force options || opt_token options then sub_base s = None
  else
    match getVersionInfo (tracker_file w) (org (sub_context s))
            (project (sub_context s)) (environment (sub_context s)) with
    | Some info => sub_base s = Some (base_version info)
    | None =>
        sub_base s = None
        \/ exists snapshot,
             answered (getCurrentVersion api (env_id (sub_env s)) None)
                      snapshot
             /\ sub_base s = Some (version_number snapshot)
    end.
Proof.
  intros H. unfold pushPrepare in H.
  apply (@bind_done_keeps R _ _ _ (fun w => tracker_file w)) in H;
    [|keeps_tac].
  destruct H as (tok & wa & _ & Ka & H).
  apply (@bind_done_keeps R _ _ _ (fun w => tracker_file w)) in H;
    [|keeps_tac].
  destruct H as (resolved & wb & _ & Kb & H).
  destruct resolved as [context|]; [|discriminate].
  apply (@bind_done_keeps R _ _ _ (fun w => tracker_file w)) in H;
    [|keeps_tac].
  destruct H as (envContent & wc & _ & Kc & H).
  destruct (is_empty (trim envContent)); [discriminate|]. cbv zeta in H.
  apply (@bind_done_keeps R _ _ _ (fun w => tracker_file w)) in H;
    [|keeps_tac].
  destruct H as (overrides & wd & _ & Kd & H).
  apply (@bind_done_keeps R _ _ _ (fun w => tracker_file w)) in H;
    [|keeps_tac].
  destruct H as (localEnv & we & _ & Ke & H).
  apply (@bind_done_keeps R _ _ _ (fun w => tracker_file w)) in H;
    [|keeps_tac].
  destruct H as (envData & wf & _ & Kf & H).
  apply bind_done in H. destruct H as (base & wg & Hb & H).
  apply bind_done in H. destruct H as (u & wh & _ & H).
  injection H as <- _. cbn [sub_base sub_context sub_env].
  apply determineBase_done in Hb.
  rewrite Kf, Ke, Kd, Kc, Kb, Ka in Hb. exact Hb.
Qed.

End PushBase.



(** ** What rollback puts in the backup *)
Section RollbackBackup.
Variable R : Type.

Lemma rollbackBackup_done options (w w' : World R) content :
  env_file w = Some content ->
  rollbackBackup options w = (Done tt, w') ->
  backup_file w'
  = Some (match backup_file w with
          | Some existing =>
              existing ++ backup_separator (clock w (ticks w)) ++ content
          | None => content
          end).
Proof.
  intros E. unfold rollbackBackup, bind at 1, read. rewrite E. cbn [is_some].
  unfold bind at 1, now. unfold bind at 1, read. cbn [backup_file set_ticks].
  destruct (backup_file w) as [existing|] eqn:B.
  - unfold readEnvFile, appendBackup, writeBackup, out_info, bind, read,
      modify, emit, ret. cbn. rewrite E, B.
    destruct (opt_json options); intros H; injection H as <-; cbn;
      reflexivity.
  - unfold copyEnvToBackup, writeBackup, out_info, bind, read, modify, emit,
      ret. cbn. rewrite E.
    destruct (opt_json options); intros H; injection H as <-; cbn;
      reflexivity.
Qed.

End RollbackBackup.

(** X26: a rollback that completes on a directory with a
    working file has saved that file before replacing it: the backup
    file then is the old working file when there was no backup, and
    otherwise the old backup, a dated separator and the old working
    file. *)
Theorem rollback_saves_working_file
  (R : Type) (api : Api R) (localeCompare : jstring -> jstring -> Z)
  (options : CLIOptions) (w w' : World R) (content : jstring) :
  rollbackCommand api localeCompare options w = (Done tt, w') ->
  env_file w = Some content ->
  match backup_file w with
  | None => backup_file w' = Some content
  | Some existing =>
      exists timestamp,
        backup_file w'
        = Some (existing ++ backup_separator timestamp ++ content)
  end.
Proof.
  intros H E. apply command_done_inv in H.
  apply bind_done in H. destruct H as ([] & wa & Ha & H).
  apply requireAuth_done in Ha. subst wa.
  destruct (nonzero (opt_target options)) as [target|]; [|discriminate].
  pose (f := fun w : World R => (env_file w, backup_file w)).
  apply (@bind_done_keeps R _ _ _ f) in H; [|keeps_tac].
  destruct H as (resolved & wb & _ & Kb & H).
  destruct resolved as [context|]; [|discriminate].
  apply (@bind_done_keeps R _ _ _ f) in H; [|keeps_tac].
  destruct H as (envData & wc & _ & Kc & H).
  apply (@bind_done_keeps R _ _ _ f) in H; [|keeps_tac].
  destruct H as (result & wd & _ & Kd & H).
  unfold rollbackApply in H.
  apply bind_done in H. destruct H as ([] & we & He & H).
  assert (K : keeps (fun w : World R => backup_file w)
                   (snapshot <-
                      request (GetCurrentVersion (env_id envData) None)
                        (getCurrentVersion api (env_id envData) None) ;;
                    let baseEnv := parseEnvContent (plaintext snapshot) in
                    localOverrides <- getLocalOverridesM ;;
                    let finalEnv := applyOverrides baseEnv localOverrides in
                    let envContent := formatEnvContent localeCompare finalEnv in
                    writeEnvFile envContent ;;;
                    recordVersion context (version_number snapshot) ;;;
                    sendTelemetryEvent "cli.rollback" ;;;
                    if opt_json options then
                      out_json [("status"%string, JText "success");
                                ("rollback"%string, JRollback result)]
                    else
                      out_success options
                        [Text "Rolled back from v";
                         Num (rolled_back_from result);
                         Text " to v"; Num (rolled_back_to result)] ;;;
                      out_info options
                        [Text "New version: v";
                         Num (rb_version_number result)] ;;;
                      out_info options
                        [Str [LF];
                         Text "✓ Updated .env with rolled back version"])).
  { keeps_tac. }
  specialize (K we). cbv beta zeta in H, K. rewrite H in K. cbn [snd] in K.
  assert (F : f wd = f w) by (rewrite Kd, Kc, Kb; reflexivity).
  unfold f in F. injection F as Fe Fb.
  apply (@rollbackBackup_done R options wd we content) in He;
    [|rewrite Fe; exact E].
  rewrite K, He, Fb.
  destruct (backup_file w) as [existing|]; [|reflexivity].
  exists (clock wd (ticks wd)). reflexivity.
Qed.

Lemma rollback_saves_working_file_witness :
  backup_file (snd (rollbackCommand Remote.api asciiCollate
                      Cases.to_version_3 Scenes.old_env))
  = Some (lit "OLD=1" ++ [LF]).
Proof.
  apply (@rollback_saves_working_file _ Remote.api asciiCollate
           Cases.to_version_3 Scenes.old_env
           (snd (rollbackCommand Remote.api asciiCollate
                   Cases.to_version_3 Scenes.old_env))
           (lit "OLD=1" ++ [LF])).
  - vm_compute. reflexivity.
  - reflexivity.
Defined.

